(** * PuntoDB: the Punto rule engine

    A shallow embedding of the game core of the repository
    (src/game/Card.ts, Player.ts, Board.ts) and the properties of
    its placement rules, win detection, turn loop and reset.

    Conventions of the embedding.
    - A JavaScript number that holds a coordinate, a card value, a turn
      or a score is an integer of [Z].
    - An object reference to a player is the position of that player in
      [Board._players] (the list never changes after construction), so
      [===] on players is equality of positions, as is equality of their
      ids.
    - A card is a value; every card object of a game lives in exactly
      one place (a deck, a hand or the board), so no aliasing arises.
    - [Math.random] is an oracle: a list of naturals consumed from the
      front ([0] once exhausted); [Math.floor(Math.random() * n)] is
      the next natural modulo [n]. *)

From Stdlib Require Import ZArith Lia Bool.
From stdpp Require Import base list strings gmap.

Open Scope Z_scope.

(** A reference to a player object. *)
Abbreviation PlayerRef := nat (only parsing).

(** ** Randomness *)

(** The random source: [Math.random] read through
    [Math.floor(Math.random() * n)]. *)
Definition Rand := list nat.

Definition randomBelow (n r : nat) : nat := if (n =? 0)%nat then 0%nat else (r mod n)%nat.

Definition nextRandom (n : nat) (r : Rand) : nat * Rand := (randomBelow n (hd 0%nat r), tl r).

(** [a.splice(a.indexOf(e), 1)], where [same] recognises [e]: the first
    such element goes; [indexOf] is [-1] when there is none, and
    [splice(-1, 1)] removes the last element. *)
Definition spliceOut {A} (same : A -> bool) (a : list A) : list A :=
  match list_find (fun e => same e = true) a with
  | Some (i, _) => delete i a
  | None => removelast a
  end.

(** A loop body that may throw, run over a list. *)
Fixpoint forEachM {S A} (f : S -> A -> option S) (l : list A) (s : S) : option S :=
  match l with
  | [] => Some s
  | a :: l' => s' ← f s a; forEachM f l' s'
  end.

(** ** Card.ts *)

Module Coordinates.
Record t := mk { x : Z; y : Z }.
End Coordinates.

Module Card.

(** The fields of class [Card]; [id] stands for the UUID of [BaseId].
    The constructor's default coordinates are the pair (NaN, NaN),
    which [Z] cannot hold: [new] writes (0, 0) in their place.  Board
    only reads the coordinates of the cards of [_cards], and every one
    of them got its coordinates from [placeCard]. *)
Record t := mk {
  id : nat;
  color : string;
  value : Z;
  coordinates : Coordinates.t;
  playedTurn : Z;
  playedIn : Z;
  playedBy : option PlayerRef }.

Definition x (c : t) : Z := Coordinates.x (coordinates c).
Definition y (c : t) : Z := Coordinates.y (coordinates c).

(** [new Card(color, value)] *)
Definition new (i : nat) (col : string) (v : Z) : t :=
  mk i col v (Coordinates.mk 0 0) (-1) (-1) None.

(** The five assignments of [placeCard]. *)
Definition placed (c : t) (px py turn playerTurn : Z) (player : PlayerRef) : t :=
  mk (id c) (color c) (value c) (Coordinates.mk px py) turn playerTurn (Some player).

End Card.

(** ** Player.ts *)

Record PlayerOptions := mkPlayerOptions {
  opt_name : string;
  opt_points : option Z;
  opt_isTurn : option bool }.

Module Player.

Record t := mk {
  name : string;
  deck : list Card.t;
  hand : option Card.t;
  points : Z;
  isTurn : bool;
  color : list string;
  nbrFirstPlayer : Z }.

Definition set_deck (d : list Card.t) (p : t) : t :=
  mk (name p) d (hand p) (points p) (isTurn p) (color p) (nbrFirstPlayer p).
Definition set_hand (h : option Card.t) (p : t) : t :=
  mk (name p) (deck p) h (points p) (isTurn p) (color p) (nbrFirstPlayer p).
Definition set_isTurn (b : bool) (p : t) : t :=
  mk (name p) (deck p) (hand p) (points p) b (color p) (nbrFirstPlayer p).
Definition set_color (c : list string) (p : t) : t :=
  mk (name p) (deck p) (hand p) (points p) (isTurn p) c (nbrFirstPlayer p).
Definition set_nbrFirstPlayer (n : Z) (p : t) : t :=
  mk (name p) (deck p) (hand p) (points p) (isTurn p) (color p) n.

(** [new Player(playerOptions)]: [points ?? 0], [isTurn ?? false]. *)
Definition new (o : PlayerOptions) : t :=
  mk (opt_name o) [] None (default 0 (opt_points o))
     (default false (opt_isTurn o)) [] 0.

(** [drawCard]: [_deck.pop()] takes the last card of the array. *)
Definition drawCard (p : t) : bool * t :=
  match last (deck p) with
  | Some drawnCard => (true, set_hand (Some drawnCard) (set_deck (removelast (deck p)) p))
  | None => (false, p)
  end.

(** [cardInHand]: the card, or [false] ([None] here). *)
Definition cardInHand (p : t) : option Card.t := hand p.

Definition removeCardFromHand (p : t) : bool * t :=
  match hand p with
  | Some _ => (true, set_hand None p)
  | None => (false, p)
  end.

Definition addPoints (pts : Z) (p : t) : t :=
  mk (name p) (deck p) (hand p) (points p + pts) (isTurn p) (color p) (nbrFirstPlayer p).

(** [reset]: everything but the name and [nbrFirstPlayer]. *)
Definition reset (p : t) : t :=
  mk (name p) [] None 0 false [] (nbrFirstPlayer p).

(** [[a[i], a[j]] = [a[j], a[i]]] *)
Definition swap {A} (i j : nat) (a : list A) : list A :=
  match a !! i, a !! j with
  | Some ai, Some aj => <[j := ai]> (<[i := aj]> a)
  | _, _ => a
  end.

(** [for (let i = ...; i > 0; i--)] of [shuffleDeck], entered at [i]. *)
Fixpoint shuffleFrom {A} (i : nat) (a : list A) (r : Rand) : list A * Rand :=
  match i with
  | O => (a, r)
  | S i' =>
    let '(j, r') := nextRandom (i + 1) r in
    shuffleFrom i' (swap i j a) r'
  end.

Definition shuffleDeck (p : t) (r : Rand) : t * Rand :=
  let '(d, r') := shuffleFrom (length (deck p) - 1) (deck p) r in
  (set_deck d p, r').

Definition fillDeck (cards : list Card.t) (p : t) (r : Rand) : t * Rand :=
  shuffleDeck (set_deck (deck p ++ cards) p) r.

End Player.

(** ** Board.ts *)

Module WinType.
Inductive t := Win | Draw | Drop | None.
Definition eqb (a b : t) : bool :=
  match a, b with
  | Win, Win | Draw, Draw | Drop, Drop | None, None => true
  | _, _ => false
  end.
End WinType.

Module Board.

Record t := mk {
  cards : list Card.t;
  players : list Player.t;
  turn : Z;
  winType : WinType.t;
  winners : list PlayerRef;
  losers : list PlayerRef }.

Definition set_cards (cs : list Card.t) (b : t) : t :=
  mk cs (players b) (turn b) (winType b) (winners b) (losers b).
Definition set_players (ps : list Player.t) (b : t) : t :=
  mk (cards b) ps (turn b) (winType b) (winners b) (losers b).

(** A method call [player.m()] that mutates the player object: the
    object is the entry of [_players] at the reference. *)
Definition update_player (i : PlayerRef) (f : Player.t -> Player.t) (b : t) : t :=
  set_players (alter f i (players b)) b.

Definition boardIsEmpty (b : t) : bool := (length (cards b) =? 0)%nat.
Definition boardIsFull (b : t) : bool := (length (cards b) =? 72)%nat.
Definition isGameOver (b : t) : bool := negb (WinType.eqb (winType b) WinType.None).
Definition nbrPlayers (b : t) : nat := length (players b).


(** The four running extremes of [lineExceedsLimit]. *)
Record Extremes := mkExtremes {
  extremeMaxX : Z; extremeMinX : Z; extremeMaxY : Z; extremeMinY : Z }.

(** The four [if]s that widen the extremes to a point; the same code
    runs for every card of the board and then for the coordinates. *)
Definition widen (e : Extremes) (px py : Z) : Extremes :=
  mkExtremes
    (if px >? extremeMaxX e then px else extremeMaxX e)
    (if px <? extremeMinX e then px else extremeMinX e)
    (if py >? extremeMaxY e then py else extremeMaxY e)
    (if py <? extremeMinY e then py else extremeMinY e).

Definition boardExtremes (b : t) : Extremes :=
  fold_left (fun e cardOnBoard => widen e (Card.x cardOnBoard) (Card.y cardOnBoard))
            (cards b) (mkExtremes 0 0 0 0).

Definition lineExceedsLimit (b : t) (coordinates : Coordinates.t) (limit : Z) : bool :=
  let e := boardExtremes b in
  let xDistance := extremeMaxX e - extremeMinX e in
  let yDistance := extremeMaxY e - extremeMinY e in
  if (xDistance >=? limit) || (yDistance >=? limit) then true
  else
    let e' := widen e (Coordinates.x coordinates) (Coordinates.y coordinates) in
    let newXDistance := extremeMaxX e' - extremeMinX e' in
    let newYDistance := extremeMaxY e' - extremeMinY e' in
    if (newXDistance >=? limit) || (newYDistance >=? limit) then true else false.

(** The cell of a card and its neighbours, in the order of the nine
    pushes of [availableCoordinates]. *)
Definition possibleCoordinates (px py : Z) : list Coordinates.t :=
  let maxX := 5 in let minX := -5 in let maxY := 5 in let minY := -5 in
  [Coordinates.mk px py]
  ++ (if px + 1 <=? maxX then [Coordinates.mk (px + 1) py] else [])
  ++ (if px - 1 >=? minX then [Coordinates.mk (px - 1) py] else [])
  ++ (if py + 1 <=? maxY then [Coordinates.mk px (py + 1)] else [])
  ++ (if py - 1 >=? minY then [Coordinates.mk px (py - 1)] else [])
  ++ (if (px + 1 <=? maxX) && (py + 1 <=? maxY) then [Coordinates.mk (px + 1) (py + 1)] else [])
  ++ (if (px - 1 >=? minX) && (py - 1 >=? minY) then [Coordinates.mk (px - 1) (py - 1)] else [])
  ++ (if (px + 1 <=? maxX) && (py - 1 >=? minY) then [Coordinates.mk (px + 1) (py - 1)] else [])
  ++ (if (px - 1 >=? minX) && (py + 1 <=? maxY) then [Coordinates.mk (px - 1) (py + 1)] else []).

(** The filter callback: [canPlaceCard] starts [true] and is cleared by
    any card of the board on that cell whose value is [>=] the value
    to place. *)
Definition cellAccepts (b : t) (cardValue : Z) (coordinates : Coordinates.t) : bool :=
  fold_left
    (fun canPlaceCard cardOnBoard =>
       if (Card.x cardOnBoard =? Coordinates.x coordinates)
          && (Card.y cardOnBoard =? Coordinates.y coordinates)
       then (if Card.value cardOnBoard >=? cardValue then false else canPlaceCard)
       else canPlaceCard)
    (cards b) true.

Definition availableCoordinates (b : t) (cardValue : Z) : list Coordinates.t :=
  let availableCoordinates :=
    flat_map
      (fun cardOnBoard =>
         List.filter (cellAccepts b cardValue)
                     (possibleCoordinates (Card.x cardOnBoard) (Card.y cardOnBoard)))
      (cards b) in
  List.filter (fun coordinates => negb (lineExceedsLimit b coordinates 6)) availableCoordinates.

Definition cardCanBePlaced (b : t) (card : Card.t) (px py : Z) : bool :=
  if (px >? 5) || (px <? -5) || (py >? 5) || (py <? -5) then false
  else if lineExceedsLimit b (Coordinates.mk px py) 6 then false
  else if negb (boardIsEmpty b) then
    let availablesCoordinates := availableCoordinates b (Card.value card) in
    if (length availablesCoordinates =? 0)%nat then false
    else
      existsb (fun coordinates =>
                 (Coordinates.x coordinates =? px) && (Coordinates.y coordinates =? py))
              availablesCoordinates
  else true.

(** [placeCard]: the mutated card is also returned, being the caller's
    object as well as the new last element of [_cards]. *)
Definition placeCard (b : t) (card : Card.t) (px py turn : Z)
    (player : PlayerRef) (playerTurn : Z) : bool * t * Card.t :=
  if cardCanBePlaced b card px py then
    let card' := Card.placed card px py turn playerTurn player in
    (true, set_cards (cards b ++ [card']) b, card')
  else (false, b, card).

(** The hand of the player behind a reference. *)
Definition handOf (b : t) (player : PlayerRef) : option Card.t :=
  p ← players b !! player; Player.cardInHand p.

Definition playCard (b : t) (player : PlayerRef) (playerTurn : Z)
    (card : Card.t) (px py : Z) : string * t * Card.t :=
  match handOf b player with
  | None => ("The player does not have the card in hand.", b, card)
  | Some _ =>
    let '(placedOk, b', card') := placeCard b card px py (turn b) player playerTurn in
    if placedOk then
      let removedResult :=
        match players b' !! player with
        | Some p => fst (Player.removeCardFromHand p)
        | None => false
        end in
      let b'' := update_player player (fun p => snd (Player.removeCardFromHand p)) b' in
      if negb removedResult
      then ("The card could not be removed from the player's hand.", b'', card')
      else ("The card was successfully placed.", b'', card')
    else ("The card could not be placed.", b', card')
  end.

(** *** Series of aligned cards *)

(** A JavaScript object used as a map from a number to an array of
    cards, kept in the order in which the keys were created. *)
Definition Groups := list (Z * list Card.t).

Definition sameCell (px py : Z) (c : Card.t) : bool :=
  (Card.x c =? px) && (Card.y c =? py).

(** One pass of [this._cards.forEach] over one of the four maps: create
    the array of the key when missing, splice out of it every card on
    the cell of [card], push [card]. *)
Definition addToGroup (key : Z) (card : Card.t) (g : Groups) : Groups :=
  let g' := if existsb (fun kv => fst kv =? key) g then g else g ++ [(key, [])] in
  map (fun kv =>
         if fst kv =? key
         then (fst kv,
               List.filter (fun c => negb (sameCell (Card.x card) (Card.y card) c)) (snd kv)
               ++ [card])
         else kv) g'.

Definition groupBy (key : Card.t -> Z) (cs : list Card.t) : Groups :=
  fold_left (fun g card => addToGroup (key card) card g) cs [].

(** [Array.prototype.sort] with the comparator [a.k - b.k]: a stable
    sort by ascending key. *)
Fixpoint insertBy {A} (key : A -> Z) (a : A) (l : list A) : list A :=
  match l with
  | [] => [a]
  | b :: l' => if key a <? key b then a :: b :: l' else b :: insertBy key a l'
  end.

Definition sortBy {A} (key : A -> Z) (l : list A) : list A :=
  fold_left (fun acc a => insertBy key a acc) l [].

(** [for (const key in obj)]: the keys that are array indices (the
    non-negative integers) come first in ascending order, the other
    keys (the negative numbers) follow in creation order. *)
Definition forIn (g : Groups) : list (list Card.t) :=
  map snd (sortBy fst (List.filter (fun kv => 0 <=? fst kv) g)
           ++ List.filter (fun kv => fst kv <? 0) g).

(** The [cards.forEach] of the two straight scans; [coord] is [y] for
    the arrays of [cardsSameX] and [x] for those of [cardsSameY].  The
    state is [series], [counter] and the series pushed so far. *)
Definition lineStep (coord : Card.t -> Z) (length : Z)
    (st : list Card.t * nat * list (list Card.t)) (card : Card.t)
    : list Card.t * nat * list (list Card.t) :=
  let '(series, counter, out) := st in
  if (List.length series =? 0)%nat then (series ++ [card], 1%nat, out)
  else
    match series !! (counter - 1)%nat with
    | Some prev =>
      if (coord card =? coord prev + 1) && String.eqb (Card.color card) (Card.color prev)
      then
        let series' := series ++ [card] in
        if Z.of_nat (List.length series') >=? length
        then ([], 0%nat, out ++ [series'])
        else (series', S counter, out)
      else
        let out' := if Z.of_nat (List.length series) >=? length
                    then out ++ [series] else out in
        ([card], 1%nat, out')
    | None => st
    end.

Definition scanLine (coord : Card.t -> Z) (length : Z) (cs : list Card.t)
    : list (list Card.t) :=
  snd (fold_left (lineStep coord length) cs ([], 0%nat, [])).

Definition isNextInDiagonal (prevCard currentCard : Card.t) (isLeftToRight : bool) : bool :=
  if isLeftToRight
  then (Card.x currentCard =? Card.x prevCard + 1) && (Card.y currentCard =? Card.y prevCard + 1)
  else (Card.x currentCard =? Card.x prevCard + 1) && (Card.y currentCard =? Card.y prevCard - 1).

Definition sameRef (a b : option PlayerRef) : bool :=
  match a, b with
  | Some i, Some j => (i =? j)%nat
  | None, None => true
  | _, _ => false
  end.

Definition isSamePlayerAndColor (card1 card2 : Card.t) : bool :=
  String.eqb (Card.color card1) (Card.color card2)
  && sameRef (Card.playedBy card1) (Card.playedBy card2).

(** The loop of [findSeriesInDiagonal]; the state is [tempSeries] and
    [series]. *)
Definition diagonalStep (length : Z) (isLeftToRight : bool)
    (st : list Card.t * list (list Card.t)) (card : Card.t)
    : list Card.t * list (list Card.t) :=
  let '(tempSeries, series) := st in
  let continues :=
    match last tempSeries, head tempSeries with
    | Some lastCard, Some firstCard =>
      isNextInDiagonal lastCard card isLeftToRight && isSamePlayerAndColor firstCard card
    | _, _ => false
    end in
  if (List.length tempSeries =? 0)%nat || continues then (tempSeries ++ [card], series)
  else
    ([card], if Z.of_nat (List.length tempSeries) >=? length
             then series ++ [tempSeries] else series).

Definition findSeriesInDiagonal (cs : list Card.t) (length : Z) (isLeftToRight : bool)
    : list (list Card.t) :=
  let '(tempSeries, series) := fold_left (diagonalStep length isLeftToRight) cs ([], []) in
  if Z.of_nat (List.length tempSeries) >=? length then series ++ [tempSeries] else series.

Definition determineSeriesOfCards (b : t) (length : Z) : list (list Card.t) :=
  let cardsSameX := map (fun kv => (fst kv, sortBy Card.y (snd kv))) (groupBy Card.x (cards b)) in
  let cardsSameY := map (fun kv => (fst kv, sortBy Card.x (snd kv))) (groupBy Card.y (cards b)) in
  let cardsDiagonalLeftToRight :=
    map (fun kv => (fst kv, sortBy Card.x (snd kv)))
        (groupBy (fun c => Card.x c - Card.y c) (cards b)) in
  let cardsDiagonalRightToLeft :=
    map (fun kv => (fst kv, sortBy Card.x (snd kv)))
        (groupBy (fun c => Card.x c + Card.y c) (cards b)) in
  flat_map (scanLine Card.y length) (forIn cardsSameX)
  ++ flat_map (scanLine Card.x length) (forIn cardsSameY)
  ++ flat_map (fun cs => findSeriesInDiagonal cs length true) (forIn cardsDiagonalLeftToRight)
  ++ flat_map (fun cs => findSeriesInDiagonal cs length false) (forIn cardsDiagonalRightToLeft).

(** An element [{player, serie}] of [playersWithPossibleWinningSeries]. *)
Definition Entry := (PlayerRef * list Card.t)%type.

(** The inner [series.forEach((card, index, serie) => ...)] shared by
    [hasWinningSeries] and [determineWinnerForBlockedGame]: a [return]
    leaves the callback only, the loop goes on with the next card. *)
Definition ownerStep (length : Z) (serie : list Card.t)
    (st : option PlayerRef * list Entry) (ic : nat * Card.t)
    : option PlayerRef * list Entry :=
  let '(player, acc) := st in
  let '(index, card) := ic in
  match player with
  | Some p =>
    if negb (sameRef (Card.playedBy card) (Some p)) then st
    else if Z.of_nat index =? length - 1 then (player, acc ++ [(p, serie)])
    else st
  | None => (Card.playedBy card, acc)
  end.

Definition possibleWinningSeries (length : Z) (seriesOfCards : list (list Card.t))
    : list Entry :=
  flat_map
    (fun series =>
       snd (fold_left (ownerStep length series)
                      (combine (seq 0 (List.length series)) series) (None, [])))
    seriesOfCards.

Definition hasWinningSeries (b : t) (length : Z) : option PlayerRef :=
  let seriesOfCards := determineSeriesOfCards b length in
  let playersWithPossibleWinningSeries := possibleWinningSeries length seriesOfCards in
  match playersWithPossibleWinningSeries with
  | [e] => Some (fst e)
  | _ => None
  end.

Definition getPlayerTurn (b : t) : option PlayerRef :=
  fst <$> list_find (fun p => Player.isTurn p = true) (players b).

Definition isGameBlocked (b : t) : bool :=
  if boardIsFull b then true
  else
    match getPlayerTurn b with
    | Some playerWhoCantPlay =>
      match handOf b playerWhoCantPlay with
      | Some _ => true
      | None => false
      end
    | None => false
    end.

(** [series[0].playedBy === player] *)
Definition firstPlayedBy (player : PlayerRef) (series : list Card.t) : bool :=
  match head series with
  | Some c => sameRef (Card.playedBy c) (Some player)
  | None => false
  end.

Definition countSeries (player : PlayerRef) (seriesOfCards : list (list Card.t)) : Z :=
  fold_left (fun count series => if firstPlayedBy player series then count + 1 else count)
            seriesOfCards 0.

Definition sumSeries (player : PlayerRef) (seriesOfCards : list (list Card.t)) : Z :=
  fold_left
    (fun sum series =>
       if firstPlayedBy player series
       then fold_left (fun sum' card => sum' + Card.value card) series sum
       else sum)
    seriesOfCards 0.

(** The [forEach] that is meant to remove the duplicates, together with
    its [splice] on the array it walks.  [forEach] visits the indices
    [0 .. n-1] of the initial length [n] and skips the ones that no
    longer exist; the elements are distinct objects, so [indexOf] of the
    visited element is the visited index [k].  After a [splice] at [k]
    the next element slides to [k] and is not visited. *)
Fixpoint removeDuplicatesFrom (n k : nat) (seen : list PlayerRef)
    (arr : list (PlayerRef * Z)) : list (PlayerRef * Z) :=
  match n with
  | O => arr
  | S n' =>
    match arr !! k with
    | Some playerWithCount =>
      if negb (existsb (Nat.eqb (fst playerWithCount)) seen)
      then removeDuplicatesFrom n' (S k) (fst playerWithCount :: seen) arr
      else removeDuplicatesFrom n' (S k) seen (delete k arr)
    | None => removeDuplicatesFrom n' (S k) seen arr
    end
  end.

Definition removeDuplicates (arr : list (PlayerRef * Z)) : list (PlayerRef * Z) :=
  removeDuplicatesFrom (List.length arr) 0 [] arr.

(** [minSum] starts at [Infinity], which is [None] here. *)
Definition minSumOf (seriesOfCards : list (list Card.t)) (arr : list (PlayerRef * Z))
    : option Z :=
  fold_left
    (fun minSum playerWithCount =>
       let sum := sumSeries (fst playerWithCount) seriesOfCards in
       match minSum with
       | None => Some sum
       | Some m => if sum <? m then Some sum else minSum
       end)
    arr None.

Definition determineWinnerForBlockedGame (b : t) : list PlayerRef :=
  let length := 3 in
  let seriesOfCards := determineSeriesOfCards b length in
  let playersWithPossibleWinningSeries := possibleWinningSeries length seriesOfCards in
  if (1 <? List.length playersWithPossibleWinningSeries)%nat then
    let countSeriesOfCards :=
      map (fun e : Entry => (fst e, countSeries (fst e) seriesOfCards))
          playersWithPossibleWinningSeries in
    let maxCount :=
      fold_left (fun maxCount playerWithCount =>
                   if snd playerWithCount >? maxCount then snd playerWithCount else maxCount)
                countSeriesOfCards 0 in
    let playersWithMaxCount :=
      removeDuplicates
        (List.filter (fun playerWithCount => snd playerWithCount =? maxCount)
                     countSeriesOfCards) in
    if (1 <? List.length playersWithMaxCount)%nat then
      let minSum := minSumOf seriesOfCards playersWithMaxCount in
      let playersWithMinSum :=
        removeDuplicates
          (List.filter
             (fun playerWithCount =>
                match minSum with
                | Some m => sumSeries (fst playerWithCount) seriesOfCards =? m
                | None => false
                end)
             playersWithMaxCount) in
      map fst playersWithMinSum
    else
      (* playersWithMaxCount[0] exists: every entry counts its own series *)
      match playersWithMaxCount with
      | playerWithCount :: _ => [fst playerWithCount]
      | [] => []
      end
  else [].

(** [losers.filter((player) => winners.indexOf(player) === -1)] *)
Definition notAmong (winners : list PlayerRef) (losers : list PlayerRef) : list PlayerRef :=
  List.filter (fun player => negb (existsb (Nat.eqb player) winners)) losers.

Definition checkVictory (b : t) : WinType.t * list PlayerRef * list PlayerRef :=
  let winners : list PlayerRef := [] in
  let losers := seq 0 (List.length (players b)) in
  let winner := if (nbrPlayers b =? 2)%nat then hasWinningSeries b 5
                else hasWinningSeries b 4 in
  let winners := match winner with Some w => winners ++ [w] | None => winners end in
  if (0 <? List.length winners)%nat then
    (WinType.Win, winners, notAmong winners losers)
  else if isGameBlocked b then
    let winners := determineWinnerForBlockedGame b in
    let losers := notAmong winners losers in
    let winType := if (List.length winners =? 0)%nat then WinType.Draw else WinType.Win in
    (winType, winners, losers)
  else (WinType.None, winners, losers).

(** [addPoints()]: one point to every element of [_winners]. *)
Definition addPoints (b : t) : t :=
  fold_left (fun b' player => update_player player (Player.addPoints 1) b') (winners b) b.

Definition endGame (b : t) (winType : WinType.t) (winners losers : list PlayerRef) : t :=
  let b' := mk (cards b) (players b) (turn b) winType winners losers in
  if WinType.eqb winType WinType.Win then addPoints b' else b'.

(** *** The turn loop *)

Definition determineCardCoordinates (b : t) (cardValue : Z) (r : nat) : option Coordinates.t :=
  let availableCoordinates := availableCoordinates b cardValue in
  if (List.length availableCoordinates =? 0)%nat then None
  else availableCoordinates !! randomBelow (List.length availableCoordinates) r.

(** What [player.askCoordinates] resolves to: [false] (a refusal),
    coordinates, or coordinates with an [Infinity] in them (the console
    answer "auto"). *)
Inductive Reply := Refusal | At (px py : Z) | AutoPlay.

(** The outside world for one pass through the [do ... while] loop of
    [doATurn]: the reply the provider would give and the value
    [Math.random] would return, whichever the pass consults. *)
Record Prompt := mkPrompt { reply : Reply; pick : nat }.

Inductive LoopResult :=
| LoopExit (px py : Z) (rest : list Prompt)   (* cardCanBePlaced: leave the loop *)
| LoopRefused (rest : list Prompt)            (* no coordinates: checkVictory, endGame *)
| LoopAwait                                   (* suspended on the provider *)
| LoopSpin.                                   (* the pass would repeat unchanged *)

Fixpoint askLoop (auto : bool) (b : t) (card : Card.t) (px py : Z)
    (script : list Prompt) : LoopResult :=
  if boardIsEmpty b then
    if cardCanBePlaced b card px py then LoopExit px py script else LoopSpin
  else
    match script with
    | [] => LoopAwait
    | pr :: rest =>
      let coordinates :=
        if auto then determineCardCoordinates b (Card.value card) (pick pr)
        else
          match reply pr with
          | Refusal => None
          | At ax ay => Some (Coordinates.mk ax ay)
          | AutoPlay => determineCardCoordinates b (Card.value card) (pick pr)
          end in
      match coordinates with
      | Some c =>
        if cardCanBePlaced b card (Coordinates.x c) (Coordinates.y c)
        then LoopExit (Coordinates.x c) (Coordinates.y c) rest
        else askLoop auto b card (Coordinates.x c) (Coordinates.y c) rest
      | None => LoopRefused rest
      end
    end.

(** How a call of [doATurn] leaves. *)
Inductive Status :=
| Completed                (* all players played, the turn counter advanced *)
| Returned                 (* one of the [return]s inside the [for] loop *)
| Threw (msg : string)     (* a [throw new Error(msg)] *)
| Awaiting                 (* the script ran out while the provider was asked *)
| Spinning.                (* a [do ... while] pass that cannot make progress *)

Definition allPlayers (b : t) : list PlayerRef := seq 0 (List.length (players b)).

Definition endWithVictoryCheck (b : t) : t :=
  let '(winType, winners, losers) := checkVictory b in endGame b winType winners losers.

(** The body of [for (const player of this._players)].  The result is
    the board, the unread part of the script and how [doATurn] leaves,
    if it does ([None]: the loop carries on with the next player). *)
Definition playerStep (auto : bool) (b : t) (player : PlayerRef) (playerTurn : Z)
    (script : list Prompt) : t * list Prompt * option Status :=
  if isGameOver b then (b, script, Some Returned)
  else
    let b := update_player player (Player.set_isTurn true) b in
    match handOf b player with
    | Some _ => (b, script, Some (Threw "The player already has a card in hand."))
    | None =>
      let drawn :=
        match players b !! player with
        | Some p => fst (Player.drawCard p)
        | None => false
        end in
      let b := update_player player (fun p => snd (Player.drawCard p)) b in
      if negb drawn then (endWithVictoryCheck b, script, Some Returned)
      else
        match handOf b player with
        | None => (b, script, Some (Threw "The player does not have a card in hand."))
        | Some card =>
          match askLoop auto b card 0 0 script with
          | LoopAwait => (b, [], Some Awaiting)
          | LoopSpin => (b, script, Some Spinning)
          | LoopRefused rest => (endWithVictoryCheck b, rest, Some Returned)
          | LoopExit px py rest =>
            let '(playResult, b, _) := playCard b player playerTurn card px py in
            if negb (String.eqb playResult "The card was successfully placed.")
            then (endGame b WinType.Drop [] (allPlayers b), rest, Some Returned)
            else
              let '(winType, winners, losers) := checkVictory b in
              if negb (WinType.eqb winType WinType.None)
              then (endGame b winType winners losers, rest, Some Returned)
              else
                let b := update_player player (fun p => snd (Player.removeCardFromHand p)) b in
                let b := update_player player (Player.set_isTurn false) b in
                (b, rest, None)
          end
        end
    end.

Fixpoint forPlayers (auto : bool) (b : t) (refs : list PlayerRef) (playerTurn : Z)
    (script : list Prompt) : t * list Prompt * option Status :=
  match refs with
  | [] => (b, script, None)
  | player :: refs' =>
    match playerStep auto b player playerTurn script with
    | (b', rest, None) => forPlayers auto b' refs' (playerTurn + 1) rest
    | stop => stop
    end
  end.

Definition addTurn (b : t) : t :=
  mk (cards b) (players b) (turn b + 1) (winType b) (winners b) (losers b).

Definition doATurn (auto : bool) (b : t) (script : list Prompt) : t * list Prompt * Status :=
  if negb (WinType.eqb (winType b) WinType.None)
  then (b, script, Threw "The game is already over.")
  else
    match forPlayers auto b (allPlayers b) 0 script with
    | (b', rest, None) =>
      (update_player 0%nat (Player.set_isTurn true) (addTurn b'), rest, Completed)
    | (b', rest, Some status) => (b', rest, status)
    end.

(** *** Distribution, construction and reset *)

(** The eighteen cards of a colour, two per number, in creation order;
    the ids number the 72 cards of a distribution. *)
Definition cardsOfColor (ci : nat) (color : string) : list Card.t :=
  flat_map
    (fun kn : nat * Z =>
       [Card.new (18 * ci + 2 * fst kn) color (snd kn);
        Card.new (18 * ci + 2 * fst kn + 1) color (snd kn)])
    (combine (seq 0 9) [1; 2; 3; 4; 5; 6; 7; 8; 9]).

Definition allColors : list string := ["red"; "blue"; "green"; "yellow"]%string.

Definition newListCard : gmap string (list Card.t) :=
  list_to_map (imap (fun ci color => (color, cardsOfColor ci color)) allColors).

(** The state the [forEach] callbacks of [cardDistribution] share. *)
Record Dist := mkDist {
  d_players : list Player.t;
  d_colors : list string;
  d_listCard : gmap string (list Card.t);
  d_rand : Rand }.

(** [colors[Math.floor(Math.random() * colors.length)]] followed by
    [colors.splice(colors.indexOf(color), 1)].  With no colour left the
    pick is [undefined] and the use of [listCard[undefined]] throws. *)
Definition pickColor (d : Dist) : option (string * Dist) :=
  let '(i, r) := nextRandom (List.length (d_colors d)) (d_rand d) in
  color ← d_colors d !! i;
  Some (color,
        mkDist (d_players d) (spliceOut (String.eqb color) (d_colors d)) (d_listCard d) r).

Definition setColor (player : PlayerRef) (cs : list string) (d : Dist) : Dist :=
  mkDist (alter (Player.set_color cs) player (d_players d)) (d_colors d) (d_listCard d)
         (d_rand d).

(** [player.fillDeck(cards)] *)
Definition fillDeckOf (player : PlayerRef) (cs : list Card.t) (d : Dist) : option Dist :=
  p ← d_players d !! player;
  let '(p', r) := Player.fillDeck cs p (d_rand d) in
  Some (mkDist (<[player := p']> (d_players d)) (d_colors d) (d_listCard d) r).

(** [player.color.forEach((color) => player.fillDeck(listCard[color]))] *)
Definition fillOwnColors (player : PlayerRef) (d : Dist) : option Dist :=
  p ← d_players d !! player;
  forEachM (fun d' color => cs ← d_listCard d' !! color; fillDeckOf player cs d')
           (Player.color p) d.

(** One pass of the [for (let i = 0; i < 6; i++)] loop: a random card
    of the last colour leaves [listCard[lastColor]].  (The list holds
    18 cards for the 3 x 6 picks.) *)
Definition pickCard (lastColor : string) (st : Dist * list Card.t)
    : option (Dist * list Card.t) :=
  let '(d, listOf6RandomCards) := st in
  cs ← d_listCard d !! lastColor;
  let '(i, r) := nextRandom (List.length cs) (d_rand d) in
  randomCard ← cs !! i;
  let cs' := spliceOut (fun c => (Card.id c =? Card.id randomCard)%nat) cs in
  Some (mkDist (d_players d) (d_colors d) (<[lastColor := cs']> (d_listCard d)) r,
        listOf6RandomCards ++ [randomCard]).

Definition cardDistribution (b : t) (r : Rand) : option (t * Rand) :=
  let nbrPlayers := List.length (players b) in
  let d0 := mkDist (players b) allColors newListCard r in
  d ←
    (if (nbrPlayers =? 2)%nat then
       forEachM
         (fun d player =>
            '(color1, d) ← pickColor d;
            '(color2, d) ← pickColor d;
            fillOwnColors player (setColor player [color1; color2] d))
         (allPlayers b) d0
     else if (nbrPlayers =? 3)%nat then
       d ← forEachM
              (fun d player => '(color, d) ← pickColor d; Some (setColor player [color] d))
              (allPlayers b) d0;
       lastColor ← d_colors d !! 0%nat;
       forEachM
         (fun d player =>
            d ← fillOwnColors player d;
            '(d, listOf6RandomCards) ←
               forEachM (fun st _ => pickCard lastColor st) (seq 0 6) (d, []);
            fillDeckOf player listOf6RandomCards d)
         (allPlayers b) d
     else
       forEachM
         (fun d player =>
            '(color, d) ← pickColor d;
            fillOwnColors player (setColor player [color] d))
         (allPlayers b) d0);
  Some (set_players (d_players d) b, d_rand d).

(** [randomizePlayerTurn()] with its default [onlyWinners = false]. *)
Definition randomizePlayerTurn (onlyWinners : bool) (b : t) (r : Rand) : option (t * Rand) :=
  let u := (hd 0%nat r mod 1000)%nat in
  let playerWithTurn :=
    if onlyWinners && (0 <? List.length (winners b))%nat
    then winners b !! (u mod List.length (winners b))%nat
    else if (List.length (players b) =? 0)%nat then None
    else Some (u mod List.length (players b))%nat in
  i ← playerWithTurn;
  Some (update_player i (Player.set_isTurn true) b, tl r).

(** The callback of [this._players.forEach] in
    [playerTurnByNbrFirstPlayer(byMax)]; the running bound starts at
    [-Infinity] or [Infinity], which is [None] here. *)
Definition turnStep (byMax : bool) (st : PlayerRef * option Z) (ip : nat * Player.t)
    : PlayerRef * option Z :=
  let '(playerWithTurn, nbrFirstPlayer) := st in
  let '(i, player) := ip in
  let better :=
    match nbrFirstPlayer with
    | None => true
    | Some n => if byMax then Player.nbrFirstPlayer player >? n
                else Player.nbrFirstPlayer player <? n
    end in
  if better then (i, Some (Player.nbrFirstPlayer player)) else st.

(** [playerTurnByNbrFirstPlayer(byMax)]; [playerWithTurn] starts as
    [this._players[0]], and marking it throws when there is no player. *)
Definition playerTurnByNbrFirstPlayer (byMax : bool) (b : t) : option (PlayerRef * t) :=
  let '(playerWithTurn, _) :=
    fold_left (turnStep byMax)
              (combine (seq 0 (List.length (players b))) (players b)) (0%nat, None) in
  _ ← players b !! playerWithTurn;
  Some (playerWithTurn, update_player playerWithTurn (Player.set_isTurn true) b).

(** [new Board({nbrPlayers, listPlayerOptions})]; [None] is a throw. *)
Definition new (nbrPlayers : nat) (listPlayerOptions : list PlayerOptions) (r : Rand)
    : option (t * Rand) :=
  if (nbrPlayers <? 2)%nat || (4 <? nbrPlayers)%nat then None
  else
    listPlayer ← forEachM
                   (fun listPlayer i =>
                      currentPlayerOptions ← listPlayerOptions !! i;
                      Some (listPlayer ++ [Player.new currentPlayerOptions]))
                   (seq 0 nbrPlayers) [];
    let aPlayerHaveATurn :=
      existsb (fun o => default false (opt_isTurn o)) (take nbrPlayers listPlayerOptions) in
    let b := mk [] listPlayer 0 WinType.None [] [] in
    '(b, r) ← (if negb aPlayerHaveATurn then randomizePlayerTurn false b r else Some (b, r));
    cardDistribution b r.

(** [Board.build(cards, players, turn, winType, winners, losers)]: a
    board is constructed for as many players, under their names and
    turn flags, and its six fields are then overwritten with the
    arguments.  What remains of the construction is its throw and the
    randomness it has used. *)
Definition build (cards : list Card.t) (players : list Player.t) (turn : Z)
    (winType : WinType.t) (winners losers : list PlayerRef) (r : Rand) : option (t * Rand) :=
  '(_, r) ← new (List.length players)
                (map (fun player =>
                        mkPlayerOptions (Player.name player) None (Some (Player.isTurn player)))
                     players)
                r;
  Some (mk cards players turn winType winners losers, r).

(** [reset()]; the regenerated id of the board is not part of the
    model. *)
Definition reset (b : t) (r : Rand) : option (t * Rand) :=
  let b := set_cards [] b in
  let b := set_players (map Player.reset (players b)) b in
  let b := mk (cards b) (players b) 0 WinType.None (winners b) (losers b) in
  '(playerWithTurn, b) ← playerTurnByNbrFirstPlayer false b;
  let b := update_player playerWithTurn
             (fun p => Player.set_nbrFirstPlayer (Player.nbrFirstPlayer p + 1) p) b in
  let b := mk (cards b) (players b) (turn b) (winType b) [] [] in
  cardDistribution b r.

End Board.

(** ** Punto.ts *)

Module Punto.

(** [playATurn(nbrTurn)] without the display: up to [nbrTurn] calls of
    [doATurn], stopping at a finished game.  A call that returns is
    followed by the next pass of the loop; a call that throws, or that
    is left waiting for the provider, ends the run. *)
Fixpoint playATurn (nbrTurn : nat) (auto : bool) (b : Board.t) (script : list Board.Prompt)
    : Board.t * list Board.Prompt * Board.Status :=
  match nbrTurn with
  | O => (b, script, Board.Completed)
  | S n =>
    if Board.isGameOver b then (b, script, Board.Completed)
    else
      match Board.doATurn auto b script with
      | (b', rest, Board.Completed) | (b', rest, Board.Returned) => playATurn n auto b' rest
      | stop => stop
      end
  end.

(** [playUntilGameOver()] without the display.  The [while] loop makes
    at most [fuel] passes; [None] says that they were used up before
    the loop was left. *)
Fixpoint playUntilGameOver (fuel : nat) (auto : bool) (b : Board.t)
    (script : list Board.Prompt) : option (Board.t * list Board.Prompt * Board.Status) :=
  if Board.isGameOver b then Some (b, script, Board.Completed)
  else
    match fuel with
    | O => None
    | S n =>
      match Board.doATurn auto b script with
      | (b', rest, Board.Completed) | (b', rest, Board.Returned) =>
        playUntilGameOver n auto b' rest
      | stop => Some stop
      end
    end.

(** [playGame(nbrTurn)] *)
Definition playGame (nbrTurn : Z) (fuel : nat) (auto : bool) (b : Board.t)
    (script : list Board.Prompt) : option (Board.t * list Board.Prompt * Board.Status) :=
  if nbrTurn <=? 0 then playUntilGameOver fuel auto b script
  else Some (playATurn (Z.to_nat nbrTurn) auto b script).

End Punto.

(** * Vocabulary of the properties *)

(** The bounding box of the placed cards once a card at [(px, py)] is
    added: greatest and least coordinate on an axis. *)
Definition boxMax (p : Z) (l : list Z) : Z := fold_right Z.max p l.
Definition boxMin (p : Z) (l : list Z) : Z := fold_right Z.min p l.

Definition extentX (b : Board.t) (px : Z) : Z :=
  boxMax px (map Card.x (Board.cards b)) - boxMin px (map Card.x (Board.cards b)).
Definition extentY (b : Board.t) (py : Z) : Z :=
  boxMax py (map Card.y (Board.cards b)) - boxMin py (map Card.y (Board.cards b)).

Definition foldWiden (cs : list Card.t) (e : Board.Extremes) : Board.Extremes :=
  fold_left (fun e c => Board.widen e (Card.x c) (Card.y c)) cs e.

(** [player.hand = card], the setter the tests use to hand a card. *)
Definition giveHand (player : PlayerRef) (card : Card.t) (b : Board.t) : Board.t :=
  Board.update_player player (Player.set_hand (Some card)) b.

(** Players that differ in deck and colours only. *)
Definition sameButDeck (p p' : Player.t) : Prop :=
  Player.name p' = Player.name p /\ Player.hand p' = Player.hand p
  /\ Player.points p' = Player.points p /\ Player.isTurn p' = Player.isTurn p
  /\ Player.nbrFirstPlayer p' = Player.nbrFirstPlayer p.

Definition decksOf (ps : list Player.t) : list Card.t := flat_map Player.deck ps.

(** The cards of a colour at the start of a distribution. *)
Definition cardsFor (c : string) : list Card.t := default [] (Board.newListCard !! c).

(** The 72 cards of a distribution. *)
Definition fullPool : list Card.t := flat_map cardsFor Board.allColors.

Definition known (c : string) : Prop := Board.newListCard !! c = Some (cardsFor c).

(** What the loops over the players keep true: [left] colours remain to
    be dealt. *)
Record dealing (ps0 : list Player.t) (left : nat) (d : Board.Dist) : Prop := {
  dl_colors : length (Board.d_colors d) = left;
  dl_listCard : Board.d_listCard d = Board.newListCard;
  dl_players : Forall2 sameButDeck ps0 (Board.d_players d);
  dl_pool : decksOf (Board.d_players d) ++ flat_map cardsFor (Board.d_colors d)
              ≡ₚ decksOf ps0 ++ fullPool;
  dl_known : forall c, In c (Board.d_colors d) -> known c }.

(** The first loop for three players: one colour each. *)
Record coloring (ps0 : list Player.t) (k : nat) (d : Board.Dist) : Prop := {
  co_colors : (length (Board.d_colors d) + k = 4)%nat;
  co_listCard : Board.d_listCard d = Board.newListCard;
  co_players : Forall2 sameButDeck ps0 (Board.d_players d);
  co_decks : decksOf (Board.d_players d) = decksOf ps0;
  co_assigned : flat_map Player.color (take k (Board.d_players d)) ++ Board.d_colors d
                  ≡ₚ Board.allColors }.

(** The second loop for three players: own colour, then six cards of
    the last colour. *)
Record serving (ps0 : list Player.t) (lastColor : string) (cols : list (list string))
    (k : nat) (d : Board.Dist) : Prop := {
  sv_colors : map Player.color (Board.d_players d) = cols;
  sv_players : Forall2 sameButDeck ps0 (Board.d_players d);
  sv_others : forall c, c <> lastColor -> Board.d_listCard d !! c = Board.newListCard !! c;
  sv_last : exists rest,
      Board.d_listCard d !! lastColor = Some rest
      /\ (length rest + 6 * k = 18)%nat
      /\ NoDup (map Card.id rest)
      /\ decksOf (Board.d_players d) ++ rest ++ flat_map cardsFor (concat (drop k cols))
           ≡ₚ decksOf ps0 ++ fullPool }.

(** What a card shows: colour and value. *)
Definition face (c : Card.t) : string * Z := (Card.color c, Card.value c).

(** The cards a player holds: draw pile and hand. *)
Definition holdings (p : Player.t) : list Card.t := Player.deck p ++ option_list (Player.hand p).

(** All the cards of a game: placed, in the draw piles, in the hands. *)
Definition pool (b : Board.t) : list Card.t :=
  Board.cards b ++ flat_map holdings (Board.players b).

Definition conserved (b : Board.t) : Prop :=
  map face (pool b) ≡ₚ map face fullPool
  /\ (2 <= length (Board.players b) <= 4)%nat.

(** The states of a game: a constructed board, and what [reset] and
    [doATurn] make of a state, whatever the random source, the mode
    and the answers of the coordinate provider.  A call of [doATurn]
    that is suspended on the provider or has thrown leaves a state
    too. *)
Inductive reachable : Board.t -> Prop :=
| reach_new (n : nat) (opts : list PlayerOptions) (r r' : Rand) (b : Board.t) :
    Board.new n opts r = Some (b, r') -> reachable b
| reach_reset (b b' : Board.t) (r r' : Rand) :
    reachable b -> Board.reset b r = Some (b', r') -> reachable b'
| reach_turn (b b' : Board.t) (auto : bool) (script rest : list Board.Prompt)
    (st : Board.Status) :
    reachable b -> Board.doATurn auto b script = (b', rest, st) -> reachable b'.

Definition countFace (color : string) (value : Z) (cs : list Card.t) : nat :=
  length (List.filter (fun c => String.eqb (Card.color c) color && (Card.value c =? value)) cs).

Definition twoPlayers : list PlayerOptions :=
  [mkPlayerOptions "Player 1" (Some 0) (Some true);
   mkPlayerOptions "Player 2" (Some 0) (Some false)].

Definition noBoard : Board.t := Board.mk [] [] 0 WinType.None [] [].

(** The board [new Board] builds for two players when every random
    draw is 0: player 0 gets red and blue, player 1 green and yellow. *)
Definition freshGame : Board.t :=
  match Board.new 2 twoPlayers [] with
  | Some (b, _) => b
  | None => noBoard
  end.

Definition at_ (px py : Z) : Board.Prompt := Board.mkPrompt (Board.At px py) 0.
Definition refuse : Board.Prompt := Board.mkPrompt Board.Refusal 0.

(** What is to be seen of a card: colour, value, cell, owner. *)
Definition glance (c : Card.t) : string * Z * Z * Z * option nat :=
  (Card.color c, Card.value c, Card.x c, Card.y c, Card.playedBy c).

(** The state of a game after [n] full turns played by hand. *)
Definition after (n : nat) (script : list Board.Prompt) : Board.t :=
  (Punto.playATurn n false freshGame script).1.1.

(** The player has been given the turn and has drawn: the state in
    which [doATurn] asks them for coordinates. *)
Definition holding (player : nat) (b : Board.t) : Board.t :=
  Board.update_player player (fun p => (Player.drawCard p).2)
    (Board.update_player player (Player.set_isTurn true) b).

(** Three turns, then player 0 completes a row of three blue cards. *)
Definition oneRunScript : list Board.Prompt :=
  [at_ 1 1; at_ 1 0; at_ 2 1; at_ 2 0; at_ 3 1].
Definition oneRunGame : Board.t :=
  holding 1 (Board.playerStep false (after 3 oneRunScript) 0 0 [at_ 3 0]).1.1.

(** Nine turns, then player 0 covers the red 1 at the corner with a blue
    5 and completes a row and a column of five blue cards at once. *)
Definition crossingScript : list Board.Prompt :=
  [at_ 1 1; at_ 1 0; at_ 2 2; at_ 2 0; at_ 3 3; at_ 3 0; at_ 1 2; at_ 4 0; at_ 2 1;
   at_ 0 1; at_ 1 3; at_ 0 2; at_ 3 1; at_ 0 3; at_ 2 3; at_ 0 4; at_ 3 2].
Definition crossingGame : Board.t :=
  (Board.playerStep false (after 9 crossingScript) 0 0 [at_ 0 0]).1.1.

(** Eight turns in which player 0 lays seven blue cards of a block of
    three by three; the next card on (2,2) gives two rows, two
    columns and a diagonal of three. *)
Definition blockScript : list Board.Prompt :=
  [at_ 0 1; at_ 1 0; at_ 0 2; at_ 2 0; at_ 0 (-1); at_ 3 0; at_ 1 (-1); at_ 1 1; at_ 3 (-1);
   at_ 2 1; at_ 4 0; at_ 3 1; at_ 4 2; at_ 1 2; at_ 0 3].
Definition blockGame : Board.t := after 8 blockScript.

(** The game after its first turn: a red 1 on (0,0) and a green 1 on
    (1,1). *)
Definition openingGame : Board.t := after 1 [at_ 1 1].

(** ** Cells, invariants and fresh boards *)

(** The extent, on an axis, of the box around the placed cards, the
    cell [(px, py)] and the origin. *)
Definition spanX (b : Board.t) (px : Z) : Z :=
  boxMax 0 (px :: map Card.x (Board.cards b)) - boxMin 0 (px :: map Card.x (Board.cards b)).
Definition spanY (b : Board.t) (py : Z) : Z :=
  boxMax 0 (py :: map Card.y (Board.cards b)) - boxMin 0 (py :: map Card.y (Board.cards b)).

(** A card lies on the cell [(px, py)] or on one of the eight around it. *)
Definition touches (px py : Z) (c : Card.t) : Prop :=
  Z.abs (px - Card.x c) <= 1 /\ Z.abs (py - Card.y c) <= 1.

(** A card lies on the cell [(px, py)]. *)
Definition onCell (px py : Z) (c : Card.t) : Prop := Card.x c = px /\ Card.y c = py.

(** The mutations of a player object that [doATurn] performs outside
    [playCard], with what is known when they happen: a card is drawn
    into an empty hand, and the [removeCardFromHand] that follows a
    successful [playCard] finds the hand empty. *)
Inductive playerOp (b : Board.t) (player : nat) : (Player.t -> Player.t) -> Prop :=
| op_isTurn (v : bool) : playerOp b player (Player.set_isTurn v)
| op_draw : Board.handOf b player = None -> playerOp b player (fun p => (Player.drawCard p).2)
| op_remove :
    Board.handOf b player = None ->
    playerOp b player (fun p => (Player.removeCardFromHand p).2)
| op_points : Board.winType b = WinType.Win -> playerOp b player (Player.addPoints 1).

(** A property of the state that every step of [doATurn] keeps: the
    mutations of a player, the placement of the card in hand (by the
    player whose position in the turn order is [player], on a cell that
    [cardCanBePlaced] accepts, which is the origin on an empty board),
    the outcome [checkVictory] has found, the advance of the turn
    counter. *)
Record stable (I : Board.t -> Prop) : Prop := {
  st_player : forall b player f, playerOp b player f -> I b -> I (Board.update_player player f b);
  st_place : forall b card px py player,
      I b ->
      Board.handOf b player = Some card ->
      Board.cardCanBePlaced b card px py = true ->
      (Board.cards b = [] -> px = 0 /\ py = 0) ->
      I (Board.update_player player (Player.set_hand None)
           (Board.set_cards
              (Board.cards b
               ++ [Card.placed card px py (Board.turn b) (Z.of_nat player) player]) b));
  st_end : forall b wt ws ls,
      I b -> Board.winType b = WinType.None -> Board.checkVictory b = (wt, ws, ls) ->
      I (Board.mk (Board.cards b) (Board.players b) (Board.turn b) wt ws ls);
  st_turn : forall b,
      I b -> Board.winType b = WinType.None -> I (Board.addTurn b) }.

(** What identifies a player through a game. *)
Definition roster (p : Player.t) : string * list string * Z :=
  (Player.name p, Player.color p, Player.nbrFirstPlayer p).

(** A player after their part of a turn: the top card of the pile is
    gone, the hand is empty again, the turn flag is down. *)
Definition hasPlayed (p : Player.t) : Player.t :=
  Player.mk (Player.name p) (removelast (Player.deck p)) None (Player.points p) false
            (Player.color p) (Player.nbrFirstPlayer p).

(** The state of a running game between two turns: nobody holds a
    card, and every draw pile has [d] cards. *)
Definition ready (d : nat) (b : Board.t) : Prop :=
  Board.winType b = WinType.None
  /\ (2 <= length (Board.players b) <= 4)%nat
  /\ (forall p, In p (Board.players b) -> Player.hand p = None /\ length (Player.deck p) = d)
  /\ (length (Board.cards b) + length (Board.players b) * d = 72)%nat.

(** The state inside a turn when the players before position [k] have
    played and the others have not. *)
Definition midTurn (d k : nat) (b : Board.t) : Prop :=
  Board.winType b = WinType.None
  /\ forall i p,
       Board.players b !! i = Some p ->
       Player.hand p = None
       /\ ((i < k)%nat -> Player.isTurn p = false /\ length (Player.deck p) = d)
       /\ ((k <= i)%nat -> length (Player.deck p) = S d).

(** What the loop of [cardDistribution] for two or for four players
    has done when the players before position [k] have got their [m]
    colours. *)
Definition served (m k : nat) (d : Board.Dist) : Prop :=
  Board.d_listCard d = Board.newListCard
  /\ flat_map Player.color (take k (Board.d_players d)) ++ Board.d_colors d ≡ₚ Board.allColors
  /\ forall i p,
       Board.d_players d !! i = Some p ->
       Player.hand p = None
       /\ ((i < k)%nat ->
             length (Player.color p) = m
             /\ Player.deck p ≡ₚ flat_map cardsFor (Player.color p))
       /\ ((k <= i)%nat -> Player.deck p = []).

(** The first loop for three players: a colour each, no card yet. *)
Definition coloured (k : nat) (d : Board.Dist) : Prop :=
  Board.d_listCard d = Board.newListCard
  /\ flat_map Player.color (take k (Board.d_players d)) ++ Board.d_colors d ≡ₚ Board.allColors
  /\ forall i p,
       Board.d_players d !! i = Some p ->
       Player.hand p = None /\ Player.deck p = []
       /\ ((i < k)%nat -> length (Player.color p) = 1%nat).

(** The second loop for three players: the players before position
    [k] have the cards of their colour and six of the last colour. *)
Definition served3 (lastColor : string) (k : nat) (d : Board.Dist) : Prop :=
  (forall c, c <> lastColor -> Board.d_listCard d !! c = Board.newListCard !! c)
  /\ (exists rest,
        Board.d_listCard d !! lastColor = Some rest
        /\ (length rest + 6 * k = 18)%nat
        /\ NoDup (map Card.id rest)
        /\ forall x, In x rest -> In x (cardsFor lastColor))
  /\ flat_map Player.color (Board.d_players d) ++ [lastColor] ≡ₚ Board.allColors
  /\ forall i p,
       Board.d_players d !! i = Some p ->
       Player.hand p = None /\ length (Player.color p) = 1%nat
       /\ ((i < k)%nat ->
             exists six,
               Player.deck p ≡ₚ flat_map cardsFor (Player.color p) ++ six
               /\ length six = 6%nat /\ forall x, In x six -> In x (cardsFor lastColor))
       /\ ((k <= i)%nat -> Player.deck p = []).

(** A board as the constructor or [reset] leaves it. *)
Inductive fresh : Board.t -> Prop :=
| fresh_new (n : nat) (opts : list PlayerOptions) (r r' : Rand) (b : Board.t) :
    Board.new n opts r = Some (b, r') -> fresh b
| fresh_reset (b b' : Board.t) (r r' : Rand) :
    reachable b -> Board.reset b r = Some (b', r') -> fresh b'.

(** The answer "auto" to every request for coordinates. *)
Definition autoScript (n : nat) : list Board.Prompt :=
  repeat (Board.mkPrompt Board.AutoPlay 0) n.

(** [x] is at least as good as [y] for [playerTurnByNbrFirstPlayer]:
    not smaller when the greatest count is sought, not greater when the
    least is. *)
Definition atLeastAsGood (byMax : bool) (x y : Z) : Prop := if byMax then y <= x else x <= y.

(** A card of the list that no later card of the list covers. *)
Definition visible (cs : list Card.t) (c : Card.t) : Prop :=
  exists l1 l2, cs = l1 ++ c :: l2
                /\ forall d, In d l2 -> Board.sameCell (Card.x c) (Card.y c) d = false.

(** Every card of the list follows its predecessor as [step] says. *)
Definition chain (step : Card.t -> Card.t -> Prop) (s : list Card.t) : Prop :=
  forall i c c', s !! i = Some c -> s !! S i = Some c' -> step c c'.

(** Cards of one colour on cells that follow each other by [(dx, dy)]. *)
Definition aligned (dx dy : Z) (s : list Card.t) : Prop :=
  chain (fun c c' => Card.x c' = Card.x c + dx /\ Card.y c' = Card.y c + dy
                     /\ Card.color c' = Card.color c) s.

(** No colour has two owners, every card on the board bears a colour of
    the player who played it, and every card a player holds bears one
    of the player's colours. *)
Definition ownColours (b : Board.t) : Prop :=
  NoDup (flat_map Player.color (Board.players b))
  /\ (forall c, In c (Board.cards b) ->
        exists player p, Card.playedBy c = Some player /\ Board.players b !! player = Some p
                         /\ In (Card.color c) (Player.color p))
  /\ (forall player p c, Board.players b !! player = Some p -> In c (holdings p) ->
        In (Card.color c) (Player.color p)).

(** Three turns of the game for two players: player 0 lays a red 1 on
    the origin, a blue 9 above it and a blue 9 on the red 1; player 1
    lays a green 1, a yellow 9 and a yellow 9 on the green 1. *)
Definition stackedGame : Board.t :=
  after 3 [at_ 1 1; at_ 0 1; at_ (-1) 0; at_ 0 0; at_ 1 1].

(** * Properties *)

(** ** Placement rules *)

Section Placement.

Variable b : Board.t.

Lemma cellAccepts_sticky (cs : list Card.t) (v : Z) (co : Coordinates.t) :
  fold_left
    (fun canPlaceCard cardOnBoard =>
       if (Card.x cardOnBoard =? Coordinates.x co) && (Card.y cardOnBoard =? Coordinates.y co)
       then (if Card.value cardOnBoard >=? v then false else canPlaceCard)
       else canPlaceCard) cs false = false.
Proof.
  induction cs as [|c cs IH]; simpl; [reflexivity|].
  destruct (_ && _); [destruct (_ >=? _)|]; exact IH.
Qed.

Lemma cellAccepts_occupied (v : Z) (co : Coordinates.t) (c : Card.t) :
  In c (Board.cards b) ->
  Card.x c = Coordinates.x co -> Card.y c = Coordinates.y co ->
  Card.value c >= v ->
  Board.cellAccepts b v co = false.
Proof.
  unfold Board.cellAccepts. generalize true.
  induction (Board.cards b) as [|d cs IH]; intros acc Hin Hx Hy Hv; [destruct Hin|].
  simpl. destruct Hin as [-> | Hin].
  - rewrite Hx, Hy, !Z.eqb_refl. simpl.
    replace (Card.value c >=? v) with true by (symmetry; apply Z.geb_le; lia).
    apply cellAccepts_sticky.
  - apply IH; assumption.
Qed.

Lemma availableCoordinates_accepts (v : Z) (co : Coordinates.t) :
  In co (Board.availableCoordinates b v) -> Board.cellAccepts b v co = true.
Proof.
  unfold Board.availableCoordinates. intros H.
  apply filter_In in H as [H _]. apply in_flat_map in H as (c & _ & H).
  apply filter_In in H as [_ H]. exact H.
Qed.

Lemma availableCoordinates_within (v : Z) (co : Coordinates.t) :
  In co (Board.availableCoordinates b v) -> Board.lineExceedsLimit b co 6 = false.
Proof.
  unfold Board.availableCoordinates. intros H.
  apply filter_In in H as [_ H]. now apply negb_true_iff in H.
Qed.

Lemma cardCanBePlaced_available (card : Card.t) (px py : Z) :
  Board.boardIsEmpty b = false ->
  Board.cardCanBePlaced b card px py = true ->
  In (Coordinates.mk px py) (Board.availableCoordinates b (Card.value card)).
Proof.
  intros Hne. unfold Board.cardCanBePlaced. rewrite Hne. simpl.
  destruct (_ || _); [discriminate|].
  destruct (Board.lineExceedsLimit _ _ _); [discriminate|].
  destruct (_ =? _)%nat; [discriminate|].
  intros H. apply existsb_exists in H as ([cx cy] & Hin & Heq). simpl in Heq.
  apply andb_true_iff in Heq as [Hx Hy].
  apply Z.eqb_eq in Hx, Hy. now subst.
Qed.

End Placement.

Lemma boardIsEmpty_false (b : Board.t) (c : Card.t) :
  In c (Board.cards b) -> Board.boardIsEmpty b = false.
Proof.
  unfold Board.boardIsEmpty. destruct (Board.cards b); [intros []|reflexivity].
Qed.

Lemma availableCoordinates_occupied (b : Board.t) (v : Z) (onBoard : Card.t) (px py : Z) :
  In onBoard (Board.cards b) ->
  Card.x onBoard = px -> Card.y onBoard = py ->
  Card.value onBoard >= v ->
  ~ In (Coordinates.mk px py) (Board.availableCoordinates b v).
Proof.
  intros Hin Hx Hy Hv H. apply availableCoordinates_accepts in H.
  rewrite (cellAccepts_occupied b _ _ onBoard) in H; [discriminate|assumption..].
Qed.

Lemma cardCanBePlaced_occupied (b : Board.t) (card onBoard : Card.t) (px py : Z) :
  In onBoard (Board.cards b) ->
  Card.x onBoard = px -> Card.y onBoard = py ->
  Card.value onBoard >= Card.value card ->
  Board.cardCanBePlaced b card px py = false.
Proof.
  intros Hin Hx Hy Hv.
  destruct (Board.cardCanBePlaced b card px py) eqn:E; [|reflexivity].
  exfalso. apply (availableCoordinates_occupied b (Card.value card) onBoard px py);
    [assumption..|].
  apply cardCanBePlaced_available; [|exact E].
  now apply boardIsEmpty_false with onBoard.
Qed.

(** C5.  On a board that holds a card [onBoard] on the cell [(px, py)]
    whose value is at least the value of [card], [cardCanBePlaced]
    answers [false] for [card] on that cell and the cell is not among
    [availableCoordinates (value card)]. *)
Theorem occupied_cell_rejects (b : Board.t) (card onBoard : Card.t) (px py : Z) :
  In onBoard (Board.cards b) ->
  Card.x onBoard = px -> Card.y onBoard = py ->
  Card.value onBoard >= Card.value card ->
  Board.cardCanBePlaced b card px py = false
  /\ ~ In (Coordinates.mk px py) (Board.availableCoordinates b (Card.value card)).
Proof.
  intros Hin Hx Hy Hv. split.
  - now apply cardCanBePlaced_occupied with onBoard.
  - now apply availableCoordinates_occupied with onBoard.
Qed.

Lemma widen_bounds (e : Board.Extremes) (px py : Z) :
  Board.extremeMaxX (Board.widen e px py) = Z.max px (Board.extremeMaxX e)
  /\ Board.extremeMinX (Board.widen e px py) = Z.min px (Board.extremeMinX e)
  /\ Board.extremeMaxY (Board.widen e px py) = Z.max py (Board.extremeMaxY e)
  /\ Board.extremeMinY (Board.widen e px py) = Z.min py (Board.extremeMinY e).
Proof.
  unfold Board.widen; cbn [Board.extremeMaxX Board.extremeMinX Board.extremeMaxY Board.extremeMinY].
  repeat split.
  - destruct (Z.gtb_spec px (Board.extremeMaxX e)); lia.
  - destruct (Z.ltb_spec px (Board.extremeMinX e)); lia.
  - destruct (Z.gtb_spec py (Board.extremeMaxY e)); lia.
  - destruct (Z.ltb_spec py (Board.extremeMinY e)); lia.
Qed.

(** Each extreme is a running maximum or minimum of its own. *)
Lemma foldWiden_extremes (cs : list Card.t) (e : Board.Extremes) :
  Board.extremeMaxX (foldWiden cs e)
    = fold_left (fun m c => Z.max (Card.x c) m) cs (Board.extremeMaxX e)
  /\ Board.extremeMinX (foldWiden cs e)
    = fold_left (fun m c => Z.min (Card.x c) m) cs (Board.extremeMinX e)
  /\ Board.extremeMaxY (foldWiden cs e)
    = fold_left (fun m c => Z.max (Card.y c) m) cs (Board.extremeMaxY e)
  /\ Board.extremeMinY (foldWiden cs e)
    = fold_left (fun m c => Z.min (Card.y c) m) cs (Board.extremeMinY e).
Proof.
  revert e. induction cs as [|c cs IH]; intros e; [repeat split|].
  change (foldWiden (c :: cs) e) with (foldWiden cs (Board.widen e (Card.x c) (Card.y c))).
  destruct (IH (Board.widen e (Card.x c) (Card.y c))) as (I1 & I2 & I3 & I4).
  destruct (widen_bounds e (Card.x c) (Card.y c)) as (H1 & H2 & H3 & H4).
  rewrite I1, I2, I3, I4, H1, H2, H3, H4. repeat split.
Qed.

Lemma running_max_covers {A} (f : A -> Z) (l : list A) (m p : Z) :
  boxMax p (map f l) <= Z.max p (fold_left (fun m a => Z.max (f a) m) l m).
Proof.
  revert m. induction l as [|a l IH]; intros m; unfold boxMax in *; cbn [map fold_right fold_left].
  - lia.
  - specialize (IH (Z.max (f a) m)).
    assert (Z.max (f a) m <= fold_left (fun m a => Z.max (f a) m) l (Z.max (f a) m)).
    { clear IH. generalize (Z.max (f a) m). induction l as [|a' l IHl]; intros k; cbn [fold_left].
      - lia.
      - specialize (IHl (Z.max (f a') k)). lia. }
    lia.
Qed.

Lemma running_min_covers {A} (f : A -> Z) (l : list A) (m p : Z) :
  Z.min p (fold_left (fun m a => Z.min (f a) m) l m) <= boxMin p (map f l).
Proof.
  revert m. induction l as [|a l IH]; intros m; unfold boxMin in *; cbn [map fold_right fold_left].
  - lia.
  - specialize (IH (Z.min (f a) m)).
    assert (fold_left (fun m a => Z.min (f a) m) l (Z.min (f a) m) <= Z.min (f a) m).
    { clear IH. generalize (Z.min (f a) m). induction l as [|a' l IHl]; intros k; cbn [fold_left].
      - lia.
      - specialize (IHl (Z.min (f a') k)). lia. }
    lia.
Qed.

(** What [lineExceedsLimit] measures is at least the extent of the
    bounding box: its extremes start from 0, so its box also holds the
    origin. *)
Lemma lineExceedsLimit_box (b : Board.t) (px py : Z) :
  extentX b px >= 6 \/ extentY b py >= 6 ->
  Board.lineExceedsLimit b (Coordinates.mk px py) 6 = true.
Proof.
  intros H. unfold Board.lineExceedsLimit. cbv zeta.
  match goal with |- (if ?c then _ else _) = _ => destruct c eqn:E1 end; [reflexivity|].
  match goal with |- (if ?c then _ else _) = _ => destruct c eqn:E2 end; [reflexivity|].
  exfalso.
  apply orb_false_iff in E2 as [Ex Ey].
  cbn [Coordinates.x Coordinates.y] in Ex, Ey.
  destruct (widen_bounds (Board.boardExtremes b) px py) as (H1 & H2 & H3 & H4).
  rewrite H1, H2 in Ex. rewrite H3, H4 in Ey.
  change (Board.boardExtremes b)
    with (foldWiden (Board.cards b) (Board.mkExtremes 0 0 0 0)) in Ex, Ey.
  destruct (foldWiden_extremes (Board.cards b) (Board.mkExtremes 0 0 0 0))
    as (F1 & F2 & F3 & F4).
  rewrite F1, F2 in Ex. rewrite F3, F4 in Ey.
  cbn [Board.extremeMaxX Board.extremeMinX Board.extremeMaxY Board.extremeMinY] in Ex, Ey.
  rewrite Z.geb_leb in Ex, Ey. apply Z.leb_gt in Ex, Ey.
  unfold extentX, extentY in H.
  pose proof (running_max_covers Card.x (Board.cards b) 0 px).
  pose proof (running_min_covers Card.x (Board.cards b) 0 px).
  pose proof (running_max_covers Card.y (Board.cards b) 0 py).
  pose proof (running_min_covers Card.y (Board.cards b) 0 py).
  destruct H; lia.
Qed.

(** C6.  When adding a card on the in-bound cell [(px, py)] makes the
    bounding box of the placed cards span 6 or more on an axis
    (greatest minus least coordinate), [cardCanBePlaced] answers
    [false] and the cell is in no [availableCoordinates]. *)
Theorem bounding_box_rejects (b : Board.t) (card : Card.t) (px py cardValue : Z) :
  -5 <= px <= 5 -> -5 <= py <= 5 ->
  extentX b px >= 6 \/ extentY b py >= 6 ->
  Board.cardCanBePlaced b card px py = false
  /\ ~ In (Coordinates.mk px py) (Board.availableCoordinates b cardValue).
Proof.
  intros _ _ H. apply lineExceedsLimit_box in H. split.
  - unfold Board.cardCanBePlaced. rewrite H.
    destruct (_ || _); reflexivity.
  - unfold Board.availableCoordinates. intros Hin.
    apply filter_In in Hin as [_ Hin]. rewrite H in Hin. discriminate.
Qed.

Lemma cardCanBePlaced_intro (b : Board.t) (card : Card.t) (px py : Z) :
  -5 <= px <= 5 -> -5 <= py <= 5 ->
  In (Coordinates.mk px py) (Board.availableCoordinates b (Card.value card)) ->
  Board.cardCanBePlaced b card px py = true.
Proof.
  intros Hx Hy Hin. unfold Board.cardCanBePlaced.
  replace (px >? 5) with false by (symmetry; rewrite Z.gtb_ltb; apply Z.ltb_ge; lia).
  replace (px <? -5) with false by (symmetry; apply Z.ltb_ge; lia).
  replace (py >? 5) with false by (symmetry; rewrite Z.gtb_ltb; apply Z.ltb_ge; lia).
  replace (py <? -5) with false by (symmetry; apply Z.ltb_ge; lia).
  cbn [orb].
  pose proof Hin as Hin'. unfold Board.availableCoordinates in Hin'.
  apply filter_In in Hin' as [_ Hl]. apply negb_true_iff in Hl. rewrite Hl.
  destruct (negb (Board.boardIsEmpty b)); [|reflexivity]. cbv zeta.
  destruct (Board.availableCoordinates b (Card.value card)) as [|a l] eqn:E; [destruct Hin|].
  cbn [length Nat.eqb]. apply existsb_exists. exists (Coordinates.mk px py).
  split; [exact Hin|]. cbn. now rewrite !Z.eqb_refl.
Qed.

(** A card lying alone at the origin takes any higher card on top. *)
Lemma cardCanBePlaced_on_lower (b : Board.t) (lower card : Card.t) :
  Board.cards b = [lower] ->
  Card.x lower = 0 -> Card.y lower = 0 ->
  Card.value lower < Card.value card ->
  Board.cardCanBePlaced b card 0 0 = true.
Proof.
  intros Hc Hx Hy Hv. apply cardCanBePlaced_intro; [lia..|].
  unfold Board.availableCoordinates. apply filter_In. split.
  - rewrite Hc. cbn [flat_map]. rewrite app_nil_r. apply filter_In. split.
    + rewrite Hx, Hy. left. reflexivity.
    + unfold Board.cellAccepts. rewrite Hc. cbn [fold_left Coordinates.x Coordinates.y].
      rewrite Hx, Hy. cbn [Z.eqb andb].
      replace (Card.value lower >=? Card.value card) with false; [reflexivity|].
      symmetry. rewrite Z.geb_leb. apply Z.leb_gt. lia.
  - apply negb_true_iff. unfold Board.lineExceedsLimit, Board.boardExtremes.
    rewrite Hc. cbn [fold_left]. rewrite Hx, Hy. reflexivity.
Qed.

Lemma cardCanBePlaced_first (b : Board.t) (card : Card.t) :
  Board.cards b = [] -> Board.cardCanBePlaced b card 0 0 = true.
Proof.
  intros Hc. unfold Board.cardCanBePlaced, Board.lineExceedsLimit, Board.boardExtremes,
    Board.boardIsEmpty. rewrite Hc. reflexivity.
Qed.

Lemma handOf_update (b : Board.t) (player : PlayerRef) (p : Player.t) (f : Player.t -> Player.t) :
  Board.players b !! player = Some p ->
  Board.handOf (Board.update_player player f b) player = Player.hand (f p).
Proof.
  intros Hp. unfold Board.handOf, Board.update_player. cbn [Board.players Board.set_players].
  rewrite list_lookup_alter_eq, Hp. reflexivity.
Qed.

(** [playCard] when the hand holds a card and the cell is legal. *)
Lemma playCard_success (b : Board.t) (player : PlayerRef) (h : Card.t)
    (playerTurn : Z) (card : Card.t) (px py : Z) :
  Board.handOf b player = Some h ->
  Board.cardCanBePlaced b card px py = true ->
  Board.playCard b player playerTurn card px py
  = ("The card was successfully placed."%string,
     Board.update_player player (Player.set_hand None)
       (Board.set_cards
          (Board.cards b ++ [Card.placed card px py (Board.turn b) playerTurn player]) b),
     Card.placed card px py (Board.turn b) playerTurn player).
Proof.
  intros Hh Hok. unfold Board.playCard, Board.placeCard. rewrite Hh, Hok.
  cbn [Board.players Board.set_cards].
  unfold Board.handOf in Hh.
  destruct (Board.players b !! player) as [p|] eqn:Hp; [|discriminate].
  cbn in Hh. unfold Player.cardInHand in Hh.
  unfold Player.removeCardFromHand. rewrite Hh. cbn [fst negb].
  f_equal. f_equal. unfold Board.update_player. f_equal.
  cbn [Board.players Board.set_cards].
  apply list_alter_ext; [|reflexivity]. intros q _.
  unfold Player.removeCardFromHand.
  destruct (Player.hand q) eqn:Hq; [reflexivity|].
  destruct q; cbn in Hq; subst; reflexivity.
Qed.

Lemma playCard_rejected (b : Board.t) (player : PlayerRef) (h : Card.t)
    (playerTurn : Z) (card : Card.t) (px py : Z) :
  Board.handOf b player = Some h ->
  Board.cardCanBePlaced b card px py = false ->
  Board.playCard b player playerTurn card px py
  = ("The card could not be placed."%string, b, card).
Proof.
  intros Hh Hno. unfold Board.playCard, Board.placeCard. now rewrite Hh, Hno.
Qed.

(** C8.  For a player whose hand is empty [playCard] returns the
    no-card-in-hand message, and the board it leaves (placed cards,
    every player's deck, hand and points) and the card it was given are
    the ones it received. *)
Theorem playCard_empty_hand (b : Board.t) (player : PlayerRef) (p : Player.t)
    (playerTurn : Z) (card : Card.t) (px py : Z) :
  Board.players b !! player = Some p ->
  Player.hand p = None ->
  Board.playCard b player playerTurn card px py
  = ("The player does not have the card in hand."%string, b, card).
Proof.
  intros Hp Hh. unfold Board.playCard, Board.handOf. rewrite Hp. cbn.
  unfold Player.cardInHand. now rewrite Hh.
Qed.

Lemma cardDistribution_cards (b b' : Board.t) (r r' : Rand) :
  Board.cardDistribution b r = Some (b', r') ->
  Board.cards b' = Board.cards b /\ Board.turn b' = Board.turn b
  /\ Board.winType b' = Board.winType b /\ Board.winners b' = Board.winners b
  /\ Board.losers b' = Board.losers b.
Proof.
  unfold Board.cardDistribution. cbv zeta.
  match goal with |- context [mbind _ ?m] => destruct m as [d|] end; [|discriminate].
  cbn. intros [= <- <-]. repeat split.
Qed.

Lemma new_fresh (n : nat) (opts : list PlayerOptions) (r r' : Rand) (b : Board.t) :
  Board.new n opts r = Some (b, r') ->
  Board.cards b = [] /\ Board.turn b = 0 /\ Board.winType b = WinType.None.
Proof.
  unfold Board.new. destruct (_ || _); [discriminate|].
  destruct (forEachM _ _ _) as [listPlayer|]; [|discriminate]. cbn -[Board.cardDistribution].
  destruct (negb _).
  - unfold Board.randomizePlayerTurn. cbn -[Board.cardDistribution].
    destruct (_ =? _)%nat; [discriminate|]. cbn -[Board.cardDistribution].
    intros H. apply cardDistribution_cards in H as (H1 & H2 & H3 & _).
    rewrite H1, H2, H3. repeat split.
  - cbn -[Board.cardDistribution].
    intros H. apply cardDistribution_cards in H as (H1 & H2 & H3 & _).
    rewrite H1, H2, H3. repeat split.
Qed.

Lemma giveHand_handOf (b : Board.t) (player : PlayerRef) (p : Player.t) (card : Card.t) :
  Board.players b !! player = Some p ->
  Board.handOf (giveHand player card b) player = Some card.
Proof. intros Hp. unfold giveHand. now rewrite (handOf_update _ _ p). Qed.

(** The scenario on any board without placed cards. *)
Lemma stacking_on_empty_board (b : Board.t) (player : PlayerRef) (p : Player.t)
    (card1 card2 card3 : Card.t) (t2 t3 : Z) :
  Board.cards b = [] ->
  Board.players b !! player = Some p ->
  Card.value card1 = 3 -> Card.value card2 <= 3 -> Card.value card3 > 3 ->
  let first := Card.placed card1 0 0 (Board.turn b) 0 player in
  let third := Card.placed card3 0 0 (Board.turn b) t3 player in
  exists b1 b3,
    Board.playCard (giveHand player card1 b) player 0 card1 0 0
      = ("The card was successfully placed."%string, b1, first)
    /\ Board.cards b1 = [first]
    /\ Board.playCard (giveHand player card2 b1) player t2 card2 0 0
      = ("The card could not be placed."%string, giveHand player card2 b1, card2)
    /\ Board.playCard (giveHand player card3 (giveHand player card2 b1)) player t3 card3 0 0
      = ("The card was successfully placed."%string, b3, third)
    /\ Board.cards b3 = [first; third].
Proof.
  intros Hc Hp V1 V2 V3 first third.
  assert (H1 : Board.cardCanBePlaced (giveHand player card1 b) card1 0 0 = true)
    by (apply cardCanBePlaced_first; exact Hc).
  pose proof (playCard_success _ player card1 0 card1 0 0
                (giveHand_handOf b player p card1 Hp) H1) as P1.
  cbn [giveHand Board.update_player Board.set_players Board.cards Board.turn] in P1.
  rewrite Hc in P1. cbn [app] in P1. fold first in P1.
  eexists. eexists. split; [exact P1|]. split; [reflexivity|].
  set (b1 := Board.update_player player (Player.set_hand None) _) in *.
  assert (Hp1 : exists p1, Board.players b1 !! player = Some p1).
  { subst b1. unfold Board.update_player, giveHand, Board.update_player.
    cbn [Board.players Board.set_players Board.set_cards].
    rewrite !list_lookup_alter_eq, Hp. eexists; reflexivity. }
  destruct Hp1 as [p1 Hp1].
  assert (Hb1 : Board.cards b1 = [first]) by reflexivity.
  assert (Ht1 : Board.turn b1 = Board.turn b) by reflexivity.
  split.
  { apply playCard_rejected with card2; [exact (giveHand_handOf b1 player p1 card2 Hp1)|].
    apply (cardCanBePlaced_occupied _ card2 first 0 0); [left; reflexivity|reflexivity..|].
    subst first. cbn. lia. }
  assert (Hp2 : exists p2, Board.players (giveHand player card2 b1) !! player = Some p2).
  { unfold giveHand, Board.update_player. cbn [Board.players Board.set_players].
    rewrite list_lookup_alter_eq, Hp1. eexists; reflexivity. }
  destruct Hp2 as [p2 Hp2].
  assert (H3 : Board.cardCanBePlaced (giveHand player card3 (giveHand player card2 b1))
                 card3 0 0 = true).
  { apply cardCanBePlaced_on_lower with first; [reflexivity..|]. subst first. cbn. lia. }
  pose proof (playCard_success _ player card3 t3 card3 0 0
                (giveHand_handOf _ player p2 card3 Hp2) H3) as P3.
  split; [exact P3|]. reflexivity.
Qed.

(** C7.  On a board just built for two players, a player who is
    handed a card of value 3 plays it on (0,0) with the
    placed-successfully message; handed a card of value at most 3 they
    then get the could-not-be-placed message on (0,0) and the board
    stays as it is; handed a card of value above 3 they place it on
    (0,0), and the board lists the lower card followed by the higher
    one. *)
Theorem stacking_scenario (opts : list PlayerOptions) (r r' : Rand) (b : Board.t)
    (player : PlayerRef) (p : Player.t) (card1 card2 card3 : Card.t) (t2 t3 : Z) :
  Board.new 2 opts r = Some (b, r') ->
  Board.players b !! player = Some p ->
  Card.value card1 = 3 -> Card.value card2 <= 3 -> Card.value card3 > 3 ->
  let first := Card.placed card1 0 0 0 0 player in
  let third := Card.placed card3 0 0 0 t3 player in
  exists b1 b3,
    Board.playCard (giveHand player card1 b) player 0 card1 0 0
      = ("The card was successfully placed."%string, b1, first)
    /\ Board.cards b1 = [first]
    /\ Board.playCard (giveHand player card2 b1) player t2 card2 0 0
      = ("The card could not be placed."%string, giveHand player card2 b1, card2)
    /\ Board.playCard (giveHand player card3 (giveHand player card2 b1)) player t3 card3 0 0
      = ("The card was successfully placed."%string, b3, third)
    /\ Board.cards b3 = [first; third].
Proof.
  intros Hnew Hp V1 V2 V3.
  apply new_fresh in Hnew as (Hc & Ht & _).
  pose proof (stacking_on_empty_board b player p card1 card2 card3 t2 t3 Hc Hp V1 V2 V3) as H.
  rewrite Ht in H. exact H.
Qed.

(** ** Shuffling and dealing *)

Lemma insert_Permutation {A} (l : list A) (i : nat) (x y : A) :
  l !! i = Some x -> <[i:=y]> l ≡ₚ y :: delete i l.
Proof.
  intros H. assert (i < length l)%nat by (eapply lookup_lt_Some; eauto).
  rewrite insert_take_drop, delete_take_drop by assumption.
  symmetry. apply Permutation_middle.
Qed.

Lemma swap_Permutation {A} (i j : nat) (a : list A) : Player.swap i j a ≡ₚ a.
Proof.
  unfold Player.swap.
  destruct (a !! i) as [ai|] eqn:Hi; [|reflexivity].
  destruct (a !! j) as [aj|] eqn:Hj; [|reflexivity].
  destruct (decide (i = j)) as [->|Hne].
  - rewrite list_insert_insert_eq. rewrite Hi in Hj. injection Hj as ->.
    now rewrite list_insert_id.
  - assert (H1 : <[i:=aj]> a !! j = Some aj) by (rewrite list_lookup_insert_ne; auto).
    rewrite (insert_Permutation _ j aj ai H1).
    pose proof (delete_Permutation _ _ _ H1) as P1.
    rewrite (insert_Permutation a i ai aj Hi) in P1 at 1.
    apply Permutation_cons_inv in P1. rewrite <- P1.
    symmetry. now apply delete_Permutation.
Qed.

Lemma shuffleFrom_Permutation {A} (i : nat) (a : list A) (r : Rand) :
  (Player.shuffleFrom i a r).1 ≡ₚ a.
Proof.
  revert a r. induction i as [|i IH]; intros a r; [reflexivity|].
  cbn [Player.shuffleFrom]. destruct (nextRandom _ _) as [j r'].
  rewrite IH. apply swap_Permutation.
Qed.

Lemma sameButDeck_refl (p : Player.t) : sameButDeck p p.
Proof. repeat split. Qed.

Lemma sameButDeck_trans (p q s : Player.t) :
  sameButDeck p q -> sameButDeck q s -> sameButDeck p s.
Proof. unfold sameButDeck. intuition congruence. Qed.

Lemma fillDeck_spec (cs : list Card.t) (p : Player.t) (r : Rand) :
  sameButDeck p (Player.fillDeck cs p r).1
  /\ Player.deck (Player.fillDeck cs p r).1 ≡ₚ Player.deck p ++ cs
  /\ Player.color (Player.fillDeck cs p r).1 = Player.color p.
Proof.
  unfold Player.fillDeck, Player.shuffleDeck.
  cbn [Player.deck Player.set_deck].
  pose proof (shuffleFrom_Permutation (length (Player.deck p ++ cs) - 1)
                (Player.deck p ++ cs) r) as HP.
  destruct (Player.shuffleFrom _ _ _) as [d r']. cbn in *.
  repeat split. exact HP.
Qed.

Lemma flat_map_alter {A B} (g : A -> list B) (f : A -> A) (i : nat) (l : list A) (p : A) :
  l !! i = Some p ->
  flat_map g (alter f i l) ≡ₚ g (f p) ++ flat_map g (delete i l)
  /\ flat_map g l ≡ₚ g p ++ flat_map g (delete i l).
Proof.
  intros H. assert (Hlt : (i < length l)%nat) by (eapply lookup_lt_Some; eauto).
  rewrite <- (take_drop_middle l i p H) at 1 3.
  rewrite delete_take_drop.
  assert (Hlen : length (take i l) = i) by (rewrite length_take; lia).
  rewrite alter_app_r_alt by lia. rewrite Hlen, Nat.sub_diag. cbn [alter list_alter].
  rewrite !flat_map_app. cbn [flat_map]. split.
  - apply Permutation_app_swap_app.
  - apply Permutation_app_swap_app.
Qed.

(** Replacing the player behind a reference: what it does to a list
    gathered from all players. *)
Lemma flat_map_insert_Permutation {A B} (g : A -> list B) (i : nat) (l : list A) (p q : A)
    (added : list B) :
  l !! i = Some p -> g q ≡ₚ g p ++ added ->
  flat_map g (<[i:=q]> l) ≡ₚ flat_map g l ++ added.
Proof.
  intros H Hg. rewrite list_insert_alter.
  destruct (flat_map_alter g (fun _ => q) i l p H) as [H1 H2].
  rewrite H1, H2, Hg. rewrite <- !app_assoc. apply Permutation_app_head, Permutation_app_comm.
Qed.

Lemma Forall2_insert_r {A} (R : A -> A -> Prop) (l : list A) (i : nat) (p q : A) :
  (forall a, R a a) -> l !! i = Some p -> R p q -> Forall2 R l (<[i:=q]> l).
Proof.
  intros Hrefl H HR. apply Forall2_same_length_lookup. split; [now rewrite length_insert|].
  intros j a a' Ha Ha'.
  destruct (decide (i = j)) as [->|Hne].
  - rewrite list_lookup_insert_eq in Ha' by (eapply lookup_lt_Some; eauto).
    congruence.
  - rewrite list_lookup_insert_ne in Ha' by assumption. rewrite Ha in Ha'.
    injection Ha' as <-. apply Hrefl.
Qed.

Lemma randomBelow_lt (n r : nat) : (0 < n)%nat -> (randomBelow n r < n)%nat.
Proof.
  intros H. unfold randomBelow. destruct (Nat.eqb_spec n 0); [lia|].
  apply Nat.mod_upper_bound. lia.
Qed.

Lemma spliceOut_found {A} (same : A -> bool) (a : list A) (x : A) :
  In x a -> same x = true ->
  exists e, In e a /\ same e = true /\ a ≡ₚ e :: spliceOut same a.
Proof.
  intros Hin Hs. unfold spliceOut.
  destruct (list_find (fun e => same e = true) a) as [[i e]|] eqn:E.
  - apply list_find_Some in E as (Hi & He & _).
    exists e. split; [|split; [exact He|now apply delete_Permutation]].
    apply list_elem_of_In. eapply list_elem_of_lookup_2; eauto.
  - exfalso. apply list_find_None in E. rewrite Forall_forall in E.
    apply (E x); [now apply list_elem_of_In|exact Hs].
Qed.

Lemma pickColor_spec (d : Board.Dist) :
  Board.d_colors d <> [] ->
  exists c d',
    Board.pickColor d = Some (c, d')
    /\ Board.d_players d' = Board.d_players d /\ Board.d_listCard d' = Board.d_listCard d
    /\ Board.d_colors d ≡ₚ c :: Board.d_colors d'.
Proof.
  intros Hne. unfold Board.pickColor.
  assert (Hlen : (0 < length (Board.d_colors d))%nat) by (destruct (Board.d_colors d); [congruence|cbn; lia]).
  unfold nextRandom.
  pose proof (randomBelow_lt (length (Board.d_colors d)) (hd 0%nat (Board.d_rand d)) Hlen) as Hlt.
  destruct (lookup_lt_is_Some_2 _ _ Hlt) as [c Hc]. rewrite Hc. cbn.
  eexists. eexists. split; [reflexivity|]. cbn. repeat split.
  assert (Hin : In c (Board.d_colors d))
    by (apply list_elem_of_In; eapply list_elem_of_lookup_2; eauto).
  destruct (spliceOut_found (String.eqb c) (Board.d_colors d) c Hin (String.eqb_refl c))
    as (e & _ & He & HP).
  apply String.eqb_eq in He. now subst e.
Qed.

Lemma fillDeckOf_spec (player : nat) (cs : list Card.t) (d : Board.Dist) (p : Player.t) :
  Board.d_players d !! player = Some p ->
  exists d',
    Board.fillDeckOf player cs d = Some d'
    /\ Board.d_colors d' = Board.d_colors d /\ Board.d_listCard d' = Board.d_listCard d
    /\ Forall2 sameButDeck (Board.d_players d) (Board.d_players d')
    /\ decksOf (Board.d_players d') ≡ₚ decksOf (Board.d_players d) ++ cs
    /\ map Player.color (Board.d_players d') = map Player.color (Board.d_players d).
Proof.
  intros Hp. unfold Board.fillDeckOf. rewrite Hp. cbn.
  destruct (fillDeck_spec cs p (Board.d_rand d)) as (Hs & Hd & Hc).
  destruct (Player.fillDeck cs p (Board.d_rand d)) as [p' r]. cbn in Hs, Hd, Hc.
  eexists. split; [reflexivity|]. cbn. repeat split.
  - apply Forall2_insert_r with p; auto using sameButDeck_refl.
  - unfold decksOf. now apply flat_map_insert_Permutation with p.
  - change (map Player.color) with (fmap (M:=list) Player.color).
    rewrite list_fmap_insert, Hc. apply list_insert_id.
    now rewrite list_lookup_fmap, Hp.
Qed.

Lemma setColor_spec (player : nat) (cs : list string) (d : Board.Dist) :
  Board.d_colors (Board.setColor player cs d) = Board.d_colors d
  /\ Board.d_listCard (Board.setColor player cs d) = Board.d_listCard d
  /\ Forall2 sameButDeck (Board.d_players d) (Board.d_players (Board.setColor player cs d))
  /\ decksOf (Board.d_players (Board.setColor player cs d)) = decksOf (Board.d_players d)
  /\ (forall p, Board.d_players d !! player = Some p ->
        exists p', Board.d_players (Board.setColor player cs d) !! player = Some p'
                   /\ Player.color p' = cs).
Proof.
  unfold Board.setColor.
  cbn [Board.d_colors Board.d_players Board.d_listCard Board.d_rand]. repeat split.
  - apply Forall2_same_length_lookup. split; [now rewrite length_alter|].
    intros j a a' Ha Ha'. rewrite list_lookup_alter in Ha'.
    destruct (decide (player = j)) as [->|]; rewrite Ha in Ha'; injection Ha' as <-;
      repeat split.
  - unfold decksOf. rewrite !flat_map_concat_map. f_equal.
    change (map Player.deck) with (fmap (M:=list) Player.deck).
    apply list_eq. intros j. rewrite !list_lookup_fmap, list_lookup_alter.
    destruct (decide (player = j)) as [->|]; [|reflexivity].
    destruct (Board.d_players d !! j); reflexivity.
  - intros p Hp. rewrite list_lookup_alter_eq, Hp. eexists. split; reflexivity.
Qed.

Lemma untouched_refl (ps : list Player.t) : Forall2 sameButDeck ps ps.
Proof.
  apply Forall2_same_length_lookup. split; [reflexivity|].
  intros j a a' Ha Ha'. rewrite Ha in Ha'. injection Ha' as <-. apply sameButDeck_refl.
Qed.

Lemma untouched_trans (ps qs rs : list Player.t) :
  Forall2 sameButDeck ps qs -> Forall2 sameButDeck qs rs -> Forall2 sameButDeck ps rs.
Proof.
  intros H1 H2. apply Forall2_same_length_lookup.
  pose proof (Forall2_length _ _ _ H1). pose proof (Forall2_length _ _ _ H2).
  split; [congruence|]. intros j a c Ha Hc.
  destruct (lookup_lt_is_Some_2 qs j) as [q Hq].
  { replace (length qs) with (length ps) by assumption. eapply lookup_lt_Some; eauto. }
  eapply sameButDeck_trans.
  - eapply Forall2_lookup_lr; [exact H1| |]; eauto.
  - eapply Forall2_lookup_lr; [exact H2| |]; eauto.
Qed.

Lemma fillColors_spec (player : nat) (colors : list string) (d : Board.Dist) (p : Player.t) :
  Board.d_players d !! player = Some p ->
  (forall c, In c colors -> Board.d_listCard d !! c = Some (cardsFor c)) ->
  exists d',
    forEachM (fun d' color => cs ← Board.d_listCard d' !! color; Board.fillDeckOf player cs d')
             colors d = Some d'
    /\ Board.d_colors d' = Board.d_colors d /\ Board.d_listCard d' = Board.d_listCard d
    /\ Forall2 sameButDeck (Board.d_players d) (Board.d_players d')
    /\ decksOf (Board.d_players d') ≡ₚ decksOf (Board.d_players d) ++ flat_map cardsFor colors
    /\ map Player.color (Board.d_players d') = map Player.color (Board.d_players d).
Proof.
  revert d p. induction colors as [|c colors IH]; intros d p Hp Hcs.
  - cbn. exists d. rewrite app_nil_r.
    repeat split; [apply untouched_refl|reflexivity].
  - cbn [forEachM]. rewrite (Hcs c) by (left; reflexivity). cbn.
    destruct (fillDeckOf_spec player (cardsFor c) d p Hp) as (d1 & E1 & C1 & L1 & S1 & D1 & K1).
    rewrite E1. cbn.
    assert (Hp1 : exists p1, Board.d_players d1 !! player = Some p1).
    { apply lookup_lt_is_Some_2. rewrite <- (Forall2_length _ _ _ S1).
      eapply lookup_lt_Some; eauto. }
    destruct Hp1 as [p1 Hp1].
    destruct (IH d1 p1 Hp1) as (d2 & E2 & C2 & L2 & S2 & D2 & K2).
    { intros c' Hc'. rewrite L1. apply Hcs. now right. }
    exists d2. split; [exact E2|]. repeat split; try congruence.
    + eapply untouched_trans; eauto.
    + rewrite D2, D1. cbn [flat_map]. now rewrite app_assoc.
Qed.

Lemma fillOwnColors_spec (player : nat) (d : Board.Dist) (p : Player.t) :
  Board.d_players d !! player = Some p ->
  (forall c, In c (Player.color p) -> Board.d_listCard d !! c = Some (cardsFor c)) ->
  exists d',
    Board.fillOwnColors player d = Some d'
    /\ Board.d_colors d' = Board.d_colors d /\ Board.d_listCard d' = Board.d_listCard d
    /\ Forall2 sameButDeck (Board.d_players d) (Board.d_players d')
    /\ decksOf (Board.d_players d')
         ≡ₚ decksOf (Board.d_players d) ++ flat_map cardsFor (Player.color p)
    /\ map Player.color (Board.d_players d') = map Player.color (Board.d_players d).
Proof.
  intros Hp Hcs. unfold Board.fillOwnColors. rewrite Hp. cbn.
  now apply fillColors_spec with p.
Qed.

Lemma forEachM_seq {St} (I : nat -> St -> Prop) (f : St -> nat -> option St)
    (n a : nat) (s : St) :
  I a s ->
  (forall k s, (a <= k < a + n)%nat -> I k s -> exists s', f s k = Some s' /\ I (S k) s') ->
  exists s', forEachM f (seq a n) s = Some s' /\ I (a + n)%nat s'.
Proof.
  revert a s. induction n as [|n IH]; intros a s H0 Hstep.
  - exists s. rewrite Nat.add_0_r. split; [reflexivity|exact H0].
  - cbn [seq forEachM].
    destruct (Hstep a s) as (s1 & E1 & H1); [lia|exact H0|].
    rewrite E1. cbn.
    destruct (IH (S a) s1 H1) as (s2 & E2 & H2).
    { intros k s' Hk. apply Hstep. lia. }
    exists s2. split; [exact E2|]. now replace (a + S n)%nat with (S a + n)%nat by lia.
Qed.

Lemma allColors_known (c : string) : In c Board.allColors -> known c.
Proof.
  unfold known, cardsFor.
  intros [<-|[<-|[<-|[<-|[]]]]]; vm_compute; reflexivity.
Qed.

Lemma dealing_start (ps0 : list Player.t) (r : Rand) :
  dealing ps0 4 (Board.mkDist ps0 Board.allColors Board.newListCard r).
Proof.
  split; cbn; [reflexivity|reflexivity|apply untouched_refl|reflexivity|apply allColors_known].
Qed.

Lemma pick_known (d : Board.Dist) (left : nat) :
  length (Board.d_colors d) = S left ->
  (forall c, In c (Board.d_colors d) -> known c) ->
  exists c d1,
    Board.pickColor d = Some (c, d1)
    /\ Board.d_players d1 = Board.d_players d
    /\ Board.d_listCard d1 = Board.d_listCard d
    /\ length (Board.d_colors d1) = left
    /\ Board.d_colors d ≡ₚ c :: Board.d_colors d1
    /\ known c
    /\ (forall c', In c' (Board.d_colors d1) -> known c').
Proof.
  intros Hc Hk.
  destruct (pickColor_spec d) as (c & d1 & E & P1 & L1 & C1).
  { intros H. rewrite H in Hc. discriminate. }
  exists c, d1. split; [exact E|]. split; [exact P1|]. split; [congruence|].
  split; [apply Permutation_length in C1; cbn in C1; lia|]. split; [exact C1|].
  split.
  - apply Hk. apply (Permutation_in c (symmetry C1)). now left.
  - intros c' Hin. apply Hk. apply (Permutation_in c' (symmetry C1)). now right.
Qed.

(** The callback of the loop for two players. *)
Lemma step_two_colors (ps0 : list Player.t) (left : nat) (d : Board.Dist) (player : nat) :
  dealing ps0 (S (S left)) d -> (player < length ps0)%nat ->
  exists d',
    ('(color1, d) ← Board.pickColor d;
     '(color2, d) ← Board.pickColor d;
     Board.fillOwnColors player (Board.setColor player [color1; color2] d)) = Some d'
    /\ dealing ps0 left d'.
Proof.
  intros [Hc Hl Hp Hpool Hk] Hlt.
  destruct (pick_known d (S left) Hc Hk) as (c1 & d1 & E1 & P1 & L1 & N1 & C1 & K1 & KK1).
  destruct (pick_known d1 left N1 KK1) as (c2 & d2 & E2 & P2 & L2 & N2 & C2 & K2 & KK2).
  rewrite E1. cbn -[Board.pickColor Board.fillOwnColors Board.setColor].
  rewrite E2. cbn -[Board.pickColor Board.fillOwnColors Board.setColor].
  destruct (setColor_spec player [c1; c2] d2) as (SC & SL & SP & SD & SK).
  assert (Hp2 : exists p2, Board.d_players d2 !! player = Some p2).
  { apply lookup_lt_is_Some_2. rewrite P2, P1, <- (Forall2_length _ _ _ Hp). exact Hlt. }
  destruct Hp2 as [p2 Hp2]. destruct (SK p2 Hp2) as (p3 & Hp3 & Hcol).
  destruct (fillOwnColors_spec player _ p3 Hp3) as (d4 & E4 & C4 & L4 & S4 & D4 & _).
  { rewrite Hcol, SL, L2, L1, Hl. intros c [<-|[<-|[]]]; assumption. }
  exists d4. split; [exact E4|]. split.
  - congruence.
  - congruence.
  - eapply untouched_trans; [|exact S4]. eapply untouched_trans; [|exact SP].
    now rewrite P2, P1.
  - rewrite D4, SD, P2, P1, C4, SC, Hcol, <- Hpool, C1, C2. cbn [flat_map].
    rewrite app_nil_r, <- !app_assoc. reflexivity.
  - rewrite C4, SC. exact KK2.
Qed.

(** The callback of the loop for four players. *)
Lemma step_one_color (ps0 : list Player.t) (left : nat) (d : Board.Dist) (player : nat) :
  dealing ps0 (S left) d -> (player < length ps0)%nat ->
  exists d',
    ('(color, d) ← Board.pickColor d;
     Board.fillOwnColors player (Board.setColor player [color] d)) = Some d'
    /\ dealing ps0 left d'.
Proof.
  intros [Hc Hl Hp Hpool Hk] Hlt.
  destruct (pick_known d left Hc Hk) as (c1 & d1 & E1 & P1 & L1 & N1 & C1 & K1 & KK1).
  rewrite E1. cbn -[Board.pickColor Board.fillOwnColors Board.setColor].
  destruct (setColor_spec player [c1] d1) as (SC & SL & SP & SD & SK).
  assert (Hp2 : exists p2, Board.d_players d1 !! player = Some p2).
  { apply lookup_lt_is_Some_2. rewrite P1, <- (Forall2_length _ _ _ Hp). exact Hlt. }
  destruct Hp2 as [p2 Hp2]. destruct (SK p2 Hp2) as (p3 & Hp3 & Hcol).
  destruct (fillOwnColors_spec player _ p3 Hp3) as (d4 & E4 & C4 & L4 & S4 & D4 & _).
  { rewrite Hcol, SL, L1, Hl. intros c [<-|[]]; assumption. }
  exists d4. split; [exact E4|]. split.
  - congruence.
  - congruence.
  - eapply untouched_trans; [|exact S4]. eapply untouched_trans; [|exact SP].
    now rewrite P1.
  - rewrite D4, SD, P1, C4, SC, Hcol, <- Hpool, C1. cbn [flat_map].
    rewrite app_nil_r, <- !app_assoc. reflexivity.
  - rewrite C4, SC. exact KK1.
Qed.

Lemma NoDup_ids_eq (cs : list Card.t) (c e : Card.t) :
  NoDup (map Card.id cs) -> In c cs -> In e cs -> Card.id e = Card.id c -> e = c.
Proof.
  intros Hnd Hc He Hid.
  apply list_elem_of_In, list_elem_of_lookup in Hc as [i Hi].
  apply list_elem_of_In, list_elem_of_lookup in He as [j Hj].
  assert (i = j).
  { apply (NoDup_lookup (map Card.id cs) i j (Card.id c)); [exact Hnd| |].
    - change (map Card.id cs) with (Card.id <$> cs). now rewrite list_lookup_fmap, Hi.
    - change (map Card.id cs) with (Card.id <$> cs). rewrite list_lookup_fmap, Hj.
      cbn. now rewrite Hid. }
  subst j. congruence.
Qed.

(** One pass of the loop that draws the six cards of the last colour. *)
Lemma pickCard_spec (lastColor : string) (d : Board.Dist) (six cs : list Card.t) :
  Board.d_listCard d !! lastColor = Some cs -> cs <> [] -> NoDup (map Card.id cs) ->
  exists c cs',
    Board.pickCard lastColor (d, six)
      = Some (Board.mkDist (Board.d_players d) (Board.d_colors d)
                (<[lastColor := cs']> (Board.d_listCard d))
                (tl (Board.d_rand d)),
              six ++ [c])
    /\ cs ≡ₚ c :: cs'.
Proof.
  intros Hl Hne Hnd. unfold Board.pickCard. rewrite Hl. cbn -[spliceOut].
  assert (Hlen : (0 < length cs)%nat) by (destruct cs; [congruence|cbn; lia]).
  pose proof (randomBelow_lt (length cs) (hd 0%nat (Board.d_rand d)) Hlen) as Hlt.
  destruct (lookup_lt_is_Some_2 _ _ Hlt) as [c Hc]. rewrite Hc. cbn -[spliceOut].
  eexists. eexists. split; [reflexivity|].
  assert (Hin : In c cs) by (apply list_elem_of_In; eapply list_elem_of_lookup_2; eauto).
  destruct (spliceOut_found (fun e => (Card.id e =? Card.id c)%nat) cs c Hin (Nat.eqb_refl _))
    as (e & He & Hid & HP).
  apply Nat.eqb_eq in Hid.
  now rewrite (NoDup_ids_eq cs c e Hnd Hin He Hid) in HP.
Qed.

Lemma pickCards_spec (lastColor : string) (m : nat) (d : Board.Dist) (six cs : list Card.t)
    (a : nat) :
  Board.d_listCard d !! lastColor = Some cs -> (m <= length cs)%nat ->
  NoDup (map Card.id cs) ->
  exists d' picked cs',
    forEachM (fun st _ => Board.pickCard lastColor st) (seq a m) (d, six)
      = Some (d', six ++ picked)
    /\ Board.d_players d' = Board.d_players d /\ Board.d_colors d' = Board.d_colors d
    /\ Board.d_listCard d' = <[lastColor := cs']> (Board.d_listCard d)
    /\ cs ≡ₚ picked ++ cs' /\ length picked = m.
Proof.
  revert d six cs a. induction m as [|m IH]; intros d six cs a Hl Hm Hnd.
  - exists d, [], cs. cbn. rewrite app_nil_r.
    split; [reflexivity|]. split; [reflexivity|]. split; [reflexivity|].
    split; [now rewrite insert_id|]. split; reflexivity.
  - cbn [seq forEachM].
    destruct (pickCard_spec lastColor d six cs Hl) as (c & cs1 & E & HP); [|exact Hnd|].
    { intros ->. cbn in Hm. lia. }
    rewrite E. cbn -[Board.pickCard].
    set (d1 := Board.mkDist _ _ _ _).
    destruct (IH d1 (six ++ [c]) cs1 (S a))
      as (d' & picked & cs' & E' & P' & C' & L' & HP' & Hlen).
    { subst d1. cbn. now rewrite lookup_insert_eq. }
    { apply Permutation_length in HP. cbn in HP. lia. }
    { apply (NoDup_cons_1_2 (Card.id c)).
      change (NoDup (map Card.id (c :: cs1))). now rewrite <- HP. }
    exists d', (c :: picked), cs'. split; [|repeat split].
    + rewrite E'. now rewrite <- app_assoc.
    + exact P'.
    + exact C'.
    + rewrite L'. subst d1. cbn. now rewrite insert_insert_eq.
    + rewrite HP, HP'. reflexivity.
    + cbn. now rewrite Hlen.
Qed.

Lemma step_coloring (ps0 : list Player.t) (k : nat) (d : Board.Dist) :
  coloring ps0 k d -> (k < length ps0)%nat -> (k < 4)%nat ->
  exists d',
    ('(color, d) ← Board.pickColor d; Some (Board.setColor k [color] d)) = Some d'
    /\ coloring ps0 (S k) d'.
Proof.
  intros [Hc Hl Hp Hd Ha] Hlt Hk.
  destruct (pickColor_spec d) as (c & d1 & E & P1 & L1 & C1).
  { intros H. rewrite H in Hc. cbn in Hc. lia. }
  rewrite E. cbn -[Board.setColor].
  destruct (setColor_spec k [c] d1) as (SC & SL & SP & SD & SK).
  assert (Hpk : exists p, Board.d_players d1 !! k = Some p).
  { apply lookup_lt_is_Some_2. rewrite P1, <- (Forall2_length _ _ _ Hp). exact Hlt. }
  destruct Hpk as [p Hpk]. destruct (SK p Hpk) as (p' & Hp' & Hcol).
  eexists. split; [reflexivity|]. split.
  - rewrite SC. apply Permutation_length in C1. cbn in C1. lia.
  - congruence.
  - eapply untouched_trans; [|exact SP]. now rewrite P1.
  - now rewrite SD, P1.
  - rewrite (take_S_r _ _ _ Hp'), flat_map_app. cbn [flat_map]. rewrite Hcol, app_nil_r.
    unfold Board.setColor. cbn [Board.d_players Board.d_colors].
    rewrite take_alter_ge by lia. rewrite P1, <- Ha, C1.
    rewrite <- app_assoc. reflexivity.
Qed.

Lemma step_serving (ps0 : list Player.t) (lastColor : string) (cols : list (list string))
    (k : nat) (d : Board.Dist) :
  (forall c, In c (concat cols) -> c <> lastColor /\ known c) ->
  serving ps0 lastColor cols k d -> (k < length ps0)%nat -> (k < 3)%nat ->
  exists d',
    (d ← Board.fillOwnColors k d;
     '(d, listOf6RandomCards) ←
        forEachM (fun st _ => Board.pickCard lastColor st) (seq 0 6) (d, []);
     Board.fillDeckOf k listOf6RandomCards d) = Some d'
    /\ serving ps0 lastColor cols (S k) d'.
Proof.
  intros Hcols [Hc Hp Ho (rest & Hl & Hn & Hnd & Hpool)] Hlt Hk.
  assert (Hpk : exists p, Board.d_players d !! k = Some p).
  { apply lookup_lt_is_Some_2. now rewrite <- (Forall2_length _ _ _ Hp). }
  destruct Hpk as [p Hpk].
  assert (Hcol : cols !! k = Some (Player.color p)).
  { rewrite <- Hc. change (map Player.color) with (fmap (M:=list) Player.color).
    now rewrite list_lookup_fmap, Hpk. }
  assert (Hown : forall c, In c (Player.color p) -> c <> lastColor /\ known c).
  { intros c Hin. apply Hcols. apply in_concat. exists (Player.color p). split; [|exact Hin].
    apply list_elem_of_In. eapply list_elem_of_lookup_2; eauto. }
  destruct (fillOwnColors_spec k d p Hpk) as (d1 & E1 & C1 & L1 & S1 & D1 & K1).
  { intros c Hin. destruct (Hown c Hin) as [Hne Hkn]. rewrite Ho by exact Hne. exact Hkn. }
  rewrite E1. cbn -[Board.pickCard Board.fillDeckOf seq].
  destruct (pickCards_spec lastColor 6 d1 [] rest 0)
    as (d2 & picked & rest' & E2 & P2 & C2 & L2 & HP2 & Hsix); [congruence|lia|exact Hnd|].
  rewrite E2. cbn -[Board.pickCard Board.fillDeckOf seq].
  assert (Hpk2 : exists p2, Board.d_players d2 !! k = Some p2).
  { apply lookup_lt_is_Some_2. rewrite P2, <- (Forall2_length _ _ _ S1).
    eapply lookup_lt_Some; eauto. }
  destruct Hpk2 as [p2 Hpk2].
  destruct (fillDeckOf_spec k picked d2 p2 Hpk2) as (d3 & E3 & C3 & L3 & S3 & D3 & K3).
  exists d3. split; [exact E3|]. split.
  - now rewrite K3, P2, K1.
  - eapply untouched_trans; [exact Hp|]. eapply untouched_trans; [exact S1|].
    rewrite <- P2. exact S3.
  - intros c Hne. rewrite L3, L2, lookup_insert_ne by congruence. rewrite L1. now apply Ho.
  - exists rest'. split; [rewrite L3, L2; apply lookup_insert_eq|].
    split; [apply Permutation_length in HP2; rewrite length_app in HP2; lia|].
    split.
    + rewrite HP2 in Hnd. change (map Card.id) with (fmap (M:=list) Card.id) in *.
      rewrite fmap_app in Hnd. now apply NoDup_app in Hnd as (_ & _ & Hnd).
    + etransitivity; [|exact Hpool].
      rewrite D3, P2, D1, (drop_S _ _ _ Hcol). cbn [concat].
      rewrite flat_map_app, HP2. rewrite <- !app_assoc.
      apply Permutation_app_head.
      rewrite (Permutation_app_swap_app (flat_map cardsFor (Player.color p)) picked).
      apply Permutation_app_head. apply Permutation_app_swap_app.
Qed.

Lemma cardsFor_facts (c : string) :
  In c Board.allColors -> length (cardsFor c) = 18%nat /\ NoDup (map Card.id (cardsFor c)).
Proof.
  intros [<-|[<-|[<-|[<-|[]]]]]; (split; [reflexivity|]);
    apply (bool_decide_unpack _); vm_compute; reflexivity.
Qed.

Lemma allColors_NoDup : NoDup Board.allColors.
Proof. apply (bool_decide_unpack _). vm_compute. reflexivity. Qed.

(** [cardDistribution] on a board of two to four players: it returns,
    every deck grows, all 72 cards are dealt, nothing else changes. *)
Lemma cardDistribution_spec (b : Board.t) (r : Rand) :
  (2 <= length (Board.players b) <= 4)%nat ->
  exists ps' r',
    Board.cardDistribution b r = Some (Board.set_players ps' b, r')
    /\ Forall2 sameButDeck (Board.players b) ps'
    /\ decksOf ps' ≡ₚ decksOf (Board.players b) ++ fullPool.
Proof.
  intros Hn. unfold Board.cardDistribution. cbv zeta.
  set (ps0 := Board.players b). set (d0 := Board.mkDist ps0 _ _ r).
  assert (Hcase : length ps0 = 2%nat \/ length ps0 = 3%nat \/ length ps0 = 4%nat)
    by (subst ps0; lia).
  unfold Board.allPlayers. fold ps0.
  destruct Hcase as [H2|[H3|H4]].
  - rewrite H2. cbn [Nat.eqb].
    destruct (forEachM_seq (fun k d => dealing ps0 (4 - 2 * k) d)
                (fun d player =>
                   '(color1, d) ← Board.pickColor d;
                   '(color2, d) ← Board.pickColor d;
                   Board.fillOwnColors player (Board.setColor player [color1; color2] d))
                2 0 d0) as (d & E & Hd).
    + apply dealing_start.
    + intros k s Hk Hs. replace (4 - 2 * S k)%nat with (4 - 2 * k - 2)%nat by lia.
      apply step_two_colors; [|lia].
      now replace (S (S (4 - 2 * k - 2))) with (4 - 2 * k)%nat by lia.
    + rewrite E. cbn. eexists. eexists. split; [reflexivity|].
      destruct Hd as [Hc _ Hp Hpool _]. split; [exact Hp|].
      cbn in Hc. apply nil_length_inv in Hc. rewrite Hc in Hpool. cbn in Hpool.
      now rewrite app_nil_r in Hpool.
  - rewrite H3. cbn [Nat.eqb].
    destruct (forEachM_seq (fun k d => coloring ps0 k d)
                (fun d player =>
                   '(color, d) ← Board.pickColor d; Some (Board.setColor player [color] d))
                3 0 d0) as (d & E & [Hc Hl Hp Hd Ha]).
    + split; cbn; [reflexivity|reflexivity|apply untouched_refl|reflexivity|reflexivity].
    + intros k s Hk Hs. apply step_coloring; [exact Hs|lia|lia].
    + rewrite E. cbn -[forEachM seq].
      destruct (Board.d_colors d) as [|lastColor [|]] eqn:Ecol; cbn in Hc; try lia.
      cbn -[forEachM seq].
      rewrite take_ge in Ha by (rewrite <- (Forall2_length _ _ _ Hp); lia).
      set (cols := map Player.color (Board.d_players d)).
      assert (Hperm : concat cols ++ [lastColor] ≡ₚ Board.allColors)
        by (subst cols; now rewrite <- flat_map_concat_map).
      assert (Hall : forall c, In c (concat cols ++ [lastColor]) -> In c Board.allColors)
        by (intros c; apply Permutation_in; exact Hperm).
      assert (Hcols : forall c, In c (concat cols) -> c <> lastColor /\ known c).
      { intros c Hin. split.
        - pose proof allColors_NoDup as Hnd. rewrite <- Hperm in Hnd.
          apply NoDup_app in Hnd as (_ & Hnd & _). intros ->.
          apply (Hnd lastColor); [now apply list_elem_of_In|now left].
        - apply allColors_known, Hall, in_or_app. now left. }
      assert (Hlast : In lastColor Board.allColors)
        by (apply Hall, in_or_app; right; now left).
      destruct (forEachM_seq (fun k d => serving ps0 lastColor cols k d)
                  (fun d player =>
                     d ← Board.fillOwnColors player d;
                     '(d, listOf6RandomCards) ←
                        forEachM (fun st _ => Board.pickCard lastColor st) (seq 0 6) (d, []);
                     Board.fillDeckOf player listOf6RandomCards d)
                  3 0 d) as (d' & E' & [Hc' Hp' _ (rest & _ & Hn' & _ & Hpool')]).
      * split; [reflexivity|exact Hp|intros c _; now rewrite Hl|].
        exists (cardsFor lastColor).
        destruct (cardsFor_facts lastColor Hlast) as [Hlen Hnd].
        split; [rewrite Hl; now apply allColors_known|].
        split; [lia|]. split; [exact Hnd|].
        rewrite Hd. apply Permutation_app_head. cbn [drop].
        unfold fullPool. rewrite <- Hperm, flat_map_app. cbn [flat_map].
        rewrite app_nil_r. apply Permutation_app_comm.
      * intros k s Hk Hs. apply step_serving; [exact Hcols|exact Hs|lia|lia].
      * rewrite E'. cbn. eexists. eexists. split; [reflexivity|]. split; [exact Hp'|].
        assert (rest = []) by (apply nil_length_inv; lia). subst rest.
        rewrite drop_ge in Hpool'
          by (subst cols; rewrite length_map, <- (Forall2_length _ _ _ Hp); lia).
        cbn in Hpool'. now rewrite app_nil_r in Hpool'.
  - rewrite H4. cbn [Nat.eqb].
    destruct (forEachM_seq (fun k d => dealing ps0 (4 - k) d)
                (fun d player =>
                   '(color, d) ← Board.pickColor d;
                   Board.fillOwnColors player (Board.setColor player [color] d))
                4 0 d0) as (d & E & Hd).
    + apply dealing_start.
    + intros k s Hk Hs. replace (4 - S k)%nat with (4 - k - 1)%nat by lia.
      apply step_one_color; [|lia].
      now replace (S (4 - k - 1)) with (4 - k)%nat by lia.
    + rewrite E. cbn. eexists. eexists. split; [reflexivity|].
      destruct Hd as [Hc _ Hp Hpool _]. split; [exact Hp|].
      cbn in Hc. apply nil_length_inv in Hc. rewrite Hc in Hpool. cbn in Hpool.
      now rewrite app_nil_r in Hpool.
Qed.

(** ** Reset and the first player *)

Lemma leastStep_fold (l : list Player.t) (a i : nat) (v : Z) :
  exists j w,
    fold_left (Board.turnStep false) (combine (seq a (length l)) l) (i, Some v) = (j, Some w)
    /\ w <= v
    /\ (forall q, In q l -> w <= Player.nbrFirstPlayer q)
    /\ ((j = i /\ w = v)
        \/ (exists m q, l !! m = Some q /\ j = (a + m)%nat /\ Player.nbrFirstPlayer q = w)).
Proof.
  revert a i v. induction l as [|p l IH]; intros a i v.
  - exists i, v. cbn. split; [reflexivity|]. split; [lia|]. split; [intros q []|now left].
  - cbn [length seq combine fold_left]. unfold Board.turnStep at 2.
    destruct (Z.ltb_spec (Player.nbrFirstPlayer p) v) as [Hlt|Hge].
    + destruct (IH (S a) a (Player.nbrFirstPlayer p)) as (j & w & E & Hw & Hall & Hj).
      exists j, w. split; [exact E|]. split; [lia|]. split.
      * intros q [<-|Hq]; [exact Hw|now apply Hall].
      * right. destruct Hj as [[-> ->]|(m & q & Hm & -> & Hq)].
        -- exists 0%nat, p. repeat split. lia.
        -- exists (S m), q. repeat split; [exact Hm|lia|exact Hq].
    + destruct (IH (S a) i v) as (j & w & E & Hw & Hall & Hj).
      exists j, w. split; [exact E|]. split; [exact Hw|]. split.
      * intros q [<-|Hq]; [lia|now apply Hall].
      * destruct Hj as [[-> ->]|(m & q & Hm & -> & Hq)]; [now left|].
        right. exists (S m), q. repeat split; [exact Hm|lia|exact Hq].
Qed.

Lemma playerTurnByNbrFirstPlayer_least (b : Board.t) :
  Board.players b <> [] ->
  exists first pf,
    Board.playerTurnByNbrFirstPlayer false b
      = Some (first, Board.update_player first (Player.set_isTurn true) b)
    /\ Board.players b !! first = Some pf
    /\ (forall q, In q (Board.players b) ->
          Player.nbrFirstPlayer pf <= Player.nbrFirstPlayer q).
Proof.
  intros Hne. unfold Board.playerTurnByNbrFirstPlayer.
  change (fold_left _ ?l ?s) with (fold_left (Board.turnStep false) l s).
  destruct (Board.players b) as [|p l] eqn:E; [congruence|].
  cbn [length seq combine fold_left]. unfold Board.turnStep at 2. cbn iota beta.
  destruct (leastStep_fold l 1 0 (Player.nbrFirstPlayer p)) as (j & w & Ef & Hw & Hall & Hj).
  rewrite Ef.
  assert (Hjp : exists pf, (p :: l) !! j = Some pf /\ Player.nbrFirstPlayer pf = w).
  { destruct Hj as [[-> ->]|(m & q & Hm & -> & Hq)].
    - exists p. split; reflexivity.
    - exists q. split; [exact Hm|exact Hq]. }
  destruct Hjp as (pf & Hpf & Hv). rewrite Hpf. cbn.
  exists j, pf. split; [reflexivity|]. split; [exact Hpf|].
  intros q [<-|Hq]; [lia|]. rewrite Hv. now apply Hall.
Qed.

Lemma reset_keeps_nbrFirstPlayer (p : Player.t) :
  Player.nbrFirstPlayer (Player.reset p) = Player.nbrFirstPlayer p.
Proof. reflexivity. Qed.

(** C9.  On a board of two to four players [reset] returns a board
    with no placed card, turn 0, outcome [None], every score 0 and
    every hand empty.  One player [first], whose [nbrFirstPlayer] was
    least among all players, has that counter raised by one and is the
    only one with the turn; the counter of every other player is
    unchanged, so none decreases. *)
Theorem reset_spec (b : Board.t) (r : Rand) :
  (2 <= length (Board.players b) <= 4)%nat ->
  exists b' r' first pf,
    Board.reset b r = Some (b', r')
    /\ Board.cards b' = [] /\ Board.turn b' = 0 /\ Board.winType b' = WinType.None
    /\ (forall p', In p' (Board.players b') -> Player.points p' = 0 /\ Player.hand p' = None)
    /\ Board.players b !! first = Some pf
    /\ (forall q, In q (Board.players b) ->
          Player.nbrFirstPlayer pf <= Player.nbrFirstPlayer q)
    /\ length (Board.players b') = length (Board.players b)
    /\ (forall i p p', Board.players b !! i = Some p -> Board.players b' !! i = Some p' ->
          Player.nbrFirstPlayer p'
            = (if decide (i = first) then Player.nbrFirstPlayer p + 1
               else Player.nbrFirstPlayer p)
          /\ Player.isTurn p' = bool_decide (i = first)).
Proof.
  intros Hn. unfold Board.reset. cbv zeta.
  set (b3 := Board.mk _ _ 0 WinType.None _ _).
  assert (Hps3 : Board.players b3 = map Player.reset (Board.players b)) by reflexivity.
  destruct (playerTurnByNbrFirstPlayer_least b3) as (first & pf3 & E & Hpf3 & Hmin).
  { rewrite Hps3. destruct (Board.players b); cbn in *; [lia|congruence]. }
  rewrite E. cbn -[Board.cardDistribution Board.update_player].
  set (b6 := Board.mk _ _ _ _ [] []).
  destruct (cardDistribution_spec b6 r) as (ps' & r' & Ed & Hsame & _).
  { subst b6 b3. cbn. rewrite !length_alter, length_map. exact Hn. }
  rewrite Ed.
  rewrite Hps3 in Hpf3. change (map Player.reset) with (fmap (M:=list) Player.reset) in Hpf3.
  rewrite list_lookup_fmap in Hpf3.
  destruct (Board.players b !! first) as [pf|] eqn:Hpf; [|discriminate].
  injection Hpf3 as <-.
  exists (Board.set_players ps' b6), r', first, pf.
  split; [reflexivity|]. split; [reflexivity|]. split; [reflexivity|]. split; [reflexivity|].
  assert (Hlen : length ps' = length (Board.players b)).
  { rewrite <- (Forall2_length _ _ _ Hsame). subst b6 b3. cbn.
    now rewrite !length_alter, length_map. }
  assert (Hat : forall i p p', Board.players b !! i = Some p -> ps' !! i = Some p' ->
            sameButDeck
              (if decide (first = i)
               then Player.set_nbrFirstPlayer (Player.nbrFirstPlayer p + 1)
                      (Player.set_isTurn true (Player.reset p))
               else Player.reset p) p').
  { intros i p p' Hp Hp'.
    eapply Forall2_lookup_lr; [exact Hsame| |exact Hp'].
    subst b6 b3. cbn. rewrite list_lookup_alter.
    destruct (decide (first = i)) as [->|Hne].
    - rewrite list_lookup_alter_eq.
      change (map Player.reset) with (fmap (M:=list) Player.reset).
      rewrite list_lookup_fmap, Hp. reflexivity.
    - rewrite list_lookup_alter_ne by assumption.
      change (map Player.reset) with (fmap (M:=list) Player.reset).
      rewrite list_lookup_fmap, Hp. reflexivity. }
  split.
  { intros p' Hin. apply list_elem_of_In, list_elem_of_lookup in Hin as [i Hi].
    cbn in Hi.
    destruct (lookup_lt_is_Some_2 (Board.players b) i) as [p Hp].
    { rewrite <- Hlen. eapply lookup_lt_Some; eauto. }
    destruct (Hat i p p' Hp Hi) as (_ & Hh & Hpts & _).
    destruct (decide (first = i)); rewrite Hh, Hpts; split; reflexivity. }
  split; [exact Hpf|].
  split.
  { intros q Hq. apply (Hmin (Player.reset q)).
    rewrite Hps3. now apply in_map. }
  split; [exact Hlen|].
  intros i p p' Hp Hp'. cbn in Hp'.
  destruct (Hat i p p' Hp Hp') as (_ & _ & _ & Ht & Hnb).
  rewrite Hnb, Ht.
  destruct (decide (first = i)) as [->|Hne].
  - rewrite decide_True by reflexivity. rewrite bool_decide_eq_true_2 by reflexivity.
    split; reflexivity.
  - rewrite decide_False by congruence. rewrite bool_decide_eq_false_2 by congruence.
    split; reflexivity.
Qed.

(** ** Conservation of the 72 cards *)

Lemma pool_update (b : Board.t) (i : nat) (f : Player.t -> Player.t) :
  (forall p, Board.players b !! i = Some p ->
             map face (holdings (f p)) ≡ₚ map face (holdings p)) ->
  map face (pool (Board.update_player i f b)) ≡ₚ map face (pool b).
Proof.
  intros Hf. unfold pool, Board.update_player.
  cbn [Board.cards Board.players Board.set_players].
  rewrite !map_app. apply Permutation_app_head.
  destruct (Board.players b !! i) as [p|] eqn:Hp.
  - destruct (flat_map_alter holdings f i (Board.players b) p Hp) as [H1 H2].
    rewrite H1, H2, !map_app, (Hf p eq_refl). reflexivity.
  - replace (alter f i (Board.players b)) with (Board.players b); [reflexivity|].
    apply list_eq. intros j. rewrite list_lookup_alter.
    destruct (decide (i = j)) as [->|]; [now rewrite Hp|reflexivity].
Qed.

Lemma update_player_length (b : Board.t) (i : nat) (f : Player.t -> Player.t) :
  length (Board.players (Board.update_player i f b)) = length (Board.players b).
Proof. unfold Board.update_player. cbn. apply length_alter. Qed.

Lemma conserved_update (b : Board.t) (i : nat) (f : Player.t -> Player.t) :
  (forall p, Board.players b !! i = Some p ->
             map face (holdings (f p)) ≡ₚ map face (holdings p)) ->
  conserved b -> conserved (Board.update_player i f b).
Proof.
  intros Hf [Hp Hn]. split.
  - now rewrite pool_update.
  - now rewrite update_player_length.
Qed.

Lemma addPoints_conserved (b : Board.t) : conserved b -> conserved (Board.addPoints b).
Proof.
  unfold Board.addPoints. generalize (Board.winners b) as ws. intros ws. revert b.
  induction ws as [|w ws IH]; intros b Hb; [exact Hb|].
  cbn [fold_left]. apply IH. apply conserved_update; [|exact Hb]. reflexivity.
Qed.

Lemma endGame_conserved (b : Board.t) (wt : WinType.t) (ws ls : list nat) :
  conserved b -> conserved (Board.endGame b wt ws ls).
Proof.
  intros Hb. unfold Board.endGame. cbv zeta.
  destruct (WinType.eqb wt WinType.Win); [apply addPoints_conserved|]; exact Hb.
Qed.

Lemma endWithVictoryCheck_conserved (b : Board.t) :
  conserved b -> conserved (Board.endWithVictoryCheck b).
Proof.
  intros Hb. unfold Board.endWithVictoryCheck.
  destruct (Board.checkVictory b) as [[wt ws] ls]. now apply endGame_conserved.
Qed.

Lemma drawCard_holdings (p : Player.t) :
  Player.hand p = None ->
  holdings (Player.drawCard p).2 = holdings p.
Proof.
  intros Hh. unfold Player.drawCard, holdings.
  destruct (last (Player.deck p)) as [c|] eqn:E; [|reflexivity].
  apply last_Some in E as [l' El]. cbn. rewrite Hh, El.
  rewrite removelast_last. cbn. now rewrite app_nil_r.
Qed.

Lemma handOf_None_hand (b : Board.t) (player : nat) (p : Player.t) :
  Board.handOf b player = None -> Board.players b !! player = Some p -> Player.hand p = None.
Proof. unfold Board.handOf. intros H Hp. now rewrite Hp in H. Qed.

Lemma handOf_Some_hand (b : Board.t) (player : nat) (card : Card.t) :
  Board.handOf b player = Some card ->
  exists p, Board.players b !! player = Some p /\ Player.hand p = Some card.
Proof.
  unfold Board.handOf. destruct (Board.players b !! player) as [p|]; [|discriminate].
  intros H. exists p. split; [reflexivity|exact H].
Qed.

(** The loop of [doATurn] is left for [playCard] only with coordinates
    that [cardCanBePlaced] accepts. *)
Lemma askLoop_exit (auto : bool) (b : Board.t) (card : Card.t) (x0 y0 px py : Z)
    (script rest : list Board.Prompt) :
  Board.askLoop auto b card x0 y0 script = Board.LoopExit px py rest ->
  Board.cardCanBePlaced b card px py = true.
Proof.
  revert x0 y0. induction script as [|pr script IH]; intros x0 y0; cbn [Board.askLoop].
  - destruct (Board.boardIsEmpty b).
    + destruct (Board.cardCanBePlaced b card x0 y0) eqn:E; [|discriminate].
      now intros [= <- <- _].
    + discriminate.
  - destruct (Board.boardIsEmpty b).
    + destruct (Board.cardCanBePlaced b card x0 y0) eqn:E; [|discriminate].
      now intros [= <- <- _].
    + match goal with |- context [match ?c with Some _ => _ | None => _ end] =>
        destruct c as [co|] end; [|discriminate].
      destruct (Board.cardCanBePlaced b card (Coordinates.x co) (Coordinates.y co)) eqn:E.
      * now intros [= <- <- _].
      * apply IH.
Qed.

(** A placed card leaves the hand for the board. *)
Lemma placed_conserved (b : Board.t) (player : nat) (card : Card.t)
    (px py turn playerTurn : Z) :
  Board.handOf b player = Some card ->
  conserved b ->
  conserved (Board.update_player player (Player.set_hand None)
               (Board.set_cards
                  (Board.cards b ++ [Card.placed card px py turn playerTurn player]) b)).
Proof.
  intros Hh [Hp Hn]. apply handOf_Some_hand in Hh as (p & Hpl & Hhand). split.
  - rewrite <- Hp. unfold pool, Board.update_player.
    cbn [Board.cards Board.players Board.set_players Board.set_cards].
    destruct (flat_map_alter holdings (Player.set_hand None) player (Board.players b) p Hpl)
      as [H1 H2].
    rewrite H1, H2. unfold holdings at 1 3. cbn [Player.deck Player.hand Player.set_hand].
    rewrite Hhand. cbn [option_list]. rewrite !map_app. cbn [map].
    change (face (Card.placed card px py turn playerTurn player)) with (face card).
    rewrite app_nil_r, <- !app_assoc. apply Permutation_app_head. cbn [app].
    cbn [option_list map app]. apply Permutation_middle.
  - now rewrite update_player_length.
Qed.

Lemma removeCardFromHand_holdings (p : Player.t) :
  Player.hand p = None -> holdings (Player.removeCardFromHand p).2 = holdings p.
Proof. intros Hh. unfold Player.removeCardFromHand. now rewrite Hh. Qed.

Lemma playerStep_conserved (auto : bool) (b : Board.t) (player : nat) (playerTurn : Z)
    (script : list Board.Prompt) :
  conserved b -> conserved (Board.playerStep auto b player playerTurn script).1.1.
Proof.
  intros Hb. unfold Board.playerStep.
  destruct (Board.isGameOver b); [exact Hb|]. cbv zeta.
  set (b1 := Board.update_player player (Player.set_isTurn true) b).
  assert (Hb1 : conserved b1) by (apply conserved_update; [reflexivity|exact Hb]).
  destruct (Board.handOf b1 player) eqn:Hh1; [exact Hb1|].
  set (b2 := Board.update_player player (fun p => (Player.drawCard p).2) b1).
  assert (Hb2 : conserved b2).
  { apply conserved_update; [|exact Hb1]. intros p Hp.
    now rewrite drawCard_holdings by (eapply handOf_None_hand; eauto). }
  destruct (negb _); [now apply endWithVictoryCheck_conserved|].
  destruct (Board.handOf b2 player) as [card|] eqn:Hh2; [|exact Hb2].
  destruct (Board.askLoop auto b2 card 0 0 script) as [px py rest|rest| |] eqn:El;
    [|now apply endWithVictoryCheck_conserved|exact Hb2|exact Hb2].
  apply askLoop_exit in El.
  rewrite (playCard_success b2 player card playerTurn card px py Hh2 El).
  cbn [String.eqb Ascii.eqb Bool.eqb negb andb].
  set (b3 := Board.update_player player (Player.set_hand None) _).
  assert (Hb3 : conserved b3) by (now apply placed_conserved).
  destruct (Board.checkVictory b3) as [[wt ws] ls].
  destruct (negb _); [now apply endGame_conserved|].
  cbn [fst]. apply conserved_update; [reflexivity|].
  apply conserved_update; [|exact Hb3].
  intros p Hp. rewrite removeCardFromHand_holdings; [reflexivity|].
  subst b3. unfold Board.update_player in Hp.
  cbn [Board.players Board.set_players Board.set_cards] in Hp.
  rewrite list_lookup_alter_eq in Hp.
  destruct (Board.players b2 !! player); [|discriminate].
  cbn in Hp. now injection Hp as <-.
Qed.

Lemma forPlayers_conserved (auto : bool) (refs : list nat) (b : Board.t) (playerTurn : Z)
    (script : list Board.Prompt) :
  conserved b -> conserved (Board.forPlayers auto b refs playerTurn script).1.1.
Proof.
  revert b playerTurn script.
  induction refs as [|player refs IH]; intros b playerTurn script Hb; [exact Hb|].
  cbn [Board.forPlayers].
  pose proof (playerStep_conserved auto b player playerTurn script Hb) as Hs.
  destruct (Board.playerStep auto b player playerTurn script) as [[b' rest] [st|]].
  - exact Hs.
  - apply IH. exact Hs.
Qed.

Lemma doATurn_conserved (auto : bool) (b : Board.t) (script : list Board.Prompt) :
  conserved b -> conserved (Board.doATurn auto b script).1.1.
Proof.
  intros Hb. unfold Board.doATurn.
  destruct (negb _); [exact Hb|].
  pose proof (forPlayers_conserved auto (Board.allPlayers b) b 0 script Hb) as Hf.
  destruct (Board.forPlayers auto b (Board.allPlayers b) 0 script) as [[b' rest] [st|]].
  - exact Hf.
  - cbn [fst]. apply conserved_update; [reflexivity|]. exact Hf.
Qed.

(** A distribution onto players without cards deals the whole pool. *)
Lemma distribution_conserved (b b' : Board.t) (r r' : Rand) :
  Board.cards b = [] ->
  (forall p, In p (Board.players b) -> Player.deck p = [] /\ Player.hand p = None) ->
  (2 <= length (Board.players b) <= 4)%nat ->
  Board.cardDistribution b r = Some (b', r') ->
  conserved b'.
Proof.
  intros Hc Hempty Hn Hd.
  destruct (cardDistribution_spec b r Hn) as (ps' & r'' & E & Hsame & Hdecks).
  rewrite E in Hd. injection Hd as <- <-.
  split; [|cbn; now rewrite <- (Forall2_length _ _ _ Hsame)].
  unfold pool. cbn [Board.cards Board.players Board.set_players]. rewrite Hc. cbn [app].
  assert (H0 : decksOf (Board.players b) = []).
  { unfold decksOf. clear - Hempty. induction (Board.players b) as [|p l IH]; [reflexivity|].
    cbn. rewrite (proj1 (Hempty p (or_introl eq_refl))). apply IH.
    intros q Hq. apply Hempty. now right. }
  rewrite H0 in Hdecks. cbn in Hdecks. rewrite <- Hdecks.
  apply Permutation_map. unfold decksOf.
  assert (Hh : forall p', In p' ps' -> Player.hand p' = None).
  { intros p' Hin. apply list_elem_of_In, list_elem_of_lookup in Hin as [i Hi].
    destruct (Forall2_lookup_r _ _ _ _ _ Hsame Hi) as (p & Hp & (_ & Hh & _)).
    rewrite Hh. apply Hempty. apply list_elem_of_In. eapply list_elem_of_lookup_2; eauto. }
  clear - Hh. induction ps' as [|p l IH]; [reflexivity|].
  cbn. unfold holdings at 1. rewrite (Hh p (or_introl eq_refl)). cbn. rewrite app_nil_r.
  apply Permutation_app_head. apply IH. intros q Hq. apply Hh. now right.
Qed.

Lemma reset_conserved (b b' : Board.t) (r r' : Rand) :
  (2 <= length (Board.players b) <= 4)%nat ->
  Board.reset b r = Some (b', r') -> conserved b'.
Proof.
  intros Hn. unfold Board.reset. cbv zeta.
  destruct (Board.playerTurnByNbrFirstPlayer _ _) as [[first b4]|] eqn:E; [|discriminate].
  cbn -[Board.cardDistribution Board.update_player].
  unfold Board.playerTurnByNbrFirstPlayer in E.
  destruct (fold_left _ _ _) as [first' bound] in E.
  destruct (_ !! first') in E; [|discriminate]. cbn in E. injection E as <- <-.
  apply distribution_conserved.
  - reflexivity.
  - cbn. apply List.Forall_forall. apply Forall_alter; [apply Forall_alter|].
    + apply List.Forall_forall. intros p Hin. apply in_map_iff in Hin as (q & <- & _).
      split; reflexivity.
    + intros p _ Hp. exact Hp.
    + intros p _ Hp. exact Hp.
  - cbn. now rewrite !length_alter, length_map.
Qed.

Lemma forEachM_new_players (opts : list PlayerOptions) (n a : nat) (acc ps : list Player.t) :
  forEachM (fun listPlayer i =>
              currentPlayerOptions ← opts !! i;
              Some (listPlayer ++ [Player.new currentPlayerOptions]))
           (seq a n) acc = Some ps ->
  length ps = (length acc + n)%nat
  /\ ((forall p, In p acc -> Player.deck p = [] /\ Player.hand p = None) ->
      forall p, In p ps -> Player.deck p = [] /\ Player.hand p = None).
Proof.
  revert a acc. induction n as [|n IH]; intros a acc; cbn [seq forEachM].
  - intros [= <-]. split; [lia|auto].
  - destruct (opts !! a) as [o|]; [|discriminate]. cbn -[forEachM].
    intros H. apply IH in H as [Hl Hp]. rewrite length_app in Hl. cbn in Hl.
    split; [lia|]. intros Hacc. apply Hp.
    intros p Hin. apply in_app_or in Hin as [Hin|[<-|[]]]; [now apply Hacc|].
    split; reflexivity.
Qed.

Lemma new_conserved (n : nat) (opts : list PlayerOptions) (r r' : Rand) (b : Board.t) :
  Board.new n opts r = Some (b, r') -> conserved b.
Proof.
  unfold Board.new.
  destruct (Nat.ltb_spec n 2); [discriminate|]. destruct (Nat.ltb_spec 4 n); [discriminate|].
  cbn [orb].
  destruct (forEachM _ _ _) as [listPlayer|] eqn:El; [|discriminate].
  apply forEachM_new_players in El as [Hl Hp]. cbn in Hl.
  specialize (Hp (fun p (H : In p []) => match H with end)).
  cbn -[Board.cardDistribution Board.randomizePlayerTurn].
  destruct (negb _).
  - unfold Board.randomizePlayerTurn. cbn -[Board.cardDistribution].
    destruct (_ =? _)%nat; [discriminate|]. cbn -[Board.cardDistribution].
    apply distribution_conserved.
    + reflexivity.
    + cbn. apply List.Forall_forall. apply Forall_alter; [now apply List.Forall_forall|].
      intros p _ Hq. exact Hq.
    + cbn. rewrite length_alter. lia.
  - cbn -[Board.cardDistribution]. apply distribution_conserved.
    + reflexivity.
    + exact Hp.
    + cbn. lia.
Qed.

Lemma reachable_conserved (b : Board.t) : reachable b -> conserved b.
Proof.
  induction 1 as [n opts r r' b Hnew|b b' r r' _ IH Hreset|b b' auto script rest st _ IH Hturn].
  - eapply new_conserved; eauto.
  - eapply reset_conserved; [apply IH|eauto].
  - pose proof (doATurn_conserved auto b script IH) as H. now rewrite Hturn in H.
Qed.

Lemma countFace_faces (color : string) (value : Z) (cs : list Card.t) :
  countFace color value cs
  = length (List.filter (fun f : string * Z => String.eqb f.1 color && (f.2 =? value))
                        (map face cs)).
Proof.
  unfold countFace. induction cs as [|c cs IH]; [reflexivity|].
  cbn [List.filter map]. unfold face at 1. cbn [fst snd].
  destruct (_ && _); cbn [length]; now rewrite IH.
Qed.

Lemma filter_Permutation {A} (f : A -> bool) (l k : list A) :
  l ≡ₚ k -> List.filter f l ≡ₚ List.filter f k.
Proof.
  induction 1 as [|x l k _ IH|x y l|l k m _ IH1 _ IH2]; cbn.
  - reflexivity.
  - destruct (f x); [now apply perm_skip|exact IH].
  - destruct (f x), (f y); try reflexivity. apply perm_swap.
  - now rewrite IH1.
Qed.

(** C4.  In every state a game of two, three or four players reaches
    from its construction through [reset] and [doATurn], the draw
    piles, the hands and the board hold 72 cards together, and for each
    of the four colours and each value from 1 to 9 exactly two of them
    show that colour and value. *)
Theorem cards_conserved (b : Board.t) :
  reachable b ->
  length (pool b) = 72%nat
  /\ forall color value,
       In color Board.allColors -> 1 <= value <= 9 ->
       countFace color value (pool b) = 2%nat.
Proof.
  intros Hr. destruct (reachable_conserved b Hr) as [Hp _]. split.
  - rewrite <- (length_map face), (Permutation_length Hp). reflexivity.
  - intros color value Hc Hv. rewrite countFace_faces.
    rewrite (Permutation_length (filter_Permutation _ _ _ Hp)).
    assert (Hval : value = 1 \/ value = 2 \/ value = 3 \/ value = 4 \/ value = 5
                   \/ value = 6 \/ value = 7 \/ value = 8 \/ value = 9) by lia.
    destruct Hc as [<-|[<-|[<-|[<-|[]]]]];
      destruct Hval as [->|[->|[->|[->|[->|[->|[->|[->| ->]]]]]]]]; vm_compute; reflexivity.
Qed.

(** ** A refusal of the coordinate provider *)

Lemma getPlayerTurn_update (b : Board.t) (i : nat) (f : Player.t -> Player.t) :
  (forall p, Player.isTurn (f p) = Player.isTurn p) ->
  Board.getPlayerTurn (Board.update_player i f b) = Board.getPlayerTurn b.
Proof.
  intros Hf. unfold Board.getPlayerTurn, Board.update_player.
  cbn [Board.players Board.set_players].
  generalize (Board.players b) as l. intros l. revert i.
  induction l as [|p l IH]; intros i; [reflexivity|].
  destruct i as [|i]; cbn [alter list_alter list_find].
  - rewrite Hf. destruct (decide (Player.isTurn p = true)); reflexivity.
  - destruct (decide (Player.isTurn p = true)); [reflexivity|].
    specialize (IH i).
    match goal with
    | |- context [list_find ?P (alter f i l)] =>
      destruct (list_find P (alter f i l)) as [[j q]|],
               (list_find P l) as [[j' q']|]; cbn in *; congruence
    end.
Qed.

Lemma handOf_update_same (b : Board.t) (i player : nat) (f : Player.t -> Player.t) :
  (forall p, Player.hand (f p) = Player.hand p) ->
  Board.handOf (Board.update_player i f b) player = Board.handOf b player.
Proof.
  intros Hf. unfold Board.handOf, Board.update_player.
  cbn [Board.players Board.set_players]. rewrite list_lookup_alter.
  destruct (decide (i = player)) as [->|]; [|reflexivity].
  destruct (Board.players b !! player); [cbn; apply Hf|reflexivity].
Qed.

Lemma notAmong_nil (ls : list nat) : Board.notAmong [] ls = ls.
Proof.
  unfold Board.notAmong. induction ls as [|l ls IH]; [reflexivity|].
  cbn. f_equal. exact IH.
Qed.

(** [checkVictory] never answers [Drop]; on a blocked game it answers
    [Win] with winners or [Draw] without, never [None]. *)
Lemma checkVictory_blocked (b : Board.t) :
  Board.isGameBlocked b = true ->
  let '(winType, winners, losers) := Board.checkVictory b in
  (winType = WinType.Win /\ winners <> [] \/
   winType = WinType.Draw /\ winners = [] /\ losers = Board.allPlayers b)
  /\ losers = Board.notAmong winners (Board.allPlayers b).
Proof.
  intros Hblocked. unfold Board.checkVictory. cbv zeta.
  destruct (if (Board.nbrPlayers b =? 2)%nat then _ else _) as [w|]; cbn [app length Nat.ltb Nat.leb].
  - split; [left; split; [reflexivity|discriminate]|reflexivity].
  - rewrite Hblocked.
    destruct (Board.determineWinnerForBlockedGame b) as [|w ws]; cbn [length Nat.eqb].
    + split; [right|reflexivity]. rewrite notAmong_nil. repeat split.
    + split; [left; split; [reflexivity|discriminate]|reflexivity].
Qed.

Lemma endGame_fields (b : Board.t) (wt : WinType.t) (ws ls : list nat) :
  Board.winType (Board.endGame b wt ws ls) = wt
  /\ Board.winners (Board.endGame b wt ws ls) = ws
  /\ Board.losers (Board.endGame b wt ws ls) = ls
  /\ Board.cards (Board.endGame b wt ws ls) = Board.cards b
  /\ Board.turn (Board.endGame b wt ws ls) = Board.turn b.
Proof.
  unfold Board.endGame. cbv zeta.
  assert (H : forall l b0,
             let b1 := fold_left (fun b' player =>
                          Board.update_player player (Player.addPoints 1) b') l b0 in
             Board.winType b1 = Board.winType b0 /\ Board.winners b1 = Board.winners b0
             /\ Board.losers b1 = Board.losers b0 /\ Board.cards b1 = Board.cards b0
             /\ Board.turn b1 = Board.turn b0).
  { induction l as [|x l IH]; intros b0; [repeat split|].
    exact (IH (Board.update_player x (Player.addPoints 1) b0)). }
  destruct (WinType.eqb wt WinType.Win); [|repeat split].
  exact (H ws (Board.mk (Board.cards b) (Board.players b) (Board.turn b) wt ws ls)).
Qed.

(** What a refusal does: the player who has the turn has drawn, the
    board is not empty and the provider refuses.  [doATurn] hands the
    state to [checkVictory], which finds the game blocked: the game
    ends with [Win] and winners, or with [Draw], no winner and all
    players as losers; never with [Drop]. *)
Lemma refusal_resolves_blocked_game (b : Board.t) (player : nat) (p : Player.t)
    (playerTurn : Z) (r : nat) (rest : list Board.Prompt) :
  Board.isGameOver b = false ->
  Board.getPlayerTurn (Board.update_player player (Player.set_isTurn true) b) = Some player ->
  Board.players b !! player = Some p ->
  Player.hand p = None -> Player.deck p <> [] ->
  Board.boardIsEmpty b = false ->
  exists holding drawn,
    Board.handOf holding player = Some drawn
    /\ Board.cards holding = Board.cards b
    /\ Board.playerStep false b player playerTurn (Board.mkPrompt Board.Refusal r :: rest)
       = (Board.endWithVictoryCheck holding, rest, Some Board.Returned)
    /\ let b' := Board.endWithVictoryCheck holding in
       (Board.winType b', Board.winners b', Board.losers b') = Board.checkVictory holding
       /\ (Board.winType b' = WinType.Win /\ Board.winners b' <> []
           \/ Board.winType b' = WinType.Draw /\ Board.winners b' = []
              /\ Board.losers b' = Board.allPlayers b)
       /\ Board.winType b' <> WinType.Drop.
Proof.
  intros Hover Hturn Hp Hhand Hdeck Hne.
  set (b1 := Board.update_player player (Player.set_isTurn true) b) in *.
  set (b2 := Board.update_player player (fun q => (Player.drawCard q).2) b1).
  assert (Hp1 : Board.players b1 !! player = Some (Player.set_isTurn true p)).
  { subst b1. unfold Board.update_player. cbn. now rewrite list_lookup_alter_eq, Hp. }
  destruct (last (Player.deck p)) as [drawn|] eqn:Hlast;
    [|apply last_None in Hlast; contradiction].
  assert (Hh1 : Board.handOf b1 player = None).
  { unfold Board.handOf. rewrite Hp1. exact Hhand. }
  assert (Hh2 : Board.handOf b2 player = Some drawn).
  { subst b2. rewrite (handOf_update _ _ _ _ Hp1). unfold Player.drawCard.
    cbn [Player.deck Player.set_isTurn]. now rewrite Hlast. }
  assert (Hc2 : Board.cards b2 = Board.cards b) by reflexivity.
  exists b2, drawn. split; [exact Hh2|]. split; [exact Hc2|].
  assert (Hblocked : Board.isGameBlocked b2 = true).
  { assert (Hgt : Board.getPlayerTurn b2 = Some player).
    { unfold b2. rewrite getPlayerTurn_update; [exact Hturn|].
      intros q. unfold Player.drawCard. destruct (last (Player.deck q)); reflexivity. }
    unfold Board.isGameBlocked. destruct (Board.boardIsFull b2); [reflexivity|].
    now rewrite Hgt, Hh2. }
  split.
  - unfold Board.playerStep. rewrite Hover. cbv zeta. fold b1. rewrite Hh1.
    rewrite Hp1. unfold Player.drawCard at 1. cbn [Player.deck Player.set_isTurn].
    rewrite Hlast. cbn [fst negb]. fold b2. rewrite Hh2.
    unfold Board.askLoop. unfold Board.boardIsEmpty in *. rewrite Hc2, Hne.
    reflexivity.
  - cbv zeta. unfold Board.endWithVictoryCheck.
    pose proof (checkVictory_blocked b2 Hblocked) as Hcv.
    destruct (Board.checkVictory b2) as [[wt ws] ls].
    destruct (endGame_fields b2 wt ws ls) as (-> & -> & -> & _).
    split; [reflexivity|].
    assert (Hall : Board.allPlayers b2 = Board.allPlayers b).
    { unfold Board.allPlayers. subst b2 b1. now rewrite !update_player_length. }
    rewrite Hall in Hcv. destruct Hcv as [[[-> Hw]|(-> & -> & ->)] _].
    + split; [left; split; [reflexivity|exact Hw]|discriminate].
    + split; [right; repeat split|discriminate].
Qed.

(** ** What the outcome of a game can be *)

(** The loop of [doATurn] always makes progress: on an empty board the
    first pass accepts (0,0), elsewhere every pass consumes an answer. *)
Lemma askLoop_never_spins (auto : bool) (b : Board.t) (card : Card.t)
    (script : list Board.Prompt) :
  Board.askLoop auto b card 0 0 script <> Board.LoopSpin.
Proof.
  destruct (Board.boardIsEmpty b) eqn:He.
  - assert (Hc : Board.cards b = []).
    { unfold Board.boardIsEmpty in He. destruct (Board.cards b); [reflexivity|discriminate]. }
    destruct script; cbn [Board.askLoop]; rewrite He, (cardCanBePlaced_first b card Hc);
      discriminate.
  - assert (H : forall px py, Board.askLoop auto b card px py script <> Board.LoopSpin);
      [|apply H].
    induction script as [|pr script IH]; intros px py; cbn [Board.askLoop]; rewrite He.
    + discriminate.
    + match goal with |- context [match ?c with Some _ => _ | None => _ end] =>
        destruct c as [co|] end; [|discriminate].
      destruct (Board.cardCanBePlaced b card _ _); [discriminate|apply IH].
Qed.

Lemma checkVictory_never_Drop (b : Board.t) : (Board.checkVictory b).1.1 <> WinType.Drop.
Proof.
  unfold Board.checkVictory. cbv zeta.
  destruct (0 <? _)%nat; [discriminate|].
  destruct (Board.isGameBlocked b); [|discriminate].
  cbn [fst]. destruct (_ =? _)%nat; discriminate.
Qed.

Lemma update_player_winType (b : Board.t) (i : nat) (f : Player.t -> Player.t) :
  Board.winType (Board.update_player i f b) = Board.winType b.
Proof. reflexivity. Qed.

Lemma endWithVictoryCheck_never_Drop (b : Board.t) :
  Board.winType (Board.endWithVictoryCheck b) <> WinType.Drop.
Proof.
  unfold Board.endWithVictoryCheck.
  pose proof (checkVictory_never_Drop b) as H.
  destruct (Board.checkVictory b) as [[wt ws] ls]. cbn in H.
  now destruct (endGame_fields b wt ws ls) as (-> & _).
Qed.

(** No call of [doATurn] ends a game with [Drop]: the branch that
    assigns it follows a [playCard] that cannot fail. *)
Lemma playerStep_never_Drop (auto : bool) (b : Board.t) (player : nat) (playerTurn : Z)
    (script : list Board.Prompt) :
  Board.winType b <> WinType.Drop ->
  Board.winType (Board.playerStep auto b player playerTurn script).1.1 <> WinType.Drop.
Proof.
  intros Hb. unfold Board.playerStep.
  destruct (Board.isGameOver b); [exact Hb|]. cbv zeta.
  destruct (Board.handOf _ player); [exact Hb|].
  destruct (negb _); [apply endWithVictoryCheck_never_Drop|].
  set (b2 := Board.update_player player (fun p => (Player.drawCard p).2) _).
  destruct (Board.handOf b2 player) as [card|] eqn:Hh2; [|exact Hb].
  destruct (Board.askLoop auto b2 card 0 0 script) as [px py rest|rest| |] eqn:El;
    [|apply endWithVictoryCheck_never_Drop|exact Hb|exact Hb].
  apply askLoop_exit in El.
  rewrite (playCard_success b2 player card playerTurn card px py Hh2 El).
  cbn [String.eqb Ascii.eqb Bool.eqb negb andb].
  set (b3 := Board.update_player player (Player.set_hand None) _).
  pose proof (checkVictory_never_Drop b3) as Hcv.
  destruct (Board.checkVictory b3) as [[wt ws] ls]. cbn in Hcv.
  destruct (negb _); [|exact Hb].
  cbn [fst]. now destruct (endGame_fields b3 wt ws ls) as (-> & _).
Qed.

Lemma doATurn_never_Drop (auto : bool) (b : Board.t) (script : list Board.Prompt) :
  Board.winType b <> WinType.Drop ->
  Board.winType (Board.doATurn auto b script).1.1 <> WinType.Drop.
Proof.
  intros Hb. unfold Board.doATurn. destruct (negb _); [exact Hb|].
  assert (H : forall refs b0 playerTurn script0,
             Board.winType b0 <> WinType.Drop ->
             Board.winType (Board.forPlayers auto b0 refs playerTurn script0).1.1
               <> WinType.Drop).
  { induction refs as [|player refs IH]; intros b0 playerTurn script0 H0; [exact H0|].
    cbn [Board.forPlayers].
    pose proof (playerStep_never_Drop auto b0 player playerTurn script0 H0) as Hs.
    destruct (Board.playerStep auto b0 player playerTurn script0) as [[b' rest] [st|]];
      [exact Hs|apply IH; exact Hs]. }
  specialize (H (Board.allPlayers b) b 0 script Hb).
  destruct (Board.forPlayers auto b (Board.allPlayers b) 0 script) as [[b' rest] [st|]];
    exact H.
Qed.

(** With a single series of three on the board the blocked game has no
    winner; with more than one series of the required length the scan
    after a placement has none either, whoever owns them. *)
Lemma single_entry_no_winner (b : Board.t) (e : Board.Entry) :
  Board.possibleWinningSeries 3 (Board.determineSeriesOfCards b 3) = [e] ->
  Board.determineWinnerForBlockedGame b = [].
Proof. intros H. unfold Board.determineWinnerForBlockedGame. cbv zeta. now rewrite H. Qed.

Lemma several_entries_no_winner (b : Board.t) (length : Z) (e1 e2 : Board.Entry)
    (es : list Board.Entry) :
  Board.possibleWinningSeries length (Board.determineSeriesOfCards b length) = e1 :: e2 :: es ->
  Board.hasWinningSeries b length = None.
Proof. intros H. unfold Board.hasWinningSeries. cbv zeta. now rewrite H. Qed.

(** The losers [checkVictory] returns are the players that are not
    winners: the two lists share nobody and cover the players. *)
Lemma checkVictory_partition (b : Board.t) (player : nat) :
  let '(_, winners, losers) := Board.checkVictory b in
  (In player losers <-> In player (Board.allPlayers b) /\ ~ In player winners).
Proof.
  assert (H : forall ws, In player (Board.notAmong ws (Board.allPlayers b))
                         <-> In player (Board.allPlayers b) /\ ~ In player ws).
  { intros ws. unfold Board.notAmong. rewrite filter_In, negb_true_iff.
    split; intros [H1 H2]; (split; [exact H1|]).
    - intros Hin. assert (existsb (Nat.eqb player) ws = true); [|congruence].
      apply existsb_exists. exists player. split; [exact Hin|apply Nat.eqb_refl].
    - destruct (existsb (Nat.eqb player) ws) eqn:E; [|reflexivity].
      apply existsb_exists in E as (x & Hx & Heq). apply Nat.eqb_eq in Heq. now subst. }
  unfold Board.checkVictory. cbv zeta. fold (Board.allPlayers b).
  destruct (if (Board.nbrPlayers b =? 2)%nat then _ else _);
    cbn [app length Nat.ltb Nat.leb]; [apply H|].
  destruct (Board.isGameBlocked b); [apply H|].
  cbn. tauto.
Qed.

(** Only a [Win] touches the scores. *)
Lemma endGame_keeps_points (b : Board.t) (wt : WinType.t) (ws ls : list nat) :
  wt <> WinType.Win -> Board.players (Board.endGame b wt ws ls) = Board.players b.
Proof. intros H. unfold Board.endGame. cbv zeta. destruct wt; [congruence|reflexivity..]. Qed.

(** ** Sample games *)

Lemma freshGame_new : Board.new 2 twoPlayers [] = Some (freshGame, []).
Proof. vm_compute. reflexivity. Qed.

Lemma freshGame_reachable : reachable freshGame.
Proof. exact (reach_new 2 twoPlayers [] [] freshGame freshGame_new). Qed.

(** C1, on the code.  In the game just built for two players the first
    player's card goes to (0,0); the second player draws, holds the
    card before a board that is not empty, and the provider refuses.
    [doATurn] ends the game through [checkVictory]: the outcome is
    [Draw], not [Drop]; there is no winner and both players lose. *)
Theorem refusal_ends_in_draw :
  let '(b', _, status) := Board.doATurn false freshGame [refuse] in
  status = Board.Returned
  /\ map glance (Board.cards b') = [("red"%string, 1, 0, 0, Some 0%nat)]
  /\ Board.handOf b' 1 <> None
  /\ Board.winType b' = WinType.Draw
  /\ Board.winners b' = [] /\ Board.losers b' = [0; 1]%nat.
Proof. vm_compute. repeat split. discriminate. Qed.

(** C2, on the code.  The game is blocked: player 1 holds a card and
    the provider has refused.  Player 0 owns the only run of three (the
    blue cards on (1,0), (2,0), (3,0)) and nobody has a run of five.
    [determineWinnerForBlockedGame] returns no winner and
    [checkVictory] answers [Draw] with both players as losers. *)
Theorem single_run_is_a_draw :
  Board.doATurn false (after 3 oneRunScript) [at_ 3 0; refuse]
    = (Board.endWithVictoryCheck oneRunGame, [], Board.Returned)
  /\ Board.isGameBlocked oneRunGame = true
  /\ Board.hasWinningSeries oneRunGame 5 = None
  /\ map (map glance) (Board.determineSeriesOfCards oneRunGame 3)
     = [[("blue"%string, 9, 1, 0, Some 0%nat); ("blue"%string, 9, 2, 0, Some 0%nat);
         ("blue"%string, 8, 3, 0, Some 0%nat)]]
  /\ Board.determineWinnerForBlockedGame oneRunGame = []
  /\ Board.checkVictory oneRunGame = (WinType.Draw, [], [0; 1]%nat).
Proof. vm_compute. repeat split. Qed.

(** C3, on the code.  Player 0 has just placed the blue 5 on (0,0) in a
    game of two players; it completes a column and a row of five blue
    cards, all their own, and player 1 has no run.  [hasWinningSeries 5]
    finds two series and returns nobody, [checkVictory] answers [None]
    and the turn goes on. *)
Theorem two_runs_are_no_win :
  Board.playerStep false (after 9 crossingScript) 0 0 [at_ 0 0] = (crossingGame, [], None)
  /\ map (map glance) (Board.determineSeriesOfCards crossingGame 5)
     = [[("blue"%string, 5, 0, 0, Some 0%nat); ("blue"%string, 7, 0, 1, Some 0%nat);
         ("blue"%string, 7, 0, 2, Some 0%nat); ("blue"%string, 6, 0, 3, Some 0%nat);
         ("blue"%string, 6, 0, 4, Some 0%nat)];
        [("blue"%string, 5, 0, 0, Some 0%nat); ("blue"%string, 9, 1, 0, Some 0%nat);
         ("blue"%string, 9, 2, 0, Some 0%nat); ("blue"%string, 8, 3, 0, Some 0%nat);
         ("blue"%string, 8, 4, 0, Some 0%nat)]]
  /\ Board.hasWinningSeries crossingGame 5 = None
  /\ Board.checkVictory crossingGame = (WinType.None, [], [0; 1]%nat).
Proof. vm_compute. repeat split. Qed.

(** C10, on the code.  Player 0 owns five runs of three when player 1
    refuses; the game ends with outcome [Win], the winners list holds
    player 0 twice, and the score goes from 0 to 2. *)
Theorem winner_scores_twice :
  let '(b', _, status) := Board.doATurn false blockGame [at_ 2 2; refuse] in
  status = Board.Returned
  /\ Board.winType b' = WinType.Win
  /\ Board.winners b' = [0; 0]%nat /\ Board.losers b' = [1]%nat
  /\ Player.points <$> Board.players blockGame !! 0%nat = Some 0
  /\ Player.points <$> Board.players b' !! 0%nat = Some 2.
Proof. vm_compute. repeat split. Qed.

Lemma cards_conserved_witness :
  reachable freshGame
  /\ length (pool freshGame) = 72%nat
  /\ forall color value,
       In color Board.allColors -> 1 <= value <= 9 ->
       countFace color value (pool freshGame) = 2%nat.
Proof.
  assert (H : reachable freshGame).
  { apply (reach_new 2 twoPlayers [] [] freshGame). vm_compute. reflexivity. }
  split; [exact H|]. exact (cards_conserved freshGame H).
Defined.

Lemma occupied_cell_rejects_witness :
  Board.cardCanBePlaced openingGame (Card.new 1 "blue" 1) 1 1 = false
  /\ ~ In (Coordinates.mk 1 1) (Board.availableCoordinates openingGame 1).
Proof.
  apply (occupied_cell_rejects openingGame (Card.new 1 "blue" 1)
           (Card.placed (Card.new 37 "green" 1) 1 1 0 1 1) 1 1).
  - vm_compute. right. left. reflexivity.
  - reflexivity.
  - reflexivity.
  - vm_compute. discriminate.
Defined.

Lemma bounding_box_rejects_witness :
  Board.cardCanBePlaced openingGame (Card.new 1 "blue" 3) (-5) 0 = false
  /\ ~ In (Coordinates.mk (-5) 0) (Board.availableCoordinates openingGame 3).
Proof.
  apply (bounding_box_rejects openingGame (Card.new 1 "blue" 3) (-5) 0 3).
  - lia.
  - lia.
  - left. vm_compute. discriminate.
Defined.

Lemma stacking_scenario_witness :
  exists b1 b3,
    Board.playCard (giveHand 0 (Card.new 0 "red" 3) freshGame) 0 0 (Card.new 0 "red" 3) 0 0
      = ("The card was successfully placed."%string, b1,
         Card.placed (Card.new 0 "red" 3) 0 0 0 0 0)
    /\ Board.cards b1 = [Card.placed (Card.new 0 "red" 3) 0 0 0 0 0]
    /\ Board.playCard (giveHand 0 (Card.new 1 "red" 3) b1) 0 0 (Card.new 1 "red" 3) 0 0
      = ("The card could not be placed."%string, giveHand 0 (Card.new 1 "red" 3) b1,
         Card.new 1 "red" 3)
    /\ Board.playCard (giveHand 0 (Card.new 2 "red" 4) (giveHand 0 (Card.new 1 "red" 3) b1))
         0 1 (Card.new 2 "red" 4) 0 0
      = ("The card was successfully placed."%string, b3,
         Card.placed (Card.new 2 "red" 4) 0 0 0 1 0)
    /\ Board.cards b3 = [Card.placed (Card.new 0 "red" 3) 0 0 0 0 0;
                         Card.placed (Card.new 2 "red" 4) 0 0 0 1 0].
Proof.
  eapply (stacking_scenario twoPlayers [] [] freshGame 0 _
            (Card.new 0 "red" 3) (Card.new 1 "red" 3) (Card.new 2 "red" 4) 0 1).
  - vm_compute. reflexivity.
  - vm_compute. reflexivity.
  - reflexivity.
  - vm_compute. discriminate.
  - vm_compute. reflexivity.
Defined.

Lemma playCard_empty_hand_witness :
  Board.playCard freshGame 0 0 (Card.new 0 "red" 3) 0 0
  = ("The player does not have the card in hand."%string, freshGame, Card.new 0 "red" 3).
Proof.
  eapply playCard_empty_hand.
  - vm_compute. reflexivity.
  - reflexivity.
Defined.

Lemma reset_spec_witness :
  exists b' r' first pf,
    Board.reset freshGame [] = Some (b', r')
    /\ Board.cards b' = [] /\ Board.turn b' = 0 /\ Board.winType b' = WinType.None
    /\ (forall p', In p' (Board.players b') -> Player.points p' = 0 /\ Player.hand p' = None)
    /\ Board.players freshGame !! first = Some pf
    /\ (forall q, In q (Board.players freshGame) ->
          Player.nbrFirstPlayer pf <= Player.nbrFirstPlayer q)
    /\ length (Board.players b') = length (Board.players freshGame)
    /\ (forall i p p', Board.players freshGame !! i = Some p -> Board.players b' !! i = Some p' ->
          Player.nbrFirstPlayer p'
            = (if decide (i = first) then Player.nbrFirstPlayer p + 1
               else Player.nbrFirstPlayer p)
          /\ Player.isTurn p' = bool_decide (i = first)).
Proof.
  apply (reset_spec freshGame []). vm_compute. lia.
Defined.

(** * The board through a game *)

(** ** The playable cells *)

Lemma running_max_box {A} (f : A -> Z) (l : list A) (m : Z) :
  fold_left (fun m a => Z.max (f a) m) l m = boxMax m (map f l).
Proof.
  revert m. induction l as [|a l IH]; intros m; [reflexivity|].
  cbn [fold_left map]. rewrite IH. unfold boxMax. cbn [fold_right].
  clear IH. revert m. induction l as [|c l IH]; intros m; cbn [map fold_right]; [lia|].
  specialize (IH m). lia.
Qed.

Lemma running_min_box {A} (f : A -> Z) (l : list A) (m : Z) :
  fold_left (fun m a => Z.min (f a) m) l m = boxMin m (map f l).
Proof.
  revert m. induction l as [|a l IH]; intros m; [reflexivity|].
  cbn [fold_left map]. rewrite IH. unfold boxMin. cbn [fold_right].
  clear IH. revert m. induction l as [|c l IH]; intros m; cbn [map fold_right]; [lia|].
  specialize (IH m). lia.
Qed.

Lemma boardExtremes_box (b : Board.t) :
  Board.extremeMaxX (Board.boardExtremes b) = boxMax 0 (map Card.x (Board.cards b))
  /\ Board.extremeMinX (Board.boardExtremes b) = boxMin 0 (map Card.x (Board.cards b))
  /\ Board.extremeMaxY (Board.boardExtremes b) = boxMax 0 (map Card.y (Board.cards b))
  /\ Board.extremeMinY (Board.boardExtremes b) = boxMin 0 (map Card.y (Board.cards b)).
Proof.
  change (Board.boardExtremes b) with (foldWiden (Board.cards b) (Board.mkExtremes 0 0 0 0)).
  destruct (foldWiden_extremes (Board.cards b) (Board.mkExtremes 0 0 0 0)) as (-> & -> & -> & ->).
  cbn [Board.extremeMaxX Board.extremeMinX Board.extremeMaxY Board.extremeMinY].
  now rewrite !running_max_box, !running_min_box.
Qed.

Lemma box_order (l : list Z) : boxMin 0 l <= 0 <= boxMax 0 l.
Proof.
  unfold boxMin, boxMax. induction l as [|a l IH]; cbn [fold_right]; lia.
Qed.

Lemma lineExceedsLimit_span (b : Board.t) (px py limit : Z) :
  Board.lineExceedsLimit b (Coordinates.mk px py) limit = true
  <-> spanX b px >= limit \/ spanY b py >= limit.
Proof.
  unfold Board.lineExceedsLimit, spanX, spanY. cbv zeta.
  cbn [Coordinates.x Coordinates.y].
  destruct (widen_bounds (Board.boardExtremes b) px py) as (-> & -> & -> & ->).
  destruct (boardExtremes_box b) as (-> & -> & -> & ->).
  pose proof (box_order (map Card.x (Board.cards b))) as Hx.
  pose proof (box_order (map Card.y (Board.cards b))) as Hy.
  unfold boxMax, boxMin in *. cbn [fold_right Coordinates.x Coordinates.y].
  set (MX := fold_right Z.max 0 (map Card.x (Board.cards b))) in *.
  set (mX := fold_right Z.min 0 (map Card.x (Board.cards b))) in *.
  set (MY := fold_right Z.max 0 (map Card.y (Board.cards b))) in *.
  set (mY := fold_right Z.min 0 (map Card.y (Board.cards b))) in *.
  destruct ((MX - mX >=? limit) || (MY - mY >=? limit)) eqn:E1.
  - split; [intros _|reflexivity].
    apply orb_true_iff in E1 as [E|E]; rewrite Z.geb_leb in E; apply Z.leb_le in E; lia.
  - apply orb_false_iff in E1 as [E1 E2].
    rewrite Z.geb_leb in E1, E2. apply Z.leb_gt in E1, E2.
    destruct ((Z.max px MX - Z.min px mX >=? limit) || (Z.max py MY - Z.min py mY >=? limit)) eqn:E3.
    + split; [intros _|reflexivity].
      apply orb_true_iff in E3 as [E|E]; rewrite Z.geb_leb in E; apply Z.leb_le in E; lia.
    + apply orb_false_iff in E3 as [E3 E4].
      rewrite Z.geb_leb in E3, E4. apply Z.leb_gt in E3, E4.
      split; [discriminate|]. lia.
Qed.

Lemma span_bounds (b : Board.t) (px py : Z) :
  Board.lineExceedsLimit b (Coordinates.mk px py) 6 = false ->
  -5 <= px <= 5 /\ -5 <= py <= 5.
Proof.
  intros H.
  assert (Hn : ~ (spanX b px >= 6 \/ spanY b py >= 6)).
  { intros Hs. apply lineExceedsLimit_span in Hs. congruence. }
  unfold spanX, spanY in Hn.
  pose proof (box_order (map Card.x (Board.cards b))) as Hx.
  pose proof (box_order (map Card.y (Board.cards b))) as Hy.
  unfold boxMax, boxMin in *. cbn [fold_right] in Hn. lia.
Qed.

Lemma cellAccepts_spec (b : Board.t) (v px py : Z) :
  Board.cellAccepts b v (Coordinates.mk px py) = true
  <-> forall c, In c (Board.cards b) -> onCell px py c -> Card.value c < v.
Proof.
  split.
  - intros H c Hin [Hx Hy].
    destruct (Z_lt_ge_dec (Card.value c) v) as [Hlt|Hge]; [exact Hlt|].
    rewrite (cellAccepts_occupied b v (Coordinates.mk px py) c) in H;
      [discriminate|assumption..].
  - unfold Board.cellAccepts, onCell. cbn [Coordinates.x Coordinates.y].
    generalize true as acc. induction (Board.cards b) as [|d cs IH]; intros acc Hcs; [reflexivity|].
    cbn [fold_left]. rewrite IH by (intros c Hc; apply Hcs; now right).
    destruct ((Card.x d =? px) && (Card.y d =? py)) eqn:E; [|reflexivity].
    apply andb_true_iff in E as [Ex Ey]. apply Z.eqb_eq in Ex, Ey.
    specialize (Hcs d (or_introl eq_refl) (conj Ex Ey)).
    replace (Card.value d >=? v) with false; [reflexivity|].
    symmetry. rewrite Z.geb_leb. apply Z.leb_gt. lia.
Qed.

Lemma possibleCoordinates_near (cx cy px py : Z) :
  In (Coordinates.mk px py) (Board.possibleCoordinates cx cy) ->
  Z.abs (px - cx) <= 1 /\ Z.abs (py - cy) <= 1.
Proof.
  unfold Board.possibleCoordinates. cbv zeta. rewrite !in_app_iff.
  intros H.
  repeat match type of H with
         | _ \/ _ => destruct H as [H|H]
         end;
    repeat match type of H with
           | In _ (if ?c then _ else _) => destruct c
           end;
    try (destruct H as [H|[]]; injection H as <- <-; lia);
    try (destruct H).
Qed.

Lemma possibleCoordinates_complete (cx cy px py : Z) :
  Z.abs (px - cx) <= 1 -> Z.abs (py - cy) <= 1 ->
  -5 <= px <= 5 -> -5 <= py <= 5 ->
  In (Coordinates.mk px py) (Board.possibleCoordinates cx cy).
Proof.
  intros Hx Hy Bx By.
  assert (Ex : px = cx \/ px = cx + 1 \/ px = cx - 1) by lia.
  assert (Ey : py = cy \/ py = cy + 1 \/ py = cy - 1) by lia.
  unfold Board.possibleCoordinates. cbv zeta. rewrite !in_app_iff.
  destruct Ex as [->|[->| ->]], Ey as [->|[->| ->]].
  - left. now left.
  - do 3 right. left.
    replace (cy + 1 <=? 5) with true by (symmetry; apply Z.leb_le; lia). now left.
  - do 4 right. left.
    replace (cy - 1 >=? -5) with true by (symmetry; rewrite Z.geb_leb; apply Z.leb_le; lia).
    now left.
  - right. left.
    replace (cx + 1 <=? 5) with true by (symmetry; apply Z.leb_le; lia). now left.
  - do 5 right. left.
    replace (cx + 1 <=? 5) with true by (symmetry; apply Z.leb_le; lia).
    replace (cy + 1 <=? 5) with true by (symmetry; apply Z.leb_le; lia). now left.
  - do 7 right. left.
    replace (cx + 1 <=? 5) with true by (symmetry; apply Z.leb_le; lia).
    replace (cy - 1 >=? -5) with true by (symmetry; rewrite Z.geb_leb; apply Z.leb_le; lia).
    now left.
  - do 2 right. left.
    replace (cx - 1 >=? -5) with true by (symmetry; rewrite Z.geb_leb; apply Z.leb_le; lia).
    now left.
  - do 8 right.
    replace (cx - 1 >=? -5) with true by (symmetry; rewrite Z.geb_leb; apply Z.leb_le; lia).
    replace (cy + 1 <=? 5) with true by (symmetry; apply Z.leb_le; lia). now left.
  - do 6 right. left.
    replace (cx - 1 >=? -5) with true by (symmetry; rewrite Z.geb_leb; apply Z.leb_le; lia).
    replace (cy - 1 >=? -5) with true by (symmetry; rewrite Z.geb_leb; apply Z.leb_le; lia).
    now left.
Qed.

Lemma availableCoordinates_spec (b : Board.t) (v px py : Z) :
  In (Coordinates.mk px py) (Board.availableCoordinates b v)
  <-> (exists c, In c (Board.cards b) /\ touches px py c)
      /\ (forall c, In c (Board.cards b) -> onCell px py c -> Card.value c < v)
      /\ spanX b px < 6 /\ spanY b py < 6.
Proof.
  unfold Board.availableCoordinates. cbv zeta.
  rewrite filter_In, in_flat_map, negb_true_iff, <- cellAccepts_spec.
  split.
  - intros [(c & Hc & Hin) Hline]. apply filter_In in Hin as [Hin Hacc].
    apply possibleCoordinates_near in Hin.
    split; [exists c; split; [exact Hc|exact Hin]|]. split; [exact Hacc|].
    assert (Hn : ~ (spanX b px >= 6 \/ spanY b py >= 6)).
    { intros Hs. apply lineExceedsLimit_span in Hs. congruence. }
    lia.
  - intros ((c & Hc & Hx & Hy) & Hacc & Sx & Sy).
    assert (Hline : Board.lineExceedsLimit b (Coordinates.mk px py) 6 = false).
    { destruct (Board.lineExceedsLimit b (Coordinates.mk px py) 6) eqn:E; [|reflexivity].
      apply lineExceedsLimit_span in E. lia. }
    split; [|exact Hline].
    exists c. split; [exact Hc|]. apply filter_In. split; [|exact Hacc].
    destruct (span_bounds b px py Hline) as [Bx By].
    apply possibleCoordinates_complete; assumption.
Qed.

Lemma availableCoordinates_bounds (b : Board.t) (v px py : Z) :
  In (Coordinates.mk px py) (Board.availableCoordinates b v) ->
  -5 <= px <= 5 /\ -5 <= py <= 5.
Proof.
  intros H. apply span_bounds with b. now apply availableCoordinates_within with v.
Qed.

Lemma cardCanBePlaced_iff_available (b : Board.t) (card : Card.t) (px py : Z) :
  Board.cards b <> [] ->
  Board.cardCanBePlaced b card px py = true
  <-> In (Coordinates.mk px py) (Board.availableCoordinates b (Card.value card)).
Proof.
  intros Hne. split.
  - apply cardCanBePlaced_available.
    unfold Board.boardIsEmpty. destruct (Board.cards b); [congruence|reflexivity].
  - intros H. destruct (availableCoordinates_bounds b _ px py H).
    now apply cardCanBePlaced_intro.
Qed.

Lemma cardCanBePlaced_empty (b : Board.t) (card : Card.t) (px py : Z) :
  Board.cards b = [] ->
  Board.cardCanBePlaced b card px py = true <-> -5 <= px <= 5 /\ -5 <= py <= 5.
Proof.
  intros He. unfold Board.cardCanBePlaced, Board.boardIsEmpty. rewrite He. cbn [length Nat.eqb negb].
  destruct (Board.lineExceedsLimit b (Coordinates.mk px py) 6) eqn:E.
  - apply lineExceedsLimit_span in E. unfold spanX, spanY, boxMax, boxMin in E.
    rewrite He in E. cbn [map fold_right] in E.
    destruct ((px >? 5) || (px <? -5) || (py >? 5) || (py <? -5)); split; try discriminate; lia.
  - destruct (span_bounds b px py E) as [Bx By].
    replace ((px >? 5) || (px <? -5) || (py >? 5) || (py <? -5)) with false; [tauto|].
    symmetry. rewrite !orb_false_iff. rewrite !Z.gtb_ltb, !Z.ltb_ge. lia.
Qed.

Lemma availableCoordinates_empty (b : Board.t) (v : Z) :
  Board.cards b = [] -> Board.availableCoordinates b v = [].
Proof. intros He. unfold Board.availableCoordinates. now rewrite He. Qed.

Lemma determineCardCoordinates_In (b : Board.t) (v : Z) (r : nat) (c : Coordinates.t) :
  Board.determineCardCoordinates b v r = Some c -> In c (Board.availableCoordinates b v).
Proof.
  unfold Board.determineCardCoordinates. cbv zeta.
  destruct (_ =? _)%nat; [discriminate|].
  intros H. apply list_elem_of_lookup_2 in H. now apply list_elem_of_In.
Qed.

Lemma determineCardCoordinates_None (b : Board.t) (v : Z) (r : nat) :
  Board.determineCardCoordinates b v r = None <-> Board.availableCoordinates b v = [].
Proof.
  unfold Board.determineCardCoordinates. cbv zeta.
  destruct (Board.availableCoordinates b v) as [|c l] eqn:E; [tauto|].
  cbn [length Nat.eqb]. split; [|discriminate].
  intros H. apply lookup_ge_None in H.
  pose proof (randomBelow_lt (length (c :: l)) r ltac:(cbn; lia)). cbn [length] in *. lia.
Qed.

Lemma determineCardCoordinates_playable (b : Board.t) (card : Card.t) (r : nat)
    (c : Coordinates.t) :
  Board.determineCardCoordinates b (Card.value card) r = Some c ->
  Board.cardCanBePlaced b card (Coordinates.x c) (Coordinates.y c) = true.
Proof.
  intros H. apply determineCardCoordinates_In in H. destruct c as [px py].
  cbn [Coordinates.x Coordinates.y].
  apply cardCanBePlaced_iff_available; [|exact H].
  intros He. now rewrite (availableCoordinates_empty b _ He) in H.
Qed.



(** X2.  A cell is among [availableCoordinates] for a card value
    exactly when a card lies on it or on one of the eight cells around
    it, every card lying on it has a smaller value, and with it the box
    around the cards and the origin stays less than 6 wide and high. *)
Theorem available_cells (b : Board.t) (v px py : Z) :
  In (Coordinates.mk px py) (Board.availableCoordinates b v)
  <-> (exists c, In c (Board.cards b) /\ touches px py c)
      /\ (forall c, In c (Board.cards b) -> onCell px py c -> Card.value c < v)
      /\ spanX b px < 6 /\ spanY b py < 6.
Proof. apply availableCoordinates_spec. Qed.

(** X3.  On a board that is not empty [cardCanBePlaced] accepts a cell
    exactly when [availableCoordinates] lists it for the value of the
    card; an accepted cell has both coordinates from -5 to 5. *)
Theorem cardCanBePlaced_agrees (b : Board.t) (card : Card.t) (px py : Z) :
  Board.cards b <> [] ->
  (Board.cardCanBePlaced b card px py = true
   <-> In (Coordinates.mk px py) (Board.availableCoordinates b (Card.value card)))
  /\ (Board.cardCanBePlaced b card px py = true -> -5 <= px <= 5 /\ -5 <= py <= 5).
Proof.
  intros Hne. split; [now apply cardCanBePlaced_iff_available|].
  intros H. apply (cardCanBePlaced_iff_available b card px py Hne) in H.
  now apply availableCoordinates_bounds in H.
Qed.

(** X4.  On an empty board [cardCanBePlaced] accepts every cell with
    both coordinates from -5 to 5, not the origin only, while
    [availableCoordinates] lists nothing and [determineCardCoordinates]
    finds no cell. *)
Theorem first_card_cells (b : Board.t) (card : Card.t) (px py : Z) (pick : nat) :
  Board.cards b = [] ->
  (Board.cardCanBePlaced b card px py = true <-> -5 <= px <= 5 /\ -5 <= py <= 5)
  /\ Board.availableCoordinates b (Card.value card) = []
  /\ Board.determineCardCoordinates b (Card.value card) pick = None.
Proof.
  intros He. split; [now apply cardCanBePlaced_empty|].
  split; [now apply availableCoordinates_empty|].
  apply determineCardCoordinates_None. now apply availableCoordinates_empty.
Qed.

(** X5.  The cell [determineCardCoordinates] picks is one of
    [availableCoordinates], and [cardCanBePlaced] accepts it for the
    card; it picks none only when no cell is available. *)
Theorem automatic_choice_is_playable (b : Board.t) (card : Card.t) (pick : nat) :
  match Board.determineCardCoordinates b (Card.value card) pick with
  | Some c =>
    In c (Board.availableCoordinates b (Card.value card))
    /\ Board.cardCanBePlaced b card (Coordinates.x c) (Coordinates.y c) = true
  | None => Board.availableCoordinates b (Card.value card) = []
  end.
Proof.
  destruct (Board.determineCardCoordinates b (Card.value card) pick) as [c|] eqn:E.
  - split; [now apply determineCardCoordinates_In with pick|].
    now apply determineCardCoordinates_playable with pick.
  - now apply determineCardCoordinates_None in E.
Qed.


(** X7.  [playCard] has three outcomes, told apart by the hand of the
    player and by [cardCanBePlaced].  The card given is laid: marked
    with the cell, the turn, the position and the player, it is added
    at the end of the board and the hand is emptied.  Or the card is
    refused, or the hand is empty, and the board is as before.  The
    message that the card could not be removed from the hand is never
    returned. *)
Theorem playCard_outcomes (b : Board.t) (player : nat) (playerTurn : Z) (card : Card.t)
    (px py : Z) :
  let '(message, b', card') := Board.playCard b player playerTurn card px py in
  (message = "The card was successfully placed."%string
   /\ Board.handOf b player <> None /\ Board.cardCanBePlaced b card px py = true
   /\ card' = Card.placed card px py (Board.turn b) playerTurn player
   /\ b' = Board.update_player player (Player.set_hand None)
             (Board.set_cards (Board.cards b ++ [card']) b))
  \/ (message = "The card could not be placed."%string
      /\ Board.handOf b player <> None /\ Board.cardCanBePlaced b card px py = false
      /\ card' = card /\ b' = b)
  \/ (message = "The player does not have the card in hand."%string
      /\ Board.handOf b player = None /\ card' = card /\ b' = b).
Proof.
  destruct (Board.handOf b player) as [h|] eqn:Hh.
  - destruct (Board.cardCanBePlaced b card px py) eqn:Hc.
    + rewrite (playCard_success b player h playerTurn card px py Hh Hc).
      left. repeat split. discriminate.
    + rewrite (playCard_rejected b player h playerTurn card px py Hh Hc).
      right. left. repeat split. discriminate.
  - unfold Board.playCard. rewrite Hh. right. right. repeat split.
Qed.

(** ** What every step of a turn keeps *)

Lemma askLoop_origin (auto : bool) (b : Board.t) (card : Card.t) (x0 y0 px py : Z)
    (script rest : list Board.Prompt) :
  Board.askLoop auto b card x0 y0 script = Board.LoopExit px py rest ->
  Board.cards b = [] -> px = x0 /\ py = y0.
Proof.
  intros H He.
  assert (E : Board.boardIsEmpty b = true) by (unfold Board.boardIsEmpty; now rewrite He).
  destruct script; cbn [Board.askLoop] in H; rewrite E in H;
    destruct (Board.cardCanBePlaced b card x0 y0); try discriminate;
    now injection H as <- <- _.
Qed.

Section Stable.

Variable I : Board.t -> Prop.
Hypothesis HI : stable I.

Lemma addPoints_stable (b : Board.t) :
  Board.winType b = WinType.Win -> I b -> I (Board.addPoints b).
Proof.
  unfold Board.addPoints.
  assert (H : forall ws b0, Board.winType b0 = WinType.Win -> I b0 ->
             I (fold_left (fun b' player => Board.update_player player (Player.addPoints 1) b')
                          ws b0)).
  { induction ws as [|w ws IH]; intros b0 Hw H0; [exact H0|].
    cbn [fold_left]. apply IH; [exact Hw|]. apply (st_player I HI); [now constructor|exact H0]. }
  apply H.
Qed.

Lemma endGame_stable (b : Board.t) (wt : WinType.t) (ws ls : list nat) :
  I b -> Board.winType b = WinType.None -> Board.checkVictory b = (wt, ws, ls) ->
  I (Board.endGame b wt ws ls).
Proof.
  intros Hb Hw E. unfold Board.endGame. cbv zeta.
  pose proof (st_end I HI b wt ws ls Hb Hw E) as He.
  destruct wt; cbn [WinType.eqb]; [|exact He..].
  now apply addPoints_stable.
Qed.

Lemma endWithVictoryCheck_stable (b : Board.t) :
  I b -> Board.winType b = WinType.None -> I (Board.endWithVictoryCheck b).
Proof.
  intros Hb Hw. unfold Board.endWithVictoryCheck.
  destruct (Board.checkVictory b) as [[wt ws] ls] eqn:E.
  now apply endGame_stable.
Qed.

Lemma playerStep_stable (auto : bool) (b : Board.t) (player : nat) (script : list Board.Prompt) :
  I b -> I (Board.playerStep auto b player (Z.of_nat player) script).1.1.
Proof.
  intros Hb. unfold Board.playerStep.
  destruct (Board.isGameOver b) eqn:Hover; [exact Hb|]. cbv zeta.
  assert (Hw : Board.winType b = WinType.None).
  { unfold Board.isGameOver in Hover. destruct (Board.winType b); [discriminate..|reflexivity]. }
  set (b1 := Board.update_player player (Player.set_isTurn true) b).
  assert (Hb1 : I b1) by (apply (st_player I HI); [constructor|exact Hb]).
  destruct (Board.handOf b1 player) eqn:Hh1; [exact Hb1|].
  set (b2 := Board.update_player player (fun p => (Player.drawCard p).2) b1).
  assert (Hb2 : I b2) by (apply (st_player I HI); [now constructor|exact Hb1]).
  destruct (negb _); [now apply endWithVictoryCheck_stable|].
  destruct (Board.handOf b2 player) as [card|] eqn:Hh2; [|exact Hb2].
  destruct (Board.askLoop auto b2 card 0 0 script) as [px py rest|rest| |] eqn:El;
    [|now apply endWithVictoryCheck_stable|exact Hb2|exact Hb2].
  pose proof (askLoop_origin _ _ _ _ _ _ _ _ _ El) as Ho.
  apply askLoop_exit in El.
  rewrite (playCard_success b2 player card (Z.of_nat player) card px py Hh2 El).
  cbn [String.eqb Ascii.eqb Bool.eqb negb andb].
  set (b3 := Board.update_player player (Player.set_hand None) _).
  assert (Hb3 : I b3) by (now apply (st_place I HI)).
  destruct (Board.checkVictory b3) as [[wt ws] ls] eqn:Ev.
  destruct (negb _).
  - cbn [fst]. now apply endGame_stable.
  - cbn [fst]. apply (st_player I HI); [constructor|].
    apply (st_player I HI); [|exact Hb3]. apply op_remove.
    apply handOf_Some_hand in Hh2 as (p2 & Hp2 & _).
    exact (handOf_update (Board.set_cards _ b2) player p2 (Player.set_hand None) Hp2).
Qed.

Lemma forPlayers_stable (auto : bool) (n a : nat) (b : Board.t) (script : list Board.Prompt) :
  I b -> I (Board.forPlayers auto b (seq a n) (Z.of_nat a) script).1.1.
Proof.
  revert a b script.
  induction n as [|n IH]; intros a b script Hb; [exact Hb|].
  cbn [seq Board.forPlayers].
  pose proof (playerStep_stable auto b a script Hb) as Hs.
  destruct (Board.playerStep auto b a (Z.of_nat a) script) as [[b' rest] [st|]].
  - exact Hs.
  - replace (Z.of_nat a + 1) with (Z.of_nat (S a)) by lia. apply IH. exact Hs.
Qed.

Lemma forPlayers_winType (auto : bool) (refs : list nat) (b b' : Board.t) (playerTurn : Z)
    (script rest : list Board.Prompt) :
  Board.winType b = WinType.None ->
  Board.forPlayers auto b refs playerTurn script = (b', rest, None) ->
  Board.winType b' = WinType.None.
Proof.
  revert b playerTurn script.
  induction refs as [|player refs IH]; intros b playerTurn script Hb; cbn [Board.forPlayers].
  - now intros [= <- _].
  - destruct (Board.playerStep auto b player playerTurn script) as [[b1 rest1] [st|]] eqn:E;
      [discriminate|].
    apply IH. revert E. unfold Board.playerStep.
    destruct (Board.isGameOver b); [discriminate|]. cbv zeta.
    destruct (Board.handOf _ player); [discriminate|].
    destruct (negb _); [discriminate|].
    set (b2 := Board.update_player player (fun p => (Player.drawCard p).2) _).
    destruct (Board.handOf b2 player) as [card|] eqn:Hh2; [|discriminate].
    destruct (Board.askLoop auto b2 card 0 0 script) as [px py rest0|rest0| |] eqn:El;
      try discriminate.
    apply askLoop_exit in El.
    rewrite (playCard_success b2 player card playerTurn card px py Hh2 El).
    cbn [String.eqb Ascii.eqb Bool.eqb negb andb].
    destruct (Board.checkVictory _) as [[wt ws] ls].
    destruct (negb _); [discriminate|].
    intros [= <- _]. exact Hb.
Qed.

Lemma doATurn_stable (auto : bool) (b : Board.t) (script : list Board.Prompt) :
  I b -> I (Board.doATurn auto b script).1.1.
Proof.
  intros Hb. unfold Board.doATurn.
  destruct (negb (WinType.eqb (Board.winType b) WinType.None)) eqn:Ew; [exact Hb|].
  pose proof (forPlayers_stable auto (length (Board.players b)) 0 b script Hb) as Hf.
  change (seq 0 (length (Board.players b))) with (Board.allPlayers b) in Hf.
  change (Z.of_nat 0) with 0 in Hf.
  destruct (Board.forPlayers auto b (Board.allPlayers b) 0 script) as [[b' rest] [st|]] eqn:Ef.
  - exact Hf.
  - cbn [fst]. apply (st_player I HI); [constructor|]. apply (st_turn I HI); [exact Hf|].
    apply (forPlayers_winType auto (Board.allPlayers b) b b' 0 script rest); [|exact Ef].
    destruct (Board.winType b); [discriminate..|reflexivity].
Qed.

End Stable.

Lemma reachable_stable (I : Board.t -> Prop) :
  stable I ->
  (forall n opts r b r', Board.new n opts r = Some (b, r') -> I b) ->
  (forall b r b' r', reachable b -> I b -> Board.reset b r = Some (b', r') -> I b') ->
  forall b, reachable b -> I b.
Proof.
  intros HI Hnew Hreset b Hr.
  induction Hr as [n opts r r' b Hn|b b' r r' Hr IH Hres|b b' auto script rest st Hr IH Ht].
  - now apply Hnew with n opts r r'.
  - now apply Hreset with b r r'.
  - pose proof (doATurn_stable I HI auto b script IH) as H. now rewrite Ht in H.
Qed.

Lemma reset_cards (b b' : Board.t) (r r' : Rand) :
  Board.reset b r = Some (b', r') ->
  Board.cards b' = [] /\ Board.turn b' = 0 /\ Board.winType b' = WinType.None
  /\ Board.winners b' = [] /\ Board.losers b' = [].
Proof.
  unfold Board.reset. cbv zeta.
  destruct (Board.playerTurnByNbrFirstPlayer false _) as [[first b1]|] eqn:E; [|discriminate].
  cbn [mbind option_bind]. intros H.
  apply cardDistribution_cards in H as (-> & -> & -> & -> & ->).
  unfold Board.playerTurnByNbrFirstPlayer in E.
  destruct (fold_left _ _ _) as [playerWithTurn n] in E.
  destruct (_ !! playerWithTurn) in E; [|discriminate].
  cbn [mbind option_bind] in E. injection E as _ <-. repeat split.
Qed.

Lemma reachable_cards_ind (P : list Card.t -> Prop) :
  P [] ->
  (forall b card px py turn player,
      P (Board.cards b) ->
      Board.cardCanBePlaced b card px py = true ->
      (Board.cards b = [] -> px = 0 /\ py = 0) ->
      P (Board.cards b ++ [Card.placed card px py turn (Z.of_nat player) player])) ->
  forall b, reachable b -> P (Board.cards b).
Proof.
  intros H0 Hstep. apply (reachable_stable (fun b => P (Board.cards b))).
  - split.
    + intros b player f _ H. exact H.
    + intros b card px py player H _ Hc Ho. now apply Hstep.
    + intros b wt ws ls H _ _. exact H.
    + intros b H _. exact H.
  - intros n opts r b r' Hn. now destruct (new_fresh n opts r r' b Hn) as (-> & _).
  - intros b r b' r' _ _ Hres. now destruct (reset_cards b b' r r' Hres) as (-> & _).
Qed.

(** ** What the board of a game looks like *)

Lemma cardCanBePlaced_line (b : Board.t) (card : Card.t) (px py : Z) :
  Board.cardCanBePlaced b card px py = true ->
  Board.lineExceedsLimit b (Coordinates.mk px py) 6 = false.
Proof.
  unfold Board.cardCanBePlaced.
  destruct (_ || _); [discriminate|].
  now destruct (Board.lineExceedsLimit _ _ _).
Qed.

Lemma box_snoc (l : list Z) (p : Z) :
  boxMax 0 (l ++ [p]) = Z.max p (boxMax 0 l) /\ boxMin 0 (l ++ [p]) = Z.min p (boxMin 0 l).
Proof.
  unfold boxMax, boxMin. induction l as [|a l [IH1 IH2]]; cbn [app fold_right]; [lia|].
  rewrite IH1, IH2. lia.
Qed.

Lemma box_covers (l : list Z) (z : Z) : In z l -> boxMin 0 l <= z <= boxMax 0 l.
Proof.
  unfold boxMax, boxMin. induction l as [|a l IH]; [intros []|].
  cbn [fold_right]. intros [->|H]; [lia|]. specialize (IH H). lia.
Qed.

Lemma lookup_snoc_inv {A} (l : list A) (x y : A) (j : nat) :
  (l ++ [x]) !! j = Some y -> (j < length l)%nat /\ l !! j = Some y \/ j = length l /\ y = x.
Proof.
  intros H. destruct (decide (j < length l)%nat) as [Hlt|Hge].
  - left. split; [exact Hlt|]. now rewrite lookup_app_l in H.
  - right. rewrite lookup_app_r in H by lia.
    destruct (j - length l)%nat as [|k] eqn:E; [|now destruct k].
    cbn in H. injection H as <-. split; [lia|reflexivity].
Qed.

Lemma placed_on_lower (b : Board.t) (card c : Card.t) (px py : Z) :
  Board.cardCanBePlaced b card px py = true ->
  In c (Board.cards b) -> Card.x c = px -> Card.y c = py ->
  Card.value c < Card.value card.
Proof.
  intros Hc Hin Hx Hy.
  apply cardCanBePlaced_iff_available in Hc; [|now destruct (Board.cards b)].
  apply availableCoordinates_spec in Hc as (_ & Hacc & _).
  apply Hacc; [exact Hin|]. now split.
Qed.

Lemma placed_touches (b : Board.t) (card : Card.t) (px py : Z) :
  Board.cardCanBePlaced b card px py = true -> Board.cards b <> [] ->
  exists c, In c (Board.cards b) /\ touches px py c.
Proof.
  intros Hc Hne. apply cardCanBePlaced_iff_available in Hc; [|exact Hne].
  now apply availableCoordinates_spec in Hc as (Ht & _).
Qed.

(** X8.  In every state a game reaches, of two cards on the same cell
    the one laid later has the strictly greater value. *)
Theorem stacks_strictly_increase (b : Board.t) :
  reachable b ->
  forall i j ci cj,
    (i < j)%nat ->
    Board.cards b !! i = Some ci -> Board.cards b !! j = Some cj ->
    Card.x ci = Card.x cj -> Card.y ci = Card.y cj ->
    Card.value ci < Card.value cj.
Proof.
  revert b.
  apply (reachable_cards_ind
           (fun cs => forall i j ci cj,
                (i < j)%nat -> cs !! i = Some ci -> cs !! j = Some cj ->
                Card.x ci = Card.x cj -> Card.y ci = Card.y cj ->
                Card.value ci < Card.value cj)).
  - intros i j ci cj _ H. discriminate.
  - intros b card px py turn player IH Hc _ i j ci cj Hij Hi Hj Hx Hy.
    apply lookup_snoc_inv in Hj as [[Hlt Hj]| [-> ->]].
    + rewrite lookup_app_l in Hi by lia. now apply (IH i j).
    + rewrite lookup_app_l in Hi by lia.
      change (Card.value (Card.placed card px py turn (Z.of_nat player) player))
        with (Card.value card).
      apply (placed_on_lower b card ci px py Hc); [|exact Hx|exact Hy].
      apply list_elem_of_In. now apply list_elem_of_lookup_2 with i.
Qed.

(** X9.  In every state a game reaches every card lies on a cell with
    coordinates from -5 to 5, and no two cards are more than 5 apart on
    an axis: the cards fit a window of six by six cells. *)
Theorem board_fits_the_grid (b : Board.t) :
  reachable b ->
  forall c d,
    In c (Board.cards b) -> In d (Board.cards b) ->
    (-5 <= Card.x c <= 5 /\ -5 <= Card.y c <= 5)
    /\ Z.abs (Card.x c - Card.x d) <= 5 /\ Z.abs (Card.y c - Card.y d) <= 5.
Proof.
  intros Hr.
  assert (H : boxMax 0 (map Card.x (Board.cards b)) - boxMin 0 (map Card.x (Board.cards b)) <= 5
              /\ boxMax 0 (map Card.y (Board.cards b))
                 - boxMin 0 (map Card.y (Board.cards b)) <= 5).
  { revert b Hr.
    apply (reachable_cards_ind
             (fun cs => boxMax 0 (map Card.x cs) - boxMin 0 (map Card.x cs) <= 5
                        /\ boxMax 0 (map Card.y cs) - boxMin 0 (map Card.y cs) <= 5)).
    - cbn. lia.
    - intros b card px py turn player IH Hc _.
      apply cardCanBePlaced_line in Hc.
      assert (Hn : ~ (spanX b px >= 6 \/ spanY b py >= 6)).
      { intros Hs. apply lineExceedsLimit_span in Hs. congruence. }
      unfold spanX, spanY, boxMax, boxMin in Hn. cbn [fold_right] in Hn.
      rewrite !map_app. cbn [map].
      change (Card.x (Card.placed card px py turn (Z.of_nat player) player)) with px.
      change (Card.y (Card.placed card px py turn (Z.of_nat player) player)) with py.
      destruct (box_snoc (map Card.x (Board.cards b)) px) as [-> ->].
      destruct (box_snoc (map Card.y (Board.cards b)) py) as [-> ->].
      unfold boxMax, boxMin. lia. }
  intros c d Hc Hd. destruct H as [Hx Hy].
  pose proof (box_covers _ _ (in_map Card.x _ _ Hc)).
  pose proof (box_covers _ _ (in_map Card.x _ _ Hd)).
  pose proof (box_covers _ _ (in_map Card.y _ _ Hc)).
  pose proof (box_covers _ _ (in_map Card.y _ _ Hd)).
  pose proof (box_order (map Card.x (Board.cards b))).
  pose proof (box_order (map Card.y (Board.cards b))).
  lia.
Qed.

(** X10.  In every state a game reaches the first card lies on the
    origin, and every later card lies on, or next to, the cell of a card
    laid before it. *)
Theorem cards_grow_from_the_origin (b : Board.t) :
  reachable b ->
  (forall c, head (Board.cards b) = Some c -> Card.x c = 0 /\ Card.y c = 0)
  /\ (forall j cj,
        (0 < j)%nat -> Board.cards b !! j = Some cj ->
        exists i ci, (i < j)%nat /\ Board.cards b !! i = Some ci
                     /\ touches (Card.x cj) (Card.y cj) ci).
Proof.
  revert b.
  apply (reachable_cards_ind
           (fun cs =>
              (forall c, head cs = Some c -> Card.x c = 0 /\ Card.y c = 0)
              /\ (forall j cj,
                    (0 < j)%nat -> cs !! j = Some cj ->
                    exists i ci, (i < j)%nat /\ cs !! i = Some ci
                                 /\ touches (Card.x cj) (Card.y cj) ci))).
  - split; [discriminate|]. intros j cj _ H. discriminate.
  - intros b card px py turn player [IH1 IH2] Hc Ho. split.
    + intros c Hh. destruct (Board.cards b) as [|c0 cs] eqn:E.
      * cbn in Hh. injection Hh as <-. destruct (Ho eq_refl) as [-> ->]. now split.
      * cbn in Hh. injection Hh as <-. now apply IH1.
    + intros j cj Hj Hl. apply lookup_snoc_inv in Hl as [[Hlt Hl]| [-> ->]].
      * destruct (IH2 j cj Hj Hl) as (i & ci & Hi & Hci & Ht).
        exists i, ci. split; [exact Hi|]. split; [|exact Ht].
        rewrite lookup_app_l; [exact Hci|lia].
      * destruct (placed_touches b card px py Hc) as (c & Hin & Ht).
        { intros E. rewrite E in Hj. cbn in Hj. lia. }
        apply list_elem_of_In, list_elem_of_lookup_1 in Hin as [i Hi].
        exists i, c. pose proof (lookup_lt_Some _ _ _ Hi).
        split; [lia|]. split; [rewrite lookup_app_l; [exact Hi|lia]|exact Ht].
Qed.

Lemma handOf_lt (b : Board.t) (player : nat) (card : Card.t) :
  Board.handOf b player = Some card -> (player < length (Board.players b))%nat.
Proof.
  intros H. apply handOf_Some_hand in H as (p & Hp & _). now apply lookup_lt_Some in Hp.
Qed.

(** X11.  In every state a game reaches the turn counter is not
    negative and every card on the board records who laid it: a player
    of the game, the position of that player in the turn order, and a
    turn from 0 to the current one. *)
Theorem cards_record_their_play (b : Board.t) :
  reachable b ->
  0 <= Board.turn b
  /\ forall c, In c (Board.cards b) ->
       exists player,
         Card.playedBy c = Some player /\ (player < Board.nbrPlayers b)%nat
         /\ Card.playedIn c = Z.of_nat player
         /\ 0 <= Card.playedTurn c <= Board.turn b.
Proof.
  revert b.
  apply (reachable_stable
           (fun b =>
              0 <= Board.turn b
              /\ forall c, In c (Board.cards b) ->
                   exists player,
                     Card.playedBy c = Some player /\ (player < Board.nbrPlayers b)%nat
                     /\ Card.playedIn c = Z.of_nat player
                     /\ 0 <= Card.playedTurn c <= Board.turn b)).
  - split.
    + intros b player f _ [Ht H]. split; [exact Ht|].
      unfold Board.nbrPlayers. rewrite update_player_length. exact H.
    + intros b card px py player [Ht H] Hh _ _. split; [exact Ht|].
      unfold Board.nbrPlayers. rewrite update_player_length.
      cbn [Board.update_player Board.cards Board.set_players Board.set_cards Board.players
           Board.turn].
      intros c Hc. apply in_app_iff in Hc as [Hc|[<-|[]]]; [now apply H|].
      exists player. cbn. apply handOf_lt in Hh. repeat split; lia.
    + intros b wt ws ls H _ _. exact H.
    + intros b [Ht H] _. cbn [Board.addTurn Board.turn Board.cards]. split; [lia|].
      intros c Hc. destruct (H c Hc) as (player & H1 & H2 & H3 & H4).
      exists player. repeat split; try assumption; lia.
  - intros n opts r b r' Hn. destruct (new_fresh n opts r r' b Hn) as (-> & -> & _).
    split; [lia|intros c []].
  - intros b r b' r' _ _ Hres. destruct (reset_cards b b' r r' Hres) as (-> & -> & _).
    split; [lia|intros c []].
Qed.

Lemma roster_update (b : Board.t) (player : nat) (f : Player.t -> Player.t) :
  (forall p, roster (f p) = roster p) ->
  map roster (Board.players (Board.update_player player f b)) = map roster (Board.players b).
Proof.
  intros Hf. unfold Board.update_player. cbn [Board.players Board.set_players].
  revert player. induction (Board.players b) as [|p l IH]; intros player; [reflexivity|].
  destruct player as [|player]; cbn [alter list_alter map]; [now rewrite Hf|].
  f_equal. apply IH.
Qed.

Lemma points_update (b : Board.t) (player : nat) (f : Player.t -> Player.t) :
  (forall p, Player.points (f p) = Player.points p) ->
  map Player.points (Board.players (Board.update_player player f b))
  = map Player.points (Board.players b).
Proof.
  intros Hf. unfold Board.update_player. cbn [Board.players Board.set_players].
  revert player. induction (Board.players b) as [|p l IH]; intros player; [reflexivity|].
  destruct player as [|player]; cbn [alter list_alter map]; [now rewrite Hf|].
  f_equal. apply IH.
Qed.

Lemma playerOp_roster (b : Board.t) (player : nat) (f : Player.t -> Player.t) (p : Player.t) :
  playerOp b player f -> roster (f p) = roster p.
Proof.
  intros [v| | |]; try reflexivity.
  - unfold Player.drawCard. now destruct (last (Player.deck p)).
  - unfold Player.removeCardFromHand. now destruct (Player.hand p).
Qed.

Lemma playerOp_deck (b : Board.t) (player : nat) (f : Player.t -> Player.t) (p : Player.t) :
  playerOp b player f -> Player.deck (f p) `prefix_of` Player.deck p.
Proof.
  intros [v| | |]; try reflexivity.
  - unfold Player.drawCard. destruct (last (Player.deck p)) as [c|] eqn:E; [|reflexivity].
    apply last_Some in E as [l' ->]. cbn. rewrite removelast_last. now exists [c].
  - unfold Player.removeCardFromHand. now destruct (Player.hand p).
Qed.

(** X12.  Whatever its outcome, [doATurn] keeps the names, colours
    and first-player counts of the players, only adds cards at the end
    of the board, only takes cards from the top of the draw piles, does
    not lower the turn counter, and changes points only when it leaves
    the game won. *)
Theorem doATurn_frame (auto : bool) (b : Board.t) (script : list Board.Prompt) :
  let b' := (Board.doATurn auto b script).1.1 in
  map roster (Board.players b') = map roster (Board.players b)
  /\ Board.cards b `prefix_of` Board.cards b'
  /\ (forall i p p', Board.players b !! i = Some p -> Board.players b' !! i = Some p' ->
        Player.deck p' `prefix_of` Player.deck p)
  /\ (Board.winType b' <> WinType.Win ->
        map Player.points (Board.players b') = map Player.points (Board.players b))
  /\ Board.turn b <= Board.turn b'.
Proof.
  cbv zeta.
  destruct (WinType.eqb (Board.winType b) WinType.None) eqn:Ew.
  2:{ unfold Board.doATurn. rewrite Ew. cbn [negb fst]. repeat split; try reflexivity; try lia.
      intros i p p' Hp Hp'. rewrite Hp in Hp'. now injection Hp' as <-. }
  assert (Hw : Board.winType b = WinType.None)
    by (destruct (Board.winType b); [discriminate..|reflexivity]).
  set (I := fun b1 : Board.t =>
              map roster (Board.players b1) = map roster (Board.players b)
              /\ Board.cards b `prefix_of` Board.cards b1
              /\ (forall i p p', Board.players b !! i = Some p ->
                    Board.players b1 !! i = Some p' ->
                    Player.deck p' `prefix_of` Player.deck p)
              /\ (Board.winType b1 <> WinType.Win ->
                    map Player.points (Board.players b1) = map Player.points (Board.players b))
              /\ Board.turn b <= Board.turn b1).
  assert (HI : stable I).
  { split.
    - intros b1 player f Hop (H1 & H2 & H3 & H4 & H5). repeat split; try assumption; try apply H5.
      + rewrite roster_update; [exact H1|]. intros p. now apply (playerOp_roster b1 player).
      + intros i p p' Hp Hp'. unfold Board.update_player in Hp'.
        cbn [Board.players Board.set_players] in Hp'.
        destruct (decide (i = player)) as [->|Hne].
        * rewrite list_lookup_alter_eq in Hp'.
          destruct (Board.players b1 !! player) as [q|] eqn:Hq; [|discriminate].
          cbn in Hp'. injection Hp' as <-.
          etrans; [apply (playerOp_deck b1 player f q Hop)|]. now apply (H3 player).
        * rewrite list_lookup_alter_ne in Hp' by congruence. now apply (H3 i).
      + intros Hnw. destruct Hop as [v|Hh|Hh|Hwin].
        * rewrite points_update; [now apply H4|reflexivity].
        * rewrite points_update; [now apply H4|].
          intros p. unfold Player.drawCard. now destruct (last (Player.deck p)).
        * rewrite points_update; [now apply H4|].
          intros p. unfold Player.removeCardFromHand. now destruct (Player.hand p).
        * contradiction.
    - intros b1 card px py player (H1 & H2 & H3 & H4 & H5) Hh _ _.
      repeat split; try apply H5.
      + rewrite roster_update; [exact H1|reflexivity].
      + cbn. etrans; [exact H2|]. now apply prefix_app_r.
      + intros i p p' Hp Hp'. unfold Board.update_player in Hp'.
        cbn [Board.players Board.set_players Board.set_cards] in Hp'.
        destruct (decide (i = player)) as [->|Hne].
        * rewrite list_lookup_alter_eq in Hp'.
          destruct (Board.players b1 !! player) as [q|] eqn:Hq; [|discriminate].
          cbn in Hp'. injection Hp' as <-. exact (H3 player p q Hp Hq).
        * rewrite list_lookup_alter_ne in Hp' by congruence. now apply (H3 i).
      + intros Hnw. rewrite points_update; [now apply H4|reflexivity].
    - intros b1 wt ws ls (H1 & H2 & H3 & H4 & H5) Hw1 _.
      repeat split; try assumption; try apply H5.
      intros _. apply H4. rewrite Hw1. discriminate.
    - intros b1 (H1 & H2 & H3 & H4 & H5) Hw1.
      cbn [Board.addTurn Board.turn Board.winType Board.players Board.cards].
      repeat split; try assumption. cbn [Board.addTurn Board.turn]. lia. }
  apply (doATurn_stable I HI). repeat split; try reflexivity; try lia.
  intros i p p' Hp Hp'. rewrite Hp in Hp'. now injection Hp' as <-.
Qed.

(** ** A turn that runs to its end *)

Lemma cardCanBePlaced_ext (b1 b2 : Board.t) (card : Card.t) (px py : Z) :
  Board.cards b1 = Board.cards b2 ->
  Board.cardCanBePlaced b1 card px py = Board.cardCanBePlaced b2 card px py.
Proof.
  intros H.
  unfold Board.cardCanBePlaced, Board.availableCoordinates, Board.cellAccepts,
    Board.lineExceedsLimit, Board.boardExtremes, Board.boardIsEmpty.
  now rewrite H.
Qed.

Lemma playerStep_played (auto : bool) (b b' : Board.t) (player : nat) (playerTurn : Z)
    (script rest : list Board.Prompt) :
  Board.playerStep auto b player playerTurn script = (b', rest, None) ->
  exists p card px py,
    Board.winType b = WinType.None
    /\ Board.players b !! player = Some p
    /\ Player.hand p = None /\ last (Player.deck p) = Some card
    /\ Board.cardCanBePlaced b card px py = true
    /\ (Board.cards b = [] -> px = 0 /\ py = 0)
    /\ b' = Board.mk (Board.cards b ++ [Card.placed card px py (Board.turn b) playerTurn player])
                     (<[player := hasPlayed p]> (Board.players b))
                     (Board.turn b) (Board.winType b) (Board.winners b) (Board.losers b).
Proof.
  unfold Board.playerStep.
  destruct (Board.isGameOver b) eqn:Hover; [discriminate|]. cbv zeta.
  assert (Hw : Board.winType b = WinType.None).
  { unfold Board.isGameOver in Hover. destruct (Board.winType b); [discriminate..|reflexivity]. }
  set (b1 := Board.update_player player (Player.set_isTurn true) b).
  destruct (Board.handOf b1 player) eqn:Hh1; [discriminate|].
  destruct (Board.players b !! player) as [p|] eqn:Hp.
  2:{ unfold b1, Board.update_player. cbn [Board.players Board.set_players].
      rewrite list_lookup_alter_eq, Hp. cbn. discriminate. }
  assert (Hp1 : Board.players b1 !! player = Some (Player.set_isTurn true p)).
  { unfold b1, Board.update_player. cbn [Board.players Board.set_players].
    now rewrite list_lookup_alter_eq, Hp. }
  rewrite Hp1.
  assert (Hhand : Player.hand p = None).
  { unfold Board.handOf in Hh1. rewrite Hp1 in Hh1. exact Hh1. }
  set (b2 := Board.update_player player (fun p => (Player.drawCard p).2) b1).
  unfold Player.drawCard at 1. cbn [Player.deck Player.set_isTurn].
  destruct (last (Player.deck p)) as [card|] eqn:Hlast; [|discriminate].
  cbn [fst negb].
  assert (Hp2 : Board.players b2 !! player
                = Some (Player.set_hand (Some card)
                          (Player.set_deck (removelast (Player.deck p))
                                           (Player.set_isTurn true p)))).
  { unfold b2, Board.update_player. cbn [Board.players Board.set_players].
    rewrite list_lookup_alter_eq, Hp1. cbn [fmap option_fmap option_map].
    unfold Player.drawCard. cbn [Player.deck Player.set_isTurn]. now rewrite Hlast. }
  assert (Hh2 : Board.handOf b2 player = Some card).
  { unfold Board.handOf. now rewrite Hp2. }
  rewrite Hh2.
  destruct (Board.askLoop auto b2 card 0 0 script) as [px py rest0|rest0| |] eqn:El;
    try discriminate.
  pose proof (askLoop_origin _ _ _ _ _ _ _ _ _ El) as Ho.
  apply askLoop_exit in El.
  rewrite (playCard_success b2 player card playerTurn card px py Hh2 El).
  cbn [String.eqb Ascii.eqb Bool.eqb negb andb].
  destruct (Board.checkVictory _) as [[wt ws] ls].
  destruct (negb _); [discriminate|].
  intros [= <- <-].
  exists p, card, px, py.
  split; [exact Hw|]. split; [reflexivity|]. split; [exact Hhand|]. split; [exact Hlast|].
  split; [rewrite (cardCanBePlaced_ext b b2); [exact El|reflexivity]|]. split; [exact Ho|].
  unfold b2, b1, Board.update_player, Board.set_players, Board.set_cards.
  cbn [Board.players Board.cards Board.turn Board.winType Board.winners Board.losers].
  f_equal.
  apply list_eq. intros i. destruct (decide (i = player)) as [->|Hne].
  - rewrite !list_lookup_alter_eq, list_lookup_insert_eq by (now apply lookup_lt_Some in Hp).
    rewrite Hp. cbn [fmap option_fmap option_map]. f_equal.
    unfold Player.drawCard. cbn [Player.deck Player.set_isTurn]. rewrite Hlast.
    reflexivity.
  - now rewrite !list_lookup_alter_ne, list_lookup_insert_ne by congruence.
Qed.

Lemma forPlayers_completed (auto : bool) (m a : nat) (b b' : Board.t)
    (script rest : list Board.Prompt) :
  Board.forPlayers auto b (seq a m) (Z.of_nat a) script = (b', rest, None) ->
  (Board.turn b' = Board.turn b /\ Board.winType b' = Board.winType b
   /\ Board.winners b' = Board.winners b /\ Board.losers b' = Board.losers b)
  /\ length (Board.players b') = length (Board.players b)
  /\ Board.cards b `prefix_of` Board.cards b'
  /\ length (Board.cards b') = (length (Board.cards b) + m)%nat
  /\ (forall i, ~ (a <= i < a + m)%nat -> Board.players b' !! i = Board.players b !! i)
  /\ (forall i, (a <= i < a + m)%nat ->
        exists p card px py,
          Board.players b !! i = Some p
          /\ Player.hand p = None /\ last (Player.deck p) = Some card
          /\ Board.players b' !! i = Some (hasPlayed p)
          /\ Board.cards b' !! (length (Board.cards b) + (i - a))%nat
             = Some (Card.placed card px py (Board.turn b) (Z.of_nat i) i)).
Proof.
  revert a b script.
  induction m as [|m IH]; intros a b script; cbn [seq Board.forPlayers].
  - intros [= <- _]. repeat split; try reflexivity; try (intros; lia).
  - destruct (Board.playerStep auto b a (Z.of_nat a) script) as [[b1 rest1] [st|]] eqn:E;
      [discriminate|].
    replace (Z.of_nat a + 1) with (Z.of_nat (S a)) by lia. intros Hf.
    apply playerStep_played in E
      as (p & card & px & py & Hw & Hp & Hhand & Hlast & Hc & _ & Eb1).
    destruct (IH (S a) b1 rest1 Hf) as ((H1 & H2 & H3 & H4) & H5 & H6 & H7 & H8 & H9).
    pose proof (lookup_lt_Some _ _ _ Hp) as Hlt.
    assert (Hc1 : Board.cards b1
                  = Board.cards b ++ [Card.placed card px py (Board.turn b) (Z.of_nat a) a])
      by (now rewrite Eb1).
    assert (Hp1 : Board.players b1 = <[a := hasPlayed p]> (Board.players b))
      by (now rewrite Eb1).
    assert (Ht1 : Board.turn b1 = Board.turn b) by (now rewrite Eb1).
    split; [|split; [|split; [|split; [|split]]]].
    + rewrite H1, H2, H3, H4, Eb1. repeat split.
    + rewrite H5, Hp1. apply length_insert.
    + etrans; [|exact H6]. rewrite Hc1. now apply prefix_app_r.
    + rewrite H7, Hc1, length_app. cbn [length]. lia.
    + intros i Hi. rewrite H8 by lia. rewrite Hp1. apply list_lookup_insert_ne. lia.
    + intros i Hi. destruct (decide (i = a)) as [->|Hne].
      * exists p, card, px, py. repeat split; try assumption.
        -- rewrite H8 by lia. rewrite Hp1. now apply list_lookup_insert_eq.
        -- replace (length (Board.cards b) + (a - a))%nat with (length (Board.cards b)) by lia.
           apply prefix_lookup_Some with (Board.cards b1); [|exact H6].
           rewrite Hc1. now apply list_lookup_middle.
      * destruct (H9 i ltac:(lia)) as (q & card' & qx & qy & Hq & Hqh & Hql & Hq' & Hqc).
        exists q, card', qx, qy. repeat split; try assumption.
        -- rewrite Hp1 in Hq. now rewrite list_lookup_insert_ne in Hq by lia.
        -- rewrite Ht1 in Hqc. rewrite <- Hqc. f_equal.
           rewrite Hc1, length_app. cbn [length]. lia.
Qed.

(** X13.  When [doATurn] completes, the turn counter is one
    higher, the game is still open, and every player, in the order of
    the list, held no card, drew the top card of the pile and laid it:
    the board has one more card per player, in that order, each marked
    with the turn and the player.  The turn flag is left on the first
    player of the list only. *)
Theorem doATurn_completed (auto : bool) (b b' : Board.t) (script rest : list Board.Prompt) :
  Board.doATurn auto b script = (b', rest, Board.Completed) ->
  Board.turn b' = Board.turn b + 1
  /\ Board.winType b' = WinType.None
  /\ Board.winners b' = Board.winners b /\ Board.losers b' = Board.losers b
  /\ length (Board.players b') = length (Board.players b)
  /\ length (Board.cards b') = (length (Board.cards b) + Board.nbrPlayers b)%nat
  /\ forall i p,
       Board.players b !! i = Some p ->
       exists card px py,
         Player.hand p = None /\ last (Player.deck p) = Some card
         /\ Board.players b' !! i
            = Some (Player.set_isTurn (bool_decide (i = 0%nat)) (hasPlayed p))
         /\ Board.cards b' !! (length (Board.cards b) + i)%nat
            = Some (Card.placed card px py (Board.turn b) (Z.of_nat i) i).
Proof.
  unfold Board.doATurn.
  destruct (negb (WinType.eqb (Board.winType b) WinType.None)) eqn:Ew; [discriminate|].
  assert (Hw : Board.winType b = WinType.None)
    by (destruct (Board.winType b); [discriminate..|reflexivity]).
  destruct (Board.forPlayers auto b (Board.allPlayers b) 0 script) as [[b1 rest1] [st|]] eqn:Ef.
  - intros [= <- <- ->].
    exfalso. clear -Ef.
    revert Ef. generalize (Board.allPlayers b) as refs, 0 as playerTurn. intros refs.
    revert b script. induction refs as [|player refs IH]; intros b script playerTurn;
      cbn [Board.forPlayers]; [discriminate|].
    destruct (Board.playerStep auto b player playerTurn script) as [[b2 rest2] [st|]] eqn:E.
    + intros [= <- <- ->]. revert E. unfold Board.playerStep.
      destruct (Board.isGameOver b); [discriminate|]. cbv zeta.
      destruct (Board.handOf _ player); [discriminate|].
      destruct (negb _); [discriminate|].
      destruct (Board.handOf _ player) as [card|]; [|discriminate].
      destruct (Board.askLoop _ _ _ _ _ _); try discriminate.
      destruct (Board.playCard _ _ _ _ _ _) as [[msg b3] c3].
      destruct (negb _); [discriminate|].
      destruct (Board.checkVictory b3) as [[wt ws] ls].
      destruct (negb _); discriminate.
    + apply IH.
  - intros [= <- <-].
    change (Board.allPlayers b) with (seq 0 (length (Board.players b))) in Ef.
    change 0 with (Z.of_nat 0) in Ef.
    apply forPlayers_completed in Ef
      as ((H1 & H2 & H3 & H4) & H5 & H6 & H7 & H8 & H9).
    cbn [Board.update_player Board.addTurn Board.turn Board.winType Board.winners Board.losers
         Board.players Board.cards Board.set_players].
    rewrite length_alter.
    split; [congruence|]. split; [congruence|]. split; [exact H3|]. split; [exact H4|].
    split; [exact H5|]. split; [exact H7|].
    intros i p Hp. pose proof (lookup_lt_Some _ _ _ Hp) as Hlt.
    destruct (H9 i ltac:(lia)) as (q & card & px & py & Hq & Hqh & Hql & Hq' & Hqc).
    rewrite Hp in Hq. injection Hq as <-.
    exists card, px, py. repeat split; try assumption.
    + destruct (decide (i = 0%nat)) as [->|Hne].
      * rewrite list_lookup_alter_eq, Hq'. reflexivity.
      * rewrite list_lookup_alter_ne, Hq' by congruence.
        rewrite bool_decide_eq_false_2 by exact Hne. reflexivity.
    + now replace (i - 0)%nat with i in Hqc by lia.
Qed.

(** ** Progress of a turn *)

Lemma askLoop_auto (b : Board.t) (card : Card.t) (x0 y0 : Z) (script : list Board.Prompt) :
  match Board.askLoop true b card x0 y0 script with
  | Board.LoopExit _ _ rest | Board.LoopRefused rest =>
    (length script <= S (length rest))%nat
  | Board.LoopAwait => script = []
  | Board.LoopSpin => Board.cards b = [] /\ Board.cardCanBePlaced b card x0 y0 = false
  end.
Proof.
  destruct (Board.boardIsEmpty b) eqn:He.
  - assert (Hc : Board.cards b = []).
    { unfold Board.boardIsEmpty in He. destruct (Board.cards b); [reflexivity|discriminate]. }
    destruct script; cbn [Board.askLoop]; rewrite He;
      destruct (Board.cardCanBePlaced b card x0 y0); cbn [length]; try lia; now split.
  - destruct script as [|pr rest]; cbn [Board.askLoop]; rewrite He; [reflexivity|].
    destruct (Board.determineCardCoordinates b (Card.value card) (Board.pick pr)) as [co|] eqn:E;
      [|cbn [length]; lia].
    rewrite (determineCardCoordinates_playable b card _ co E). cbn [length]. lia.
Qed.

Lemma getPlayerTurn_first (b : Board.t) (k : nat) (p : Player.t) :
  Board.players b !! k = Some p -> Player.isTurn p = true ->
  (forall i q, (i < k)%nat -> Board.players b !! i = Some q -> Player.isTurn q = false) ->
  Board.getPlayerTurn b = Some k.
Proof.
  intros Hp Ht Hbefore. unfold Board.getPlayerTurn.
  assert (H : list_find (fun p => Player.isTurn p = true) (Board.players b) = Some (k, p)).
  { apply list_find_Some. split; [exact Hp|]. split; [exact Ht|].
    intros j y Hy Hj. rewrite (Hbefore j y Hj Hy). discriminate. }
  now rewrite H.
Qed.

Lemma endWithVictoryCheck_over (b : Board.t) :
  Board.isGameBlocked b = true -> Board.isGameOver (Board.endWithVictoryCheck b) = true.
Proof.
  intros Hb. unfold Board.endWithVictoryCheck, Board.isGameOver.
  pose proof (checkVictory_blocked b Hb) as H.
  destruct (Board.checkVictory b) as [[wt ws] ls].
  destruct (endGame_fields b wt ws ls) as (-> & _).
  destruct H as [[[-> _]|[-> _]] _]; reflexivity.
Qed.

Lemma playerStep_rest (b b' : Board.t) (k : nat) (playerTurn : Z)
    (script rest : list Board.Prompt) (st : option Board.Status) :
  Board.playerStep true b k playerTurn script = (b', rest, st) ->
  st <> Some Board.Awaiting -> (length script <= S (length rest))%nat.
Proof.
  unfold Board.playerStep.
  destruct (Board.isGameOver b); [intros [= _ <- _] _; lia|]. cbv zeta.
  destruct (Board.handOf _ k); [intros [= _ <- _] _; lia|].
  destruct (negb _); [intros [= _ <- _] _; lia|].
  set (b2 := Board.update_player k (fun p => (Player.drawCard p).2) _).
  destruct (Board.handOf b2 k) as [card|]; [|intros [= _ <- _] _; lia].
  pose proof (askLoop_auto b2 card 0 0 script) as Hauto.
  destruct (Board.askLoop true b2 card 0 0 script) as [px py rest0|rest0| |].
  - destruct (Board.playCard _ _ _ _ _ _) as [[msg b3] c3].
    destruct (negb _); [now intros [= _ <- _] _|].
    destruct (Board.checkVictory b3) as [[wt ws] ls].
    destruct (negb _); now intros [= _ <- _] _.
  - now intros [= _ <- _] _.
  - intros [= _ _ <-] H. now contradiction H.
  - intros [= _ <- _] _; lia.
Qed.

Lemma midTurn_step (auto : bool) (d k : nat) (b : Board.t) (playerTurn : Z)
    (script : list Board.Prompt) :
  midTurn d k b -> (k < length (Board.players b))%nat ->
  match Board.playerStep auto b k playerTurn script with
  | (b', rest, None) =>
    midTurn d (S k) b'
    /\ length (Board.players b') = length (Board.players b)
    /\ length (Board.cards b') = S (length (Board.cards b))
    /\ Board.turn b' = Board.turn b
    /\ (auto = true -> (length script <= S (length rest))%nat)
  | (b', rest, Some st) =>
    st = Board.Returned /\ Board.isGameOver b' = true /\ Board.turn b' = Board.turn b
    \/ st = Board.Awaiting /\ (auto = true -> script = [])
  end.
Proof.
  intros [Hw Hmid] Hk.
  destruct (Board.playerStep auto b k playerTurn script) as [[b' rest] [st|]] eqn:E.
  - revert E. unfold Board.playerStep.
    assert (Hover : Board.isGameOver b = false)
      by (unfold Board.isGameOver; now rewrite Hw).
    rewrite Hover. cbv zeta.
    destruct (lookup_lt_is_Some_2 _ _ Hk) as [p Hp].
    destruct (Hmid k p Hp) as (Hhand & _ & Hdeck). specialize (Hdeck (Nat.le_refl k)).
    set (b1 := Board.update_player k (Player.set_isTurn true) b).
    assert (Hp1 : Board.players b1 !! k = Some (Player.set_isTurn true p)).
    { unfold b1, Board.update_player. cbn [Board.players Board.set_players].
      now rewrite list_lookup_alter_eq, Hp. }
    assert (Hh1 : Board.handOf b1 k = None) by (unfold Board.handOf; now rewrite Hp1).
    rewrite Hh1, Hp1.
    destruct (last (Player.deck p)) as [card|] eqn:Hlast.
    2:{ apply last_None in Hlast. rewrite Hlast in Hdeck. discriminate. }
    unfold Player.drawCard at 1. cbn [Player.deck Player.set_isTurn]. rewrite Hlast.
    cbn [fst negb].
    set (b2 := Board.update_player k (fun p => (Player.drawCard p).2) b1).
    set (p2 := Player.set_hand (Some card)
                 (Player.set_deck (removelast (Player.deck p)) (Player.set_isTurn true p))).
    assert (Hp2 : Board.players b2 !! k = Some p2).
    { unfold b2, Board.update_player. cbn [Board.players Board.set_players].
      rewrite list_lookup_alter_eq, Hp1. cbn [fmap option_fmap option_map].
      unfold Player.drawCard. cbn [Player.deck Player.set_isTurn]. now rewrite Hlast. }
    assert (Hh2 : Board.handOf b2 k = Some card) by (unfold Board.handOf; now rewrite Hp2).
    rewrite Hh2.
    assert (Hblocked : Board.isGameBlocked b2 = true).
    { unfold Board.isGameBlocked. destruct (Board.boardIsFull b2); [reflexivity|].
      rewrite (getPlayerTurn_first b2 k p2 Hp2 eq_refl), Hh2; [reflexivity|].
      intros i q Hi Hq. unfold b2, b1, Board.update_player in Hq.
      cbn [Board.players Board.set_players] in Hq.
      rewrite !list_lookup_alter_ne in Hq by lia.
      now destruct (Hmid i q Hq) as (_ & [? _] & _). }
    pose proof (askLoop_auto b2 card 0 0 script) as Hauto.
    pose proof (askLoop_never_spins auto b2 card script) as Hspin.
    destruct (Board.askLoop auto b2 card 0 0 script) as [px py rest0|rest0| |] eqn:El.
    + apply askLoop_exit in El.
      rewrite (playCard_success b2 k card playerTurn card px py Hh2 El).
      cbn [String.eqb Ascii.eqb Bool.eqb negb andb].
      destruct (Board.checkVictory _) as [[wt ws] ls].
      destruct (negb (WinType.eqb wt WinType.None)) eqn:Ewt; [|discriminate].
      intros [= <- _ <-]. left. split; [reflexivity|].
      unfold Board.isGameOver.
      match goal with
      | |- context [Board.endGame ?x wt ws ls] =>
        destruct (endGame_fields x wt ws ls) as (-> & _ & _ & _ & ->)
      end.
      split; [exact Ewt|reflexivity].
    + intros [= <- _ <-]. left. split; [reflexivity|].
      split; [now apply endWithVictoryCheck_over|].
      unfold Board.endWithVictoryCheck.
      destruct (Board.checkVictory b2) as [[wt ws] ls].
      now destruct (endGame_fields b2 wt ws ls) as (_ & _ & _ & _ & ->).
    + intros [= <- _ <-]. right. split; [reflexivity|]. intros ->. now rewrite El in Hauto.
    + contradiction.
  - assert (Hrest : auto = true -> (length script <= S (length rest))%nat).
    { intros ->. now apply (playerStep_rest _ _ _ _ _ _ _ E). }
    apply playerStep_played in E
      as (p & card & px & py & _ & Hp & Hhand & Hlast & Hc & _ & Eb').
    assert (Hpl : Board.players b' = <[k := hasPlayed p]> (Board.players b))
      by (now rewrite Eb').
    split; [|split; [|split; [|split]]].
    + split; [now rewrite Eb'|].
      intros i q Hq. rewrite Hpl in Hq.
      destruct (decide (i = k)) as [->|Hne].
      * rewrite list_lookup_insert_eq in Hq by exact Hk. injection Hq as <-.
        split; [reflexivity|]. split; [|lia]. intros _. split; [reflexivity|].
        destruct (Hmid k p Hp) as (_ & _ & Hdeck). specialize (Hdeck (Nat.le_refl k)).
        apply last_Some in Hlast as [l' El']. cbn [hasPlayed Player.deck].
        rewrite El', removelast_last. rewrite El', length_app in Hdeck. cbn in Hdeck. lia.
      * rewrite list_lookup_insert_ne in Hq by congruence.
        destruct (Hmid i q Hq) as (H1 & H2 & H3). split; [exact H1|].
        split; intros Hi; [apply H2|apply H3]; lia.
    + rewrite Hpl. apply length_insert.
    + rewrite Eb'. cbn [Board.cards]. rewrite length_app. cbn [length]. lia.
    + now rewrite Eb'.
    + exact Hrest.
Qed.

Lemma forPlayers_progress (auto : bool) (d n a : nat) (b : Board.t)
    (script : list Board.Prompt) :
  midTurn d a b -> (a + n)%nat = length (Board.players b) ->
  match Board.forPlayers auto b (seq a n) (Z.of_nat a) script with
  | (b', rest, None) =>
    midTurn d (a + n) b'
    /\ length (Board.players b') = length (Board.players b)
    /\ length (Board.cards b') = (length (Board.cards b) + n)%nat
    /\ Board.turn b' = Board.turn b
    /\ (auto = true -> (length script <= length rest + n)%nat)
  | (b', rest, Some st) =>
    st = Board.Returned /\ Board.isGameOver b' = true /\ Board.turn b' = Board.turn b
    \/ st = Board.Awaiting /\ (auto = true -> (length script < n)%nat)
  end.
Proof.
  revert a b script.
  induction n as [|n IH]; intros a b script Hmid Hn; cbn [seq Board.forPlayers].
  - rewrite Nat.add_0_r. split; [exact Hmid|]. repeat split; lia.
  - pose proof (midTurn_step auto d a b (Z.of_nat a) script Hmid ltac:(lia)) as Hs.
    destruct (Board.playerStep auto b a (Z.of_nat a) script) as [[b1 rest1] [st|]].
    + destruct Hs as [(-> & Ho & Ht)|[-> Ha]]; [left; now repeat split|].
      right. split; [reflexivity|]. intros E. rewrite (Ha E). cbn. lia.
    + destruct Hs as (Hmid1 & Hl1 & Hc1 & Ht1 & Hr1).
      replace (Z.of_nat a + 1) with (Z.of_nat (S a)) by lia.
      specialize (IH (S a) b1 rest1 Hmid1 ltac:(lia)).
      destruct (Board.forPlayers auto b1 (seq (S a) n) (Z.of_nat (S a)) rest1)
        as [[b' rest] [st|]].
      * destruct IH as [(-> & Ho & Ht)|[-> Ha]];
          [left; split; [reflexivity|]; split; [exact Ho|congruence]|].
        right. split; [reflexivity|]. intros E. specialize (Ha E). specialize (Hr1 E). lia.
      * destruct IH as (Hmid' & Hl' & Hc' & Ht' & Hr').
        replace (a + S n)%nat with (S a + n)%nat by lia.
        split; [exact Hmid'|]. split; [congruence|]. split; [lia|]. split; [congruence|].
        intros E. specialize (Hr' E). specialize (Hr1 E). lia.
Qed.

Lemma ready_midTurn (d : nat) (b : Board.t) : ready (S d) b -> midTurn d 0 b.
Proof.
  intros (Hw & _ & Hp & _). split; [exact Hw|].
  intros i p Hi. apply list_elem_of_lookup_2, list_elem_of_In in Hi.
  destruct (Hp p Hi) as [Hh Hd]. split; [exact Hh|]. split; [lia|]. intros _. exact Hd.
Qed.

Lemma doATurn_ready_step (auto : bool) (d : nat) (b : Board.t) (script : list Board.Prompt) :
  ready (S d) b ->
  match Board.doATurn auto b script with
  | (b', rest, Board.Completed) =>
    ready d b' /\ Board.turn b' = Board.turn b + 1
    /\ (auto = true -> (length script <= length rest + length (Board.players b))%nat)
    /\ length (Board.players b') = length (Board.players b)
  | (b', rest, Board.Returned) => Board.isGameOver b' = true /\ Board.turn b' = Board.turn b
  | (b', rest, Board.Awaiting) =>
    auto = true -> (length script < length (Board.players b))%nat
  | _ => False
  end.
Proof.
  intros Hr. pose proof (ready_midTurn d b Hr) as Hmid.
  destruct Hr as (Hw & Hn & Hp & Hc).
  unfold Board.doATurn. rewrite Hw. cbn [WinType.eqb negb].
  pose proof (forPlayers_progress auto d (length (Board.players b)) 0 b script Hmid eq_refl)
    as Hf.
  change (seq 0 (length (Board.players b))) with (Board.allPlayers b) in Hf.
  change (Z.of_nat 0) with 0 in Hf.
  destruct (Board.forPlayers auto b (Board.allPlayers b) 0 script) as [[b1 rest1] [st|]].
  - destruct Hf as [(-> & Ho)|[-> Ha]]; [exact Ho|exact Ha].
  - destruct Hf as ([Hw1 Hmid1] & Hl1 & Hc1 & Ht1 & Hr1).
    cbn [Nat.add] in Hmid1.
    split; [|split; [|split]].
    + split; [exact Hw1|].
      unfold Board.update_player. cbn [Board.players Board.set_players Board.addTurn Board.cards].
      rewrite length_alter. split; [lia|]. split; [|lia].
      intros p Hin. apply list_elem_of_In, list_elem_of_lookup_1 in Hin as [i Hi].
      destruct (decide (i = 0%nat)) as [->|Hne].
      * rewrite list_lookup_alter_eq in Hi.
        destruct (Board.players b1 !! 0%nat) as [q|] eqn:Hq; [|discriminate].
        cbn in Hi. injection Hi as <-.
        destruct (Hmid1 _ _ Hq) as (H1 & H2 & _).
        pose proof (lookup_lt_Some _ _ _ Hq). split; [exact H1|]. apply H2. lia.
      * rewrite list_lookup_alter_ne in Hi by congruence.
        destruct (Hmid1 _ _ Hi) as (H1 & H2 & _).
        pose proof (lookup_lt_Some _ _ _ Hi). split; [exact H1|]. apply H2. lia.
    + cbn. lia.
    + exact Hr1.
    + unfold Board.update_player. cbn [Board.players Board.set_players Board.addTurn].
      now rewrite length_alter.
Qed.

Lemma doATurn_ready_last (auto : bool) (b : Board.t) (script : list Board.Prompt) :
  ready 0 b ->
  exists b', Board.doATurn auto b script = (b', script, Board.Returned)
             /\ Board.isGameOver b' = true /\ Board.turn b' = Board.turn b.
Proof.
  intros (Hw & Hn & Hp & Hc).
  unfold Board.doATurn. rewrite Hw. cbn [WinType.eqb negb].
  destruct (Board.players b) as [|p ps] eqn:Eps; [cbn in Hn; lia|].
  unfold Board.allPlayers. rewrite Eps. cbn [length seq Board.forPlayers].
  unfold Board.playerStep.
  assert (Hover : Board.isGameOver b = false) by (unfold Board.isGameOver; now rewrite Hw).
  rewrite Hover. cbv zeta.
  destruct (Hp p) as [Hh Hd]; [now left|].
  assert (Hdeck : Player.deck p = []) by (now destruct (Player.deck p)).
  set (b1 := Board.update_player 0%nat (Player.set_isTurn true) b).
  assert (Hp1 : Board.players b1 !! 0%nat = Some (Player.set_isTurn true p)).
  { unfold b1, Board.update_player. cbn [Board.players Board.set_players]. now rewrite Eps. }
  assert (Hh1 : Board.handOf b1 0%nat = None) by (unfold Board.handOf; now rewrite Hp1).
  rewrite Hh1, Hp1. unfold Player.drawCard at 1. cbn [Player.deck Player.set_isTurn].
  rewrite Hdeck. cbn [last fst negb].
  set (b2 := Board.update_player 0%nat (fun p => (Player.drawCard p).2) b1).
  exists (Board.endWithVictoryCheck b2). split; [reflexivity|]. split.
  - apply endWithVictoryCheck_over. unfold Board.isGameBlocked, Board.boardIsFull.
    change (Board.cards b2) with (Board.cards b).
    replace (length (Board.cards b)) with 72%nat by lia. reflexivity.
  - unfold Board.endWithVictoryCheck.
    destruct (Board.checkVictory b2) as [[wt ws] ls].
    now destruct (endGame_fields b2 wt ws ls) as (_ & _ & _ & _ & ->).
Qed.

Lemma playUntilGameOver_over (fuel : nat) (auto : bool) (b : Board.t)
    (script : list Board.Prompt) :
  Board.isGameOver b = true ->
  Punto.playUntilGameOver fuel auto b script = Some (b, script, Board.Completed).
Proof. intros H. destruct fuel; cbn [Punto.playUntilGameOver]; now rewrite H. Qed.

Lemma playUntilGameOver_ready (d : nat) (b : Board.t) (script : list Board.Prompt)
    (fuel : nat) :
  ready d b -> (d * length (Board.players b) <= length script)%nat -> (d < fuel)%nat ->
  exists b' rest,
    Punto.playUntilGameOver fuel true b script = Some (b', rest, Board.Completed)
    /\ Board.isGameOver b' = true
    /\ Board.turn b <= Board.turn b' <= Board.turn b + Z.of_nat d.
Proof.
  revert b script fuel.
  induction d as [|d IH]; intros b script fuel Hr Hs Hf;
    (destruct fuel as [|fuel]; [lia|]);
    assert (Hover : Board.isGameOver b = false)
      by (unfold Board.isGameOver; now rewrite (proj1 Hr));
    cbn [Punto.playUntilGameOver]; rewrite Hover.
  - destruct (doATurn_ready_last true b script Hr) as (b' & -> & Ho & Ht).
    exists b', script. rewrite (playUntilGameOver_over _ _ _ _ Ho).
    split; [reflexivity|]. split; [exact Ho|]. lia.
  - pose proof (doATurn_ready_step true d b script Hr) as Hstep.
    destruct (Board.doATurn true b script) as [[b1 rest1] [| | | |]]; try contradiction.
    + destruct Hstep as (Hr1 & Ht1 & Hl1 & Hn1). specialize (Hl1 eq_refl).
      destruct (IH b1 rest1 fuel Hr1) as (b' & rest & E & Ho & Ht); [rewrite Hn1; lia|lia|].
      exists b', rest. split; [exact E|]. split; [exact Ho|]. lia.
    + destruct Hstep as [Ho Ht]. exists b1, rest1.
      rewrite (playUntilGameOver_over _ _ _ _ Ho).
      split; [reflexivity|]. split; [exact Ho|]. lia.
    + specialize (Hstep eq_refl). lia.
Qed.

(** X14.  Between two turns of a running game (nobody holds a
    card, the draw piles have [d] cards each, 72 cards in all)
    [doATurn] neither throws nor loops for ever.  It completes the turn
    and leaves such a state with piles one card lower and the turn
    counter one higher; or it ends the game and leaves the turn counter;
    or the script of replies and random values runs out, which in
    automatic play takes a script shorter than the number of
    players. *)
Theorem turn_between_turns (auto : bool) (d : nat) (b : Board.t) (script : list Board.Prompt) :
  ready d b ->
  match Board.doATurn auto b script with
  | (b', rest, Board.Completed) =>
    (exists d', d = S d' /\ ready d' b') /\ Board.turn b' = Board.turn b + 1
  | (b', rest, Board.Returned) => Board.isGameOver b' = true /\ Board.turn b' = Board.turn b
  | (b', rest, Board.Awaiting) => auto = true -> (length script < Board.nbrPlayers b)%nat
  | (_, _, Board.Threw _) | (_, _, Board.Spinning) => False
  end.
Proof.
  intros Hr. destruct d as [|d].
  - destruct (doATurn_ready_last auto b script Hr) as (b' & -> & Ho & Ht). now split.
  - pose proof (doATurn_ready_step auto d b script Hr) as H.
    destruct (Board.doATurn auto b script) as [[b' rest] [| | | |]]; try exact H.
    destruct H as (H1 & H2 & _). split; [now exists d|exact H2].
Qed.

(** ** What the distribution gives each player *)

Lemma forEachM_inv {St} (I : nat -> St -> Prop) (f : St -> nat -> option St)
    (n a : nat) (s s' : St) :
  I a s ->
  (forall k s0 s1, (a <= k < a + n)%nat -> I k s0 -> f s0 k = Some s1 -> I (S k) s1) ->
  forEachM f (seq a n) s = Some s' -> I (a + n)%nat s'.
Proof.
  revert a s. induction n as [|n IH]; intros a s H0 Hstep; cbn [seq forEachM].
  - intros [= <-]. now rewrite Nat.add_0_r.
  - destruct (f s a) as [s1|] eqn:E; [|discriminate]. cbn [mbind option_bind].
    intros H. replace (a + S n)%nat with (S a + n)%nat by lia.
    apply (IH (S a) s1); [apply (Hstep a s s1); [lia|exact H0|exact E]| |exact H].
    intros k s0 s2 Hk. apply Hstep. lia.
Qed.

Lemma pickColor_inv (d d' : Board.Dist) (c : string) :
  Board.pickColor d = Some (c, d') ->
  Board.d_players d' = Board.d_players d /\ Board.d_listCard d' = Board.d_listCard d
  /\ Board.d_colors d ≡ₚ c :: Board.d_colors d'.
Proof.
  intros H.
  assert (Hne : Board.d_colors d <> []).
  { intros E. unfold Board.pickColor in H. rewrite E in H. cbn in H. discriminate. }
  destruct (pickColor_spec d Hne) as (c0 & d0 & E & H1 & H2 & H3).
  rewrite E in H. injection H as <- <-. now repeat split.
Qed.

Lemma fillDeckOf_inv (player : nat) (cs : list Card.t) (d d' : Board.Dist) :
  Board.fillDeckOf player cs d = Some d' ->
  exists p p',
    Board.d_players d !! player = Some p
    /\ Board.d_players d' = <[player := p']> (Board.d_players d)
    /\ sameButDeck p p' /\ Player.color p' = Player.color p
    /\ Player.deck p' ≡ₚ Player.deck p ++ cs
    /\ Board.d_colors d' = Board.d_colors d /\ Board.d_listCard d' = Board.d_listCard d.
Proof.
  unfold Board.fillDeckOf.
  destruct (Board.d_players d !! player) as [p|] eqn:Hp; [|discriminate].
  cbn [mbind option_bind].
  destruct (fillDeck_spec cs p (Board.d_rand d)) as (Hs & Hd & Hc).
  destruct (Player.fillDeck cs p (Board.d_rand d)) as [p' r]. cbn [fst] in Hs, Hd, Hc.
  intros [= <-]. exists p, p'.
  split; [reflexivity|]. split; [reflexivity|]. split; [exact Hs|]. split; [exact Hc|].
  split; [exact Hd|]. split; reflexivity.
Qed.

Lemma fillColors_inv (player : nat) (colors : list string) (d d' : Board.Dist) (p : Player.t) :
  Board.d_players d !! player = Some p ->
  forEachM (fun d' color => cs ← Board.d_listCard d' !! color; Board.fillDeckOf player cs d')
           colors d = Some d' ->
  exists p' css,
    Board.d_players d' = <[player := p']> (Board.d_players d)
    /\ sameButDeck p p' /\ Player.color p' = Player.color p
    /\ Forall2 (fun c cs => Board.d_listCard d !! c = Some cs) colors css
    /\ Player.deck p' ≡ₚ Player.deck p ++ concat css
    /\ Board.d_colors d' = Board.d_colors d /\ Board.d_listCard d' = Board.d_listCard d.
Proof.
  revert d p. induction colors as [|c colors IH]; intros d p Hp; cbn [forEachM].
  - intros [= <-]. exists p, []. rewrite (list_insert_id _ _ _ Hp), app_nil_r.
    split; [reflexivity|]. split; [apply sameButDeck_refl|]. split; [reflexivity|].
    split; [constructor|]. split; [reflexivity|]. split; reflexivity.
  - destruct (Board.d_listCard d !! c) as [cs|] eqn:Ec; [|discriminate].
    cbn [mbind option_bind].
    destruct (Board.fillDeckOf player cs d) as [d1|] eqn:E1; [|discriminate].
    cbn [mbind option_bind]. intros H.
    apply fillDeckOf_inv in E1 as (q & p1 & Hq & Hpl1 & Hs1 & Hc1 & Hd1 & Hcol1 & Hl1).
    rewrite Hp in Hq. injection Hq as <-.
    assert (Hp1 : Board.d_players d1 !! player = Some p1).
    { rewrite Hpl1. apply list_lookup_insert_eq. now apply lookup_lt_Some in Hp. }
    destruct (IH d1 p1 Hp1 H) as (p' & css & Hpl & Hs & Hc & Hcss & Hd & Hcol & Hl).
    exists p', (cs :: css). split; [|split; [|split; [|split; [|split; [|split]]]]].
    + now rewrite Hpl, Hpl1, list_insert_insert_eq.
    + now apply sameButDeck_trans with p1.
    + congruence.
    + constructor; [exact Ec|]. now rewrite <- Hl1.
    + rewrite Hd, Hd1. cbn [concat]. now rewrite <- app_assoc.
    + congruence.
    + congruence.
Qed.

Lemma fillOwnColors_inv (player : nat) (d d' : Board.Dist) :
  Board.fillOwnColors player d = Some d' ->
  exists p p' css,
    Board.d_players d !! player = Some p
    /\ Board.d_players d' = <[player := p']> (Board.d_players d)
    /\ sameButDeck p p' /\ Player.color p' = Player.color p
    /\ Forall2 (fun c cs => Board.d_listCard d !! c = Some cs) (Player.color p) css
    /\ Player.deck p' ≡ₚ Player.deck p ++ concat css
    /\ Board.d_colors d' = Board.d_colors d /\ Board.d_listCard d' = Board.d_listCard d.
Proof.
  unfold Board.fillOwnColors.
  destruct (Board.d_players d !! player) as [p|] eqn:Hp; [|discriminate].
  cbn [mbind option_bind]. intros H.
  destruct (fillColors_inv player (Player.color p) d d' p Hp H) as (p' & css & H').
  now exists p, p', css.
Qed.

Lemma newListCard_cardsFor (c : string) (cs : list Card.t) :
  Board.newListCard !! c = Some cs -> cs = cardsFor c.
Proof. intros H. unfold cardsFor. now rewrite H. Qed.

Lemma colours_cardsFor (colors : list string) (css : list (list Card.t)) :
  Forall2 (fun c cs => Board.newListCard !! c = Some cs) colors css ->
  concat css = flat_map cardsFor colors.
Proof.
  induction 1 as [|c cs colors css Hc _ IH]; [reflexivity|].
  cbn [concat flat_map]. now rewrite IH, (newListCard_cardsFor c cs Hc).
Qed.

Lemma served_assign (m k : nat) (d d' : Board.Dist) (p p' : Player.t) (colors : list string) :
  served m k d ->
  Board.d_players d !! k = Some p ->
  Board.d_listCard d' = Board.newListCard ->
  (forall i, i <> k -> Board.d_players d' !! i = Board.d_players d !! i) ->
  Board.d_players d' !! k = Some p' ->
  Player.hand p' = Player.hand p ->
  Player.color p' = colors -> length colors = m ->
  Player.deck p' ≡ₚ Player.deck p ++ flat_map cardsFor colors ->
  Board.d_colors d ≡ₚ colors ++ Board.d_colors d' ->
  served m (S k) d'.
Proof.
  intros (Hl & Hown & Hpl) Hp Hl' Hother Hp' Hhand Hcol Hlen Hdeck Hcols.
  split; [exact Hl'|]. split.
  - rewrite (take_S_r _ _ _ Hp'), flat_map_app. cbn [flat_map]. rewrite Hcol, app_nil_r.
    assert (Ht : take k (Board.d_players d') = take k (Board.d_players d)).
    { apply list_eq. intros i. rewrite !lookup_take.
      destruct (decide (i < k)%nat) as [Hi|Hi]; [|reflexivity]. apply Hother. lia. }
    rewrite Ht, <- Hown, Hcols. now rewrite <- app_assoc.
  - intros i q Hq. destruct (decide (i = k)) as [->|Hne].
    + rewrite Hp' in Hq. injection Hq as <-.
      destruct (Hpl k p Hp) as (Hh & _ & Hd). specialize (Hd (Nat.le_refl k)).
      split; [congruence|]. split; [|lia]. intros _. split; [congruence|].
      rewrite Hdeck, Hd, Hcol. reflexivity.
    + rewrite (Hother i Hne) in Hq. destruct (Hpl i q Hq) as (Hh & H1 & H2).
      split; [exact Hh|]. split; intros Hi; [apply H1|apply H2]; lia.
Qed.

Lemma lookup_insert_alter {A} (l : list A) (f : A -> A) (k i : nat) (x : A) :
  i <> k -> <[k := x]> (alter f k l) !! i = l !! i.
Proof. intros H. now rewrite list_lookup_insert_ne, list_lookup_alter_ne by congruence. Qed.

Lemma served_step2 (k : nat) (d d' : Board.Dist) :
  served 2 k d -> (k < length (Board.d_players d))%nat ->
  ('(color1, d) ← Board.pickColor d;
   '(color2, d) ← Board.pickColor d;
   Board.fillOwnColors k (Board.setColor k [color1; color2] d)) = Some d' ->
  served 2 (S k) d' /\ length (Board.d_players d') = length (Board.d_players d).
Proof.
  intros Hs Hk.
  destruct (Board.pickColor d) as [[c1 d1]|] eqn:E1; [|discriminate]. cbn [mbind option_bind].
  destruct (Board.pickColor d1) as [[c2 d2]|] eqn:E2; [|discriminate]. cbn [mbind option_bind].
  intros E3.
  apply pickColor_inv in E1 as (Hp1 & Hl1 & Hc1).
  apply pickColor_inv in E2 as (Hp2 & Hl2 & Hc2).
  apply fillOwnColors_inv in E3
    as (p3 & p' & css & Hp3 & Hpl & Hsame & Hcol & Hcss & Hdeck & Hcols & Hl3).
  cbn [Board.setColor Board.d_players Board.d_colors Board.d_listCard] in *.
  rewrite Hp2, Hp1 in *. rewrite Hl2, Hl1 in *.
  destruct (lookup_lt_is_Some_2 _ _ Hk) as [p Hp].
  rewrite list_lookup_alter_eq, Hp in Hp3. cbn in Hp3. injection Hp3 as <-.
  destruct Hs as (Hl & Hs'). rewrite Hl in *.
  rewrite (colours_cardsFor _ _ Hcss) in Hdeck.
  split.
  - apply (served_assign 2 k d d' p p' [c1; c2]).
    + now split.
    + exact Hp.
    + exact Hl3.
    + intros i Hi. rewrite Hpl. now apply lookup_insert_alter.
    + rewrite Hpl. apply list_lookup_insert_eq. now rewrite length_alter.
    + now destruct Hsame as (_ & -> & _).
    + exact Hcol.
    + reflexivity.
    + exact Hdeck.
    + rewrite Hc1, Hc2, Hcols. reflexivity.
  - now rewrite Hpl, length_insert, length_alter.
Qed.

Lemma served_step1 (k : nat) (d d' : Board.Dist) :
  served 1 k d -> (k < length (Board.d_players d))%nat ->
  ('(color, d) ← Board.pickColor d;
   Board.fillOwnColors k (Board.setColor k [color] d)) = Some d' ->
  served 1 (S k) d' /\ length (Board.d_players d') = length (Board.d_players d).
Proof.
  intros Hs Hk.
  destruct (Board.pickColor d) as [[c1 d1]|] eqn:E1; [|discriminate]. cbn [mbind option_bind].
  intros E3.
  apply pickColor_inv in E1 as (Hp1 & Hl1 & Hc1).
  apply fillOwnColors_inv in E3
    as (p3 & p' & css & Hp3 & Hpl & Hsame & Hcol & Hcss & Hdeck & Hcols & Hl3).
  cbn [Board.setColor Board.d_players Board.d_colors Board.d_listCard] in *.
  rewrite Hp1 in *. rewrite Hl1 in *.
  destruct (lookup_lt_is_Some_2 _ _ Hk) as [p Hp].
  rewrite list_lookup_alter_eq, Hp in Hp3. cbn in Hp3. injection Hp3 as <-.
  destruct Hs as (Hl & Hs'). rewrite Hl in *.
  rewrite (colours_cardsFor _ _ Hcss) in Hdeck.
  split.
  - apply (served_assign 1 k d d' p p' [c1]).
    + now split.
    + exact Hp.
    + exact Hl3.
    + intros i Hi. rewrite Hpl. now apply lookup_insert_alter.
    + rewrite Hpl. apply list_lookup_insert_eq. now rewrite length_alter.
    + now destruct Hsame as (_ & -> & _).
    + exact Hcol.
    + reflexivity.
    + exact Hdeck.
    + rewrite Hc1, Hcols. reflexivity.
  - now rewrite Hpl, length_insert, length_alter.
Qed.

Lemma coloured_step (k : nat) (d d' : Board.Dist) :
  coloured k d -> (k < length (Board.d_players d))%nat ->
  ('(color, d) ← Board.pickColor d; Some (Board.setColor k [color] d)) = Some d' ->
  coloured (S k) d' /\ length (Board.d_players d') = length (Board.d_players d).
Proof.
  intros (Hl & Hown & Hpl) Hk.
  destruct (Board.pickColor d) as [[c1 d1]|] eqn:E1; [|discriminate]. cbn [mbind option_bind].
  intros [= <-].
  apply pickColor_inv in E1 as (Hp1 & Hl1 & Hc1).
  unfold coloured.
  cbn [Board.setColor Board.d_players Board.d_colors Board.d_listCard].
  rewrite Hp1, Hl1.
  destruct (lookup_lt_is_Some_2 _ _ Hk) as [p Hp].
  split; [|now rewrite length_alter].
  split; [exact Hl|]. split.
  - assert (Hp' : alter (Player.set_color [c1]) k (Board.d_players d) !! k
                  = Some (Player.set_color [c1] p))
      by (now rewrite list_lookup_alter_eq, Hp).
    rewrite (take_S_r _ _ _ Hp'), flat_map_app. cbn [flat_map Player.color Player.set_color].
    rewrite take_alter_ge by lia. rewrite <- Hown, Hc1, app_nil_r, <- app_assoc. reflexivity.
  - intros i q Hq. destruct (decide (i = k)) as [->|Hne].
    + rewrite list_lookup_alter_eq, Hp in Hq. cbn in Hq. injection Hq as <-.
      destruct (Hpl k p Hp) as (Hh & Hd & _). repeat split; assumption.
    + rewrite list_lookup_alter_ne in Hq by congruence.
      destruct (Hpl i q Hq) as (Hh & Hd & H1). repeat split; try assumption.
      intros Hi. apply H1. lia.
Qed.

Lemma flat_map_color_insert (l : list Player.t) (k : nat) (p p' : Player.t) :
  l !! k = Some p -> Player.color p' = Player.color p ->
  flat_map Player.color (<[k := p']> l) = flat_map Player.color l.
Proof.
  revert k. induction l as [|q l IH]; intros k Hp Hc; [reflexivity|].
  destruct k as [|k]; cbn in Hp |- *.
  - injection Hp as ->. now rewrite Hc.
  - f_equal. now apply IH.
Qed.

Lemma served3_step (lastColor : string) (k : nat) (d d' : Board.Dist) :
  served3 lastColor k d -> (k < length (Board.d_players d))%nat -> (k < 3)%nat ->
  (d ← Board.fillOwnColors k d;
   '(d, listOf6RandomCards) ←
      forEachM (fun st _ => Board.pickCard lastColor st) (seq 0 6) (d, []);
   Board.fillDeckOf k listOf6RandomCards d) = Some d' ->
  served3 lastColor (S k) d' /\ length (Board.d_players d') = length (Board.d_players d).
Proof.
  intros (Hother & (rest & Hrest & Hlen & Hnd & Hsub) & Hown & Hpl) Hk Hk3.
  destruct (Board.fillOwnColors k d) as [d1|] eqn:E1; [|discriminate]. cbn [mbind option_bind].
  destruct (forEachM _ (seq 0 6) (d1, [])) as [[d2 six]|] eqn:E2; [|discriminate].
  cbn [mbind option_bind]. intros E3.
  apply fillOwnColors_inv in E1
    as (p & p1 & css & Hp & Hpl1 & Hsame1 & Hcol1 & Hcss & Hdeck1 & Hcols1 & Hl1).
  destruct (Hpl k p Hp) as (Hhand & Hclen & _ & Hempty). specialize (Hempty (Nat.le_refl k)).
  destruct (Player.color p) as [|c [|? ?]] eqn:Ec; try discriminate.
  inversion Hcss as [|? cs ? ? Hcs Hnil]; subst. inversion Hnil; subst. clear Hcss Hnil.
  assert (Hc : c <> lastColor).
  { assert (HN : NoDup (flat_map Player.color (Board.d_players d) ++ [lastColor]))
      by (rewrite Hown; apply allColors_NoDup).
    apply NoDup_app in HN as (_ & HN & _). intros ->. apply (HN lastColor); [|now left].
    apply list_elem_of_In, in_flat_map. exists p. split; [|rewrite Ec; now left].
    apply list_elem_of_In. now apply list_elem_of_lookup_2 with k. }
  rewrite (Hother c Hc) in Hcs. apply newListCard_cardsFor in Hcs. subst cs.
  destruct (pickCards_spec lastColor 6 d1 [] rest 0 ltac:(now rewrite Hl1) ltac:(lia) Hnd)
    as (d2' & picked & cs' & E2' & Hp2 & Hc2 & Hl2 & Hperm & Hplen).
  rewrite E2' in E2. cbn [app] in E2. injection E2 as <- <-.
  apply fillDeckOf_inv in E3 as (q & p' & Hq & Hpl' & Hsame & Hcol & Hdeck & Hcols & Hl').
  assert (Hlt : (k < length (Board.d_players d))%nat) by exact Hk.
  rewrite Hp2, Hpl1, list_lookup_insert_eq in Hq by exact Hlt. injection Hq as <-.
  rewrite Hp2, Hpl1, list_insert_insert_eq in Hpl'.
  split; [|now rewrite Hpl', length_insert].
  split; [|split; [|split]].
  - intros c0 Hc0. rewrite Hl', Hl2, lookup_insert_ne by congruence. rewrite Hl1. now apply Hother.
  - exists cs'. split; [now rewrite Hl', Hl2, lookup_insert_eq|].
    split; [apply Permutation_length in Hperm; rewrite length_app in Hperm; lia|].
    split.
    + assert (HN : NoDup (map Card.id picked ++ map Card.id cs')).
      { rewrite <- map_app. now rewrite <- Hperm. }
      now apply NoDup_app in HN as (_ & _ & HN).
    + intros x Hx. apply Hsub. apply list_elem_of_In. rewrite Hperm.
      apply elem_of_app. right. now apply list_elem_of_In.
  - rewrite Hpl', (flat_map_color_insert _ k p p' Hp); [exact Hown|congruence].
  - intros i q Hq. rewrite Hpl' in Hq. destruct (decide (i = k)) as [->|Hne].
    + rewrite list_lookup_insert_eq in Hq by exact Hlt. injection Hq as <-.
      split; [destruct Hsame as (_ & -> & _); destruct Hsame1 as (_ & -> & _); exact Hhand|].
      split; [rewrite Hcol, Hcol1; reflexivity|]. split; [|lia].
      intros _. exists picked. split; [|split; [exact Hplen|]].
      * rewrite Hdeck, Hdeck1, Hempty, Hcol, Hcol1. cbn [concat flat_map app].
        reflexivity.
      * intros x Hx. apply Hsub. apply list_elem_of_In. rewrite Hperm.
        apply elem_of_app. left. now apply list_elem_of_In.
    + rewrite list_lookup_insert_ne in Hq by congruence.
      destruct (Hpl i q Hq) as (H1 & H2 & H3 & H4).
      split; [exact H1|]. split; [exact H2|]. split; intros Hi; [apply H3|apply H4]; lia.
Qed.

Lemma cardDistribution_deals (b b' : Board.t) (r r' : Rand) :
  (forall p, In p (Board.players b) -> Player.deck p = [] /\ Player.hand p = None) ->
  Board.cardDistribution b r = Some (b', r') ->
  exists d,
    b' = Board.set_players (Board.d_players d) b
    /\ length (Board.d_players d) = length (Board.players b)
    /\ (length (Board.players b) = 2%nat /\ served 2 2 d
        \/ length (Board.players b) = 3%nat /\ (exists lastColor, served3 lastColor 3 d)
        \/ (length (Board.players b) <> 2%nat /\ length (Board.players b) <> 3%nat)
           /\ served 1 (length (Board.players b)) d).
Proof.
  intros Hempty. unfold Board.cardDistribution. cbv zeta.
  set (n := length (Board.players b)).
  set (d0 := Board.mkDist (Board.players b) Board.allColors Board.newListCard r).
  assert (Hs0 : forall m, served m 0 d0).
  { intros m. split; [reflexivity|]. split; [reflexivity|].
    intros i p Hp. cbn [d0 Board.d_players] in Hp.
    apply list_elem_of_lookup_2, list_elem_of_In in Hp. destruct (Hempty p Hp) as [Hd Hh].
    split; [exact Hh|]. split; [lia|]. intros _. exact Hd. }
  unfold Board.allPlayers. fold n.
  destruct (Nat.eqb_spec n 2) as [E2|N2]; [|destruct (Nat.eqb_spec n 3) as [E3|N3]].
  - destruct (forEachM _ (seq 0 n) d0) as [d|] eqn:E; [|discriminate].
    cbn [mbind option_bind]. intros [= <- _].
    apply (forEachM_inv (fun k d => served 2 k d /\ length (Board.d_players d) = n)) in E.
    + destruct E as [Hs Hl]. exists d. split; [reflexivity|]. split; [exact Hl|].
      left. split; [exact E2|]. cbn [Nat.add] in Hs. now rewrite E2 in Hs.
    + split; [apply Hs0|reflexivity].
    + intros k s0 s1 Hk [Hs Hl] Hstep.
      destruct (served_step2 k s0 s1 Hs ltac:(lia) Hstep) as [Hs1 Hl1].
      split; [exact Hs1|congruence].
  - destruct (forEachM _ (seq 0 n) d0) as [d1|] eqn:E; [|discriminate].
    cbn [mbind option_bind].
    destruct (Board.d_colors d1 !! 0%nat) as [lastColor|] eqn:Elast; [|discriminate].
    cbn [mbind option_bind].
    destruct (forEachM _ (seq 0 n) d1) as [d|] eqn:E'; [|discriminate].
    cbn [mbind option_bind]. intros [= <- _].
    apply (forEachM_inv (fun k d => coloured k d /\ length (Board.d_players d) = n)) in E.
    2:{ split; [|reflexivity]. split; [reflexivity|]. split; [reflexivity|].
        intros i p Hp. cbn [d0 Board.d_players] in Hp.
        apply list_elem_of_lookup_2, list_elem_of_In in Hp. destruct (Hempty p Hp) as [Hd Hh].
        split; [exact Hh|]. split; [exact Hd|]. lia. }
    2:{ intros k s0 s1 Hk [Hs Hl] Hstep.
        destruct (coloured_step k s0 s1 Hs ltac:(lia) Hstep) as [Hs1 Hl1].
        split; [exact Hs1|congruence]. }
    destruct E as [(Hl1 & Hown1 & Hpl1) Hn1]. cbn [Nat.add] in Hown1, Hpl1.
    rewrite E3 in *.
    rewrite take_ge in Hown1 by lia.
    assert (Hcl : length (flat_map Player.color (Board.d_players d1)) = 3%nat).
    { clear -Hpl1 Hn1.
      destruct (Board.d_players d1) as [|p1 [|p2 [|p3 [|? ?]]]]; try discriminate.
      cbn [flat_map]. rewrite !length_app.
      destruct (Hpl1 0%nat p1 eq_refl) as (_ & _ & H1).
      destruct (Hpl1 1%nat p2 eq_refl) as (_ & _ & H2).
      destruct (Hpl1 2%nat p3 eq_refl) as (_ & _ & H3).
      rewrite H1, H2, H3 by lia. reflexivity. }
    assert (Hcols : Board.d_colors d1 = [lastColor]).
    { pose proof (Permutation_length Hown1) as HL. rewrite length_app, Hcl in HL.
      cbn in HL. destruct (Board.d_colors d1) as [|c0 [|? ?]]; try discriminate.
      cbn in Elast. now injection Elast as ->. }
    rewrite Hcols in Hown1.
    assert (Hin : In lastColor Board.allColors).
    { apply list_elem_of_In. rewrite <- Hown1. apply elem_of_app. right. now left. }
    apply (forEachM_inv (fun k d => served3 lastColor k d /\ length (Board.d_players d) = 3%nat))
      in E'.
    + destruct E' as [Hs Hl]. exists d. split; [reflexivity|]. split; [now rewrite Hl|].
      right. left. split; [reflexivity|]. exists lastColor. exact Hs.
    + split; [|exact Hn1]. split; [intros c _; now rewrite Hl1|]. split.
      * exists (cardsFor lastColor). rewrite Hl1.
        destruct (cardsFor_facts lastColor Hin) as [H18 Hnd].
        split; [apply (allColors_known lastColor Hin)|]. split; [lia|]. split; [exact Hnd|].
        now intros x Hx.
      * split; [exact Hown1|]. intros i p Hp.
        destruct (Hpl1 i p Hp) as (Hh & Hd & Hc). pose proof (lookup_lt_Some _ _ _ Hp).
        split; [exact Hh|]. split; [apply Hc; lia|]. split; [lia|]. intros _. exact Hd.
    + intros k s0 s1 Hk [Hs Hl] Hstep.
      destruct (served3_step lastColor k s0 s1 Hs ltac:(lia) ltac:(lia) Hstep) as [Hs1 Hl1'].
      split; [exact Hs1|congruence].
  - destruct (forEachM _ (seq 0 n) d0) as [d|] eqn:E; [|discriminate].
    cbn [mbind option_bind]. intros [= <- _].
    apply (forEachM_inv (fun k d => served 1 k d /\ length (Board.d_players d) = n)) in E.
    + destruct E as [Hs Hl]. exists d. split; [reflexivity|]. split; [exact Hl|].
      right. right. split; [now split|]. exact Hs.
    + split; [apply Hs0|reflexivity].
    + intros k s0 s1 Hk [Hs Hl] Hstep.
      destruct (served_step1 k s0 s1 Hs ltac:(lia) Hstep) as [Hs1 Hl1].
      split; [exact Hs1|congruence].
Qed.

(** ** A fresh board *)

Lemma fresh_distribution (b' : Board.t) :
  fresh b' ->
  exists b r r',
    Board.cardDistribution b r = Some (b', r')
    /\ Board.cards b = [] /\ Board.turn b = 0 /\ Board.winType b = WinType.None
    /\ (2 <= length (Board.players b) <= 4)%nat
    /\ forall p, In p (Board.players b) -> Player.deck p = [] /\ Player.hand p = None.
Proof.
  intros [n opts r r' b Hnew|b b1 r r' Hr Hres].
  - revert Hnew. unfold Board.new.
    destruct (Nat.ltb_spec n 2) as [|Hn2]; [discriminate|].
    destruct (Nat.ltb_spec 4 n) as [|Hn4]; [discriminate|].
    cbn [orb].
    destruct (forEachM _ _ _) as [listPlayer|] eqn:El; [|discriminate].
    apply forEachM_new_players in El as [Hl Hp]. cbn in Hl.
    specialize (Hp (fun p (H : In p []) => match H with end)).
    cbn -[Board.cardDistribution Board.randomizePlayerTurn].
    destruct (negb _).
    + unfold Board.randomizePlayerTurn. cbn -[Board.cardDistribution].
      destruct (_ =? _)%nat; [discriminate|]. cbn -[Board.cardDistribution].
      intros Hd. eexists _, _, _. split; [exact Hd|].
      cbn [Board.update_player Board.cards Board.turn Board.winType Board.players
           Board.set_players].
      rewrite length_alter.
      split; [reflexivity|]. split; [reflexivity|]. split; [reflexivity|]. split; [lia|].
      apply List.Forall_forall. apply Forall_alter; [now apply List.Forall_forall|].
      intros p _ Hq. exact Hq.
    + cbn -[Board.cardDistribution]. intros Hd. eexists _, _, _. split; [exact Hd|].
      cbn [Board.cards Board.turn Board.winType Board.players].
      split; [reflexivity|]. split; [reflexivity|]. split; [reflexivity|]. split; [lia|].
      exact Hp.
  - pose proof (reachable_conserved b Hr) as [_ Hn].
    revert Hres. unfold Board.reset. cbv zeta.
    destruct (Board.playerTurnByNbrFirstPlayer false _) as [[first b2]|] eqn:E; [|discriminate].
    cbn [mbind option_bind]. intros H.
    unfold Board.playerTurnByNbrFirstPlayer in E.
    destruct (fold_left _ _ _) as [playerWithTurn m] in E.
    destruct (_ !! playerWithTurn) in E; [|discriminate].
    cbn [mbind option_bind] in E. injection E as <- <-.
    eexists _, _, _. split; [exact H|].
    cbn [Board.update_player Board.cards Board.turn Board.winType Board.players
         Board.set_players Board.set_cards].
    rewrite !length_alter, length_map.
    split; [reflexivity|]. split; [reflexivity|]. split; [reflexivity|]. split; [lia|].
    intros p0 Hp0. apply list_elem_of_In, list_elem_of_lookup_1 in Hp0 as [i Hi].
    destruct (decide (i = playerWithTurn)) as [->|Hne];
      [rewrite !list_lookup_alter_eq in Hi|rewrite !list_lookup_alter_ne in Hi by congruence];
      rewrite list_lookup_fmap in Hi;
      (destruct (Board.players b !! _) as [q|]; [|discriminate]);
      cbn in Hi; injection Hi as <-; split; reflexivity.
Qed.

Lemma cardsFor_color (c : string) (x : Card.t) :
  In c Board.allColors -> In x (cardsFor c) -> Card.color x = c.
Proof.
  intros Hc. revert x. apply List.Forall_forall.
  destruct Hc as [<-|[<-|[<-|[<-|[]]]]];
    apply (bool_decide_unpack _); vm_compute; reflexivity.
Qed.

Lemma flat_map_cardsFor_length (colors : list string) :
  (forall c, In c colors -> In c Board.allColors) ->
  length (flat_map cardsFor colors) = (18 * length colors)%nat.
Proof.
  induction colors as [|c colors IH]; intros H; [reflexivity|].
  cbn [flat_map length]. rewrite length_app, IH by (intros c' Hc'; apply H; now right).
  destruct (cardsFor_facts c (H c (or_introl eq_refl))) as [-> _]. lia.
Qed.

Lemma served_all (m n : nat) (d : Board.Dist) :
  served m n d -> length (Board.d_players d) = n ->
  NoDup (flat_map Player.color (Board.d_players d))
  /\ forall p, In p (Board.d_players d) ->
       Player.hand p = None
       /\ length (Player.color p) = m
       /\ (forall c, In c (Player.color p) -> In c Board.allColors)
       /\ Player.deck p ≡ₚ flat_map cardsFor (Player.color p)
       /\ length (Player.deck p) = (18 * m)%nat.
Proof.
  intros (_ & Hown & Hpl) Hn. rewrite take_ge in Hown by lia.
  assert (HN : NoDup (flat_map Player.color (Board.d_players d) ++ Board.d_colors d))
    by (rewrite Hown; apply allColors_NoDup).
  split; [now apply NoDup_app in HN as (HN & _)|].
  intros p Hp.
  assert (Hsub : forall c, In c (Player.color p) -> In c Board.allColors).
  { intros c Hc. apply list_elem_of_In. rewrite <- Hown. apply elem_of_app. left.
    apply list_elem_of_In, in_flat_map. now exists p. }
  apply list_elem_of_In, list_elem_of_lookup_1 in Hp as [i Hi].
  pose proof (lookup_lt_Some _ _ _ Hi) as Hlt.
  destruct (Hpl i p Hi) as (Hh & H1 & _). destruct (H1 ltac:(lia)) as [Hm Hd].
  split; [exact Hh|]. split; [exact Hm|]. split; [exact Hsub|]. split; [exact Hd|].
  rewrite Hd, flat_map_cardsFor_length, Hm by exact Hsub. reflexivity.
Qed.

Lemma served3_all (lastColor : string) (d : Board.Dist) :
  served3 lastColor 3 d -> length (Board.d_players d) = 3%nat ->
  NoDup (flat_map Player.color (Board.d_players d))
  /\ forall p, In p (Board.d_players d) ->
       Player.hand p = None
       /\ length (Player.color p) = 1%nat
       /\ (forall c, In c (Player.color p) -> In c Board.allColors)
       /\ length (Player.deck p) = 24%nat
       /\ exists six,
            Player.deck p ≡ₚ flat_map cardsFor (Player.color p) ++ six
            /\ length six = 6%nat
            /\ forall x, In x six ->
                 ~ In (Card.color x) (flat_map Player.color (Board.d_players d)).
Proof.
  intros (_ & _ & Hown & Hpl) Hn.
  assert (HN : NoDup (flat_map Player.color (Board.d_players d) ++ [lastColor]))
    by (rewrite Hown; apply allColors_NoDup).
  assert (Hlc : In lastColor Board.allColors).
  { apply list_elem_of_In. rewrite <- Hown. apply elem_of_app. right. now left. }
  apply NoDup_app in HN as (HN1 & HN2 & _).
  split; [exact HN1|]. intros p Hp.
  assert (Hsub : forall c, In c (Player.color p) -> In c Board.allColors).
  { intros c Hc. apply list_elem_of_In. rewrite <- Hown. apply elem_of_app. left.
    apply list_elem_of_In, in_flat_map. now exists p. }
  apply list_elem_of_In, list_elem_of_lookup_1 in Hp as [i Hi].
  pose proof (lookup_lt_Some _ _ _ Hi) as Hlt.
  destruct (Hpl i p Hi) as (Hh & Hm & H1 & _).
  destruct (H1 ltac:(lia)) as (six & Hd & H6 & Hsix).
  split; [exact Hh|]. split; [exact Hm|]. split; [exact Hsub|]. split.
  - rewrite Hd, length_app, flat_map_cardsFor_length, Hm, H6 by exact Hsub. reflexivity.
  - exists six. split; [exact Hd|]. split; [exact H6|].
    intros x Hx Hin. rewrite (cardsFor_color lastColor x Hlc (Hsix x Hx)) in Hin.
    apply (HN2 lastColor); [now apply list_elem_of_In|now left].
Qed.

Lemma fresh_deal (b : Board.t) :
  fresh b ->
  let n := length (Board.players b) in
  (2 <= n <= 4)%nat
  /\ Board.cards b = [] /\ Board.turn b = 0 /\ Board.winType b = WinType.None
  /\ NoDup (flat_map Player.color (Board.players b))
  /\ forall p, In p (Board.players b) ->
       Player.hand p = None
       /\ length (Player.deck p) = (72 / n)%nat
       /\ length (Player.color p) = (if (n =? 2)%nat then 2%nat else 1%nat)
       /\ (forall c, In c (Player.color p) -> In c Board.allColors)
       /\ exists six,
            Player.deck p ≡ₚ flat_map cardsFor (Player.color p) ++ six
            /\ length six = (if (n =? 3)%nat then 6%nat else 0%nat)
            /\ forall x, In x six ->
                 ~ In (Card.color x) (flat_map Player.color (Board.players b)).
Proof.
  intros Hf. cbv zeta.
  destruct (fresh_distribution b Hf) as (b0 & r & r' & Hd & Hc & Ht & Hw & Hn & Hempty).
  destruct (cardDistribution_cards b0 b r r' Hd) as (Hc' & Ht' & Hw' & _).
  destruct (cardDistribution_deals b0 b r r' Hempty Hd) as (d & -> & Hl & Hcase).
  cbn [Board.players Board.set_players]. rewrite Hl.
  split; [exact Hn|]. split; [congruence|]. split; [congruence|]. split; [congruence|].
  destruct Hcase as [[E Hs]|[[E [lc Hs]]|[[N2 N3] Hs]]].
  - rewrite E in *. destruct (served_all 2 2 d Hs Hl) as [HN Hp]. split; [exact HN|].
    intros p Hin. destruct (Hp p Hin) as (H1 & H2 & H3 & H4 & H5).
    repeat (split; [assumption|]). exists []. rewrite app_nil_r.
    split; [exact H4|]. split; [reflexivity|]. intros x [].
  - rewrite E in *. destruct (served3_all lc d Hs Hl) as [HN Hp]. split; [exact HN|].
    intros p Hin. destruct (Hp p Hin) as (H1 & H2 & H3 & H4 & H5).
    repeat (split; [assumption|]). exact H5.
  - assert (E : length (Board.players b0) = 4%nat) by lia. rewrite E in *.
    destruct (served_all 1 4 d Hs Hl) as [HN Hp]. split; [exact HN|].
    intros p Hin. destruct (Hp p Hin) as (H1 & H2 & H3 & H4 & H5).
    repeat (split; [assumption|]). exists []. rewrite app_nil_r.
    split; [exact H4|]. split; [reflexivity|]. intros x [].
Qed.

Lemma fresh_ready (b : Board.t) :
  fresh b -> ready (72 / length (Board.players b)) b.
Proof.
  intros Hf. destruct (fresh_deal b Hf) as (Hn & Hc & _ & Hw & _ & Hp).
  split; [exact Hw|]. split; [exact Hn|]. split.
  - intros p Hin. destruct (Hp p Hin) as (Hh & Hd & _). now split.
  - rewrite Hc. cbn [length].
    assert (E : length (Board.players b) = 2%nat \/ length (Board.players b) = 3%nat
                \/ length (Board.players b) = 4%nat) by lia.
    destruct E as [->|[->| ->]]; reflexivity.
Qed.

(** X18.  On a board as the constructor or [reset] leaves it there
    are no cards, the turn is 0 and the game is open.  No colour belongs
    to two players.  Every player has an empty hand, 72 / n cards in the
    pile, two colours in a game of two and one colour otherwise; the
    pile holds exactly the 18 cards of each colour of the player and, in
    a game of three, 6 cards of the colour that nobody owns. *)
Theorem fresh_board_deal (b : Board.t) :
  fresh b ->
  let n := length (Board.players b) in
  (2 <= n <= 4)%nat
  /\ Board.cards b = [] /\ Board.turn b = 0 /\ Board.winType b = WinType.None
  /\ NoDup (flat_map Player.color (Board.players b))
  /\ forall p, In p (Board.players b) ->
       Player.hand p = None
       /\ length (Player.deck p) = (72 / n)%nat
       /\ length (Player.color p) = (if (n =? 2)%nat then 2%nat else 1%nat)
       /\ (forall c, In c (Player.color p) -> In c Board.allColors)
       /\ exists six,
            Player.deck p ≡ₚ flat_map cardsFor (Player.color p) ++ six
            /\ length six = (if (n =? 3)%nat then 6%nat else 0%nat)
            /\ forall x, In x six ->
                 ~ In (Card.color x) (flat_map Player.color (Board.players b)).
Proof. exact (fresh_deal b). Qed.

(** X15.  A game played automatically from a fresh board ends.
    Whatever the 72 random values of the script, and given more passes
    of the loop than a draw pile has cards, [playGame] with a number of
    turns that is not positive returns a finished game, after at most
    72 / n turns. *)
Theorem automatic_game_ends (b : Board.t) (script : list Board.Prompt) (fuel : nat) :
  fresh b -> (72 <= length script)%nat -> (72 / Board.nbrPlayers b < fuel)%nat ->
  exists b' rest,
    Punto.playGame (-1) fuel true b script = Some (b', rest, Board.Completed)
    /\ Board.isGameOver b' = true
    /\ 0 <= Board.turn b' <= 72 / Z.of_nat (Board.nbrPlayers b).
Proof.
  intros Hf Hs Hfuel. unfold Punto.playGame, Board.nbrPlayers in *. cbn [Z.leb Z.compare].
  pose proof (fresh_ready b Hf) as Hr.
  destruct (fresh_deal b Hf) as (Hn & _ & Ht & _).
  destruct (playUntilGameOver_ready _ b script fuel Hr) as (b' & rest & E & Ho & Hturn).
  - assert (E : length (Board.players b) = 2%nat \/ length (Board.players b) = 3%nat
                \/ length (Board.players b) = 4%nat) by lia.
    destruct E as [->|[->| ->]]; cbn; lia.
  - exact Hfuel.
  - exists b', rest. split; [exact E|]. split; [exact Ho|]. rewrite Ht in Hturn.
    assert (E' : length (Board.players b) = 2%nat \/ length (Board.players b) = 3%nat
                \/ length (Board.players b) = 4%nat) by lia.
    destruct E' as [E'|[E'|E']]; rewrite E' in Hturn |- *.
    + change (Z.of_nat (72 / 2)) with 36 in Hturn. change (72 / Z.of_nat 2) with 36. lia.
    + change (Z.of_nat (72 / 3)) with 24 in Hturn. change (72 / Z.of_nat 3) with 24. lia.
    + change (Z.of_nat (72 / 4)) with 18 in Hturn. change (72 / Z.of_nat 4) with 18. lia.
Qed.

(** ** The players *)

Lemma shuffleFrom_rand {A} (i : nat) (a : list A) (r : Rand) :
  (Player.shuffleFrom i a r).2 = drop i r.
Proof.
  revert a r. induction i as [|i IH]; intros a r; [reflexivity|].
  cbn [Player.shuffleFrom]. unfold nextRandom. rewrite IH.
  destruct r; cbn [tail]; [now rewrite drop_nil|reflexivity].
Qed.

(** X19.  [fillDeck] changes nothing of the player but the pile,
    which becomes a permutation of the old pile and the cards given,
    and it takes one random draw for each card of the new pile but the
    first. *)
Theorem fillDeck_shuffles (cards : list Card.t) (p : Player.t) (r : Rand) :
  Player.deck (Player.fillDeck cards p r).1 ≡ₚ Player.deck p ++ cards
  /\ Player.set_deck (Player.deck p) (Player.fillDeck cards p r).1 = p
  /\ (Player.fillDeck cards p r).2 = drop (length (Player.deck p ++ cards) - 1) r.
Proof.
  unfold Player.fillDeck, Player.shuffleDeck. cbn [Player.deck Player.set_deck].
  pose proof (shuffleFrom_Permutation (length (Player.deck p ++ cards) - 1)
                (Player.deck p ++ cards) r) as HP.
  pose proof (shuffleFrom_rand (length (Player.deck p ++ cards) - 1)
                (Player.deck p ++ cards) r) as HR.
  destruct (Player.shuffleFrom _ _ _) as [d r']. cbn [fst snd] in *.
  split; [exact HP|]. split; [now destruct p|exact HR].
Qed.

(** X20.  When the board has players and its winners are
    players of the board, [randomizePlayerTurn] takes one random draw
    and raises the turn flag of one player, changing nothing else.
    Asked for a winner when there are winners, it chooses one of
    them. *)
Theorem randomizePlayerTurn_marks (onlyWinners : bool) (b : Board.t) (r : Rand) :
  Board.players b <> [] ->
  (forall w, In w (Board.winners b) -> (w < length (Board.players b))%nat) ->
  exists player,
    Board.randomizePlayerTurn onlyWinners b r
    = Some (Board.update_player player (Player.set_isTurn true) b, tl r)
    /\ (player < length (Board.players b))%nat
    /\ (onlyWinners = true -> Board.winners b <> [] -> In player (Board.winners b)).
Proof.
  intros Hne Hw. unfold Board.randomizePlayerTurn. cbv zeta.
  destruct (onlyWinners && (0 <? length (Board.winners b))%nat) eqn:E.
  - apply andb_true_iff in E as [-> E]. apply Nat.ltb_lt in E.
    pose proof (Nat.mod_upper_bound (hd 0%nat r mod 1000)%nat (length (Board.winners b))
                  ltac:(lia)) as Hlt.
    destruct (lookup_lt_is_Some_2 _ _ Hlt) as [w Hwl]. rewrite Hwl.
    cbn [mbind option_bind]. exists w.
    assert (Hin : In w (Board.winners b)).
    { apply list_elem_of_In. now apply list_elem_of_lookup_2 with (hd 0%nat r mod 1000 mod length (Board.winners b))%nat. }
    split; [reflexivity|]. split; [now apply Hw|]. intros _ _. exact Hin.
  - destruct (Nat.eqb_spec (length (Board.players b)) 0) as [E0|N0].
    { destruct (Board.players b); [congruence|discriminate]. }
    cbn [mbind option_bind]. eexists. split; [reflexivity|].
    split; [apply Nat.mod_upper_bound; lia|].
    intros -> Hwn. cbn [andb] in E. apply Nat.ltb_ge in E.
    destruct (Board.winners b); [congruence|cbn in E; lia].
Qed.

Lemma turnStep_fold (byMax : bool) (l : list Player.t) (a i : nat) (v : Z) :
  exists j w,
    fold_left (Board.turnStep byMax) (combine (seq a (length l)) l) (i, Some v) = (j, Some w)
    /\ atLeastAsGood byMax w v
    /\ (forall q, In q l -> atLeastAsGood byMax w (Player.nbrFirstPlayer q))
    /\ ((j = i /\ w = v)
        \/ (exists m q,
              l !! m = Some q /\ j = (a + m)%nat /\ Player.nbrFirstPlayer q = w /\ w <> v
              /\ forall m' q', (m' < m)%nat -> l !! m' = Some q' ->
                               Player.nbrFirstPlayer q' <> w)).
Proof.
  revert a i v. induction l as [|x l IH]; intros a i v.
  - exists i, v. cbn. split; [reflexivity|]. split; [destruct byMax; cbn; lia|].
    split; [intros q []|]. now left.
  - cbn [length seq combine fold_left]. unfold Board.turnStep at 2.
    destruct (if byMax then Player.nbrFirstPlayer x >? v else Player.nbrFirstPlayer x <? v)
      eqn:Eb.
    + destruct (IH (S a) a (Player.nbrFirstPlayer x)) as (j & w & E & Hwv & Hall & Hcase).
      assert (Hstrict : atLeastAsGood byMax (Player.nbrFirstPlayer x) v
                        /\ Player.nbrFirstPlayer x <> v).
      { destruct byMax; cbn; [apply Z.gtb_lt in Eb|apply Z.ltb_lt in Eb]; lia. }
      exists j, w. split; [exact E|]. split; [destruct byMax; cbn in *; lia|].
      split; [intros q [<-|Hq]; [exact Hwv|now apply Hall]|].
      right. destruct Hcase as [[-> ->]|(m & q & Hm & -> & Hq & Hne & Hfirst)].
      * exists 0%nat, x. split; [reflexivity|]. split; [lia|]. split; [reflexivity|].
        split; [apply Hstrict|]. intros m' q' Hm'. lia.
      * exists (S m), q. split; [exact Hm|]. split; [lia|]. split; [exact Hq|].
        split; [destruct byMax; cbn in *; lia|].
        intros [|m'] q' Hm' Hq'; cbn in Hq'.
        -- injection Hq' as <-. congruence.
        -- apply (Hfirst m' q'); [lia|exact Hq'].
    + destruct (IH (S a) i v) as (j & w & E & Hwv & Hall & Hcase).
      assert (Hnot : atLeastAsGood byMax v (Player.nbrFirstPlayer x)).
      { destruct byMax; cbn; [rewrite Z.gtb_ltb in Eb|]; apply Z.ltb_ge in Eb; lia. }
      exists j, w. split; [exact E|]. split; [exact Hwv|].
      split; [intros q [<-|Hq]; [destruct byMax; cbn in *; lia|now apply Hall]|].
      destruct Hcase as [[-> ->]|(m & q & Hm & -> & Hq & Hne & Hfirst)]; [now left|].
      right. exists (S m), q. split; [exact Hm|]. split; [lia|]. split; [exact Hq|].
      split; [exact Hne|].
      intros [|m'] q' Hm' Hq'; cbn in Hq'.
      * injection Hq' as <-. destruct byMax; cbn in *; lia.
      * apply (Hfirst m' q'); [lia|exact Hq'].
Qed.

(** X21.  On a board with players
    [playerTurnByNbrFirstPlayer] raises the turn flag of one player and
    changes nothing else: the first player of the list among those who
    began the fewest games or, asked so, the most. *)
Theorem playerTurnByNbrFirstPlayer_first (byMax : bool) (b : Board.t) :
  Board.players b <> [] ->
  exists first pf,
    Board.playerTurnByNbrFirstPlayer byMax b
      = Some (first, Board.update_player first (Player.set_isTurn true) b)
    /\ Board.players b !! first = Some pf
    /\ (forall q, In q (Board.players b) ->
          atLeastAsGood byMax (Player.nbrFirstPlayer pf) (Player.nbrFirstPlayer q))
    /\ (forall i q, (i < first)%nat -> Board.players b !! i = Some q ->
          Player.nbrFirstPlayer q <> Player.nbrFirstPlayer pf).
Proof.
  intros Hne. unfold Board.playerTurnByNbrFirstPlayer.
  destruct (Board.players b) as [|p0 l] eqn:Ep; [congruence|].
  cbn [length seq combine fold_left]. unfold Board.turnStep at 2.
  destruct (turnStep_fold byMax l 1 0 (Player.nbrFirstPlayer p0))
    as (j & w & E & Hwv & Hall & Hcase).
  rewrite E.
  destruct Hcase as [[-> ->]|(m & q & Hm & -> & Hq & Hn & Hfirst)].
  - cbn [lookup list_lookup mbind option_bind]. exists 0%nat, p0.
    split; [reflexivity|]. split; [reflexivity|]. split.
    + intros q [<-|Hq]; [destruct byMax; cbn; lia|now apply Hall].
    + intros i q Hi. lia.
  - change ((p0 :: l) !! (1 + m)%nat) with (l !! m). rewrite Hm.
    cbn [mbind option_bind]. exists (1 + m)%nat, q.
    split; [reflexivity|]. split; [exact Hm|]. split.
    + rewrite Hq. intros q' [<-|Hq']; [exact Hwv|now apply Hall].
    + rewrite Hq. intros [|i] q' Hi Hq'; cbn in Hq'.
      * injection Hq' as <-. congruence.
      * apply (Hfirst i q'); [lia|exact Hq'].
Qed.

(** ** Construction *)

Lemma forEachM_players_total (opts : list PlayerOptions) (n a : nat) (acc : list Player.t) :
  (a + n <= length opts)%nat ->
  forEachM (fun listPlayer i =>
              currentPlayerOptions ← opts !! i;
              Some (listPlayer ++ [Player.new currentPlayerOptions]))
           (seq a n) acc
  = Some (acc ++ map Player.new (take n (drop a opts))).
Proof.
  revert a acc. induction n as [|n IH]; intros a acc Hn; cbn [seq forEachM].
  - now rewrite take_0, app_nil_r.
  - destruct (lookup_lt_is_Some_2 opts a ltac:(lia)) as [o Ho]. rewrite Ho.
    cbn [mbind option_bind]. rewrite IH by lia.
    rewrite (drop_S _ _ _ Ho). cbn [take map]. now rewrite <- app_assoc.
Qed.

Lemma forEachM_players_fail (opts : list PlayerOptions) (n a : nat) (acc : list Player.t) :
  (a <= length opts < a + n)%nat ->
  forEachM (fun listPlayer i =>
              currentPlayerOptions ← opts !! i;
              Some (listPlayer ++ [Player.new currentPlayerOptions]))
           (seq a n) acc
  = None.
Proof.
  revert a acc. induction n as [|n IH]; intros a acc Hn; cbn [seq forEachM]; [lia|].
  destruct (opts !! a) as [o|] eqn:Ho; [|reflexivity].
  cbn [mbind option_bind]. apply IH. apply lookup_lt_Some in Ho. lia.
Qed.

Lemma new_total (n : nat) (opts : list PlayerOptions) (r : Rand) :
  is_Some (Board.new n opts r) <-> (2 <= n <= 4)%nat /\ (n <= length opts)%nat.
Proof.
  unfold Board.new.
  destruct (Nat.ltb_spec n 2) as [|Hn2]; [split; [intros [? [=]]|lia]|].
  destruct (Nat.ltb_spec 4 n) as [|Hn4]; [split; [intros [? [=]]|lia]|].
  cbn [orb].
  destruct (le_lt_dec n (length opts)) as [Hl|Hl].
  2:{ rewrite forEachM_players_fail by (cbn; lia). cbn. split; [intros [? [=]]|lia]. }
  rewrite forEachM_players_total by (cbn; lia). change (drop 0 opts) with opts.
  cbn [app mbind option_bind].
  split; [intros _; lia|intros _].
  set (ps := map Player.new (take n opts)).
  assert (Hps : length ps = n) by (unfold ps; rewrite length_map, length_take; lia).
  destruct (negb _).
  - unfold Board.randomizePlayerTurn. cbn [andb Board.players Board.winners].
    fold ps. rewrite Hps. destruct (Nat.eqb_spec n 0); [lia|]. cbn [mbind option_bind].
    match goal with
    | |- is_Some (Board.cardDistribution ?b0 ?r0) =>
      destruct (cardDistribution_spec b0 r0) as (ps' & r' & -> & _)
    end; [|eexists; reflexivity].
    cbn. rewrite length_alter. lia.
  - cbn [mbind option_bind].
    match goal with
    | |- is_Some (Board.cardDistribution ?b0 ?r0) =>
      destruct (cardDistribution_spec b0 r0) as (ps' & r' & -> & _)
    end; [|eexists; reflexivity].
    cbn. lia.
Qed.

Lemma sameButDeck_maps (l l' : list Player.t) :
  Forall2 sameButDeck l l' ->
  map Player.name l' = map Player.name l
  /\ map Player.points l' = map Player.points l
  /\ map Player.isTurn l' = map Player.isTurn l.
Proof.
  induction 1 as [|p p' l l' (H1 & _ & H3 & H4 & _) _ (IH1 & IH2 & IH3)]; [repeat split|].
  cbn [map]. now rewrite H1, H3, H4, IH1, IH2, IH3.
Qed.

Lemma getPlayerTurn_Some (b : Board.t) :
  In true (map Player.isTurn (Board.players b)) -> Board.getPlayerTurn b <> None.
Proof.
  intros H. unfold Board.getPlayerTurn.
  destruct (list_find _ _) as [[i p]|] eqn:E; [discriminate|].
  apply list_find_None in E. apply in_map_iff in H as (p & Hp & Hin).
  rewrite Forall_forall in E. exfalso. apply (E p); [now apply list_elem_of_In|exact Hp].
Qed.

Lemma map_alter_same {A B} (g : A -> B) (f : A -> A) (i : nat) (l : list A) :
  (forall p, g (f p) = g p) -> map g (alter f i l) = map g l.
Proof.
  intros Hf. revert i. induction l as [|p l IH]; intros i; [reflexivity|].
  destruct i as [|i]; cbn [alter list_alter map]; [now rewrite Hf|]. f_equal. apply IH.
Qed.

Lemma In_isTurn_alter (l : list Player.t) (i : nat) :
  (i < length l)%nat -> In true (map Player.isTurn (alter (Player.set_isTurn true) i l)).
Proof.
  intros Hi. destruct (lookup_lt_is_Some_2 _ _ Hi) as [p Hp].
  apply in_map_iff. exists (Player.set_isTurn true p). split; [reflexivity|].
  apply list_elem_of_In. apply list_elem_of_lookup_2 with i.
  now rewrite list_lookup_alter_eq, Hp.
Qed.

(** X16.  [new Board(n, options)] succeeds exactly when [n] is from
    2 to 4 and at least [n] options are given.  The board then has the
    names and the points of the first [n] options, a player whose turn
    it is, and neither winners nor losers. *)
Theorem new_board (n : nat) (opts : list PlayerOptions) (r : Rand) :
  (is_Some (Board.new n opts r) <-> (2 <= n <= 4)%nat /\ (n <= length opts)%nat)
  /\ forall b r',
       Board.new n opts r = Some (b, r') ->
       map Player.name (Board.players b) = map opt_name (take n opts)
       /\ map Player.points (Board.players b)
          = map (fun o => default 0 (opt_points o)) (take n opts)
       /\ Board.getPlayerTurn b <> None
       /\ Board.winners b = [] /\ Board.losers b = [].
Proof.
  split; [apply new_total|].
  intros b r' Hnew.
  assert (Hn : (2 <= n <= 4)%nat /\ (n <= length opts)%nat)
    by (apply (new_total n opts r); rewrite Hnew; eexists; reflexivity).
  revert Hnew. unfold Board.new.
  destruct (Nat.ltb_spec n 2) as [|_]; [lia|]. destruct (Nat.ltb_spec 4 n) as [|_]; [lia|].
  cbn [orb]. rewrite forEachM_players_total by (cbn; lia). change (drop 0 opts) with opts.
  cbn [app mbind option_bind].
  set (ps := map Player.new (take n opts)).
  assert (Hps : length ps = n) by (unfold ps; rewrite length_map, length_take; lia).
  assert (Hnames : map Player.name ps = map opt_name (take n opts)
                   /\ map Player.points ps
                      = map (fun o => default 0 (opt_points o)) (take n opts)
                   /\ map Player.isTurn ps
                      = map (fun o => default false (opt_isTurn o)) (take n opts)).
  { unfold ps. rewrite !map_map. repeat split. }
  destruct Hnames as (Hnm & Hpt & Htn).
  destruct (negb _) eqn:Eturn.
  - unfold Board.randomizePlayerTurn. cbn [andb Board.players Board.winners].
    rewrite Hps. destruct (Nat.eqb_spec n 0); [lia|]. cbn [mbind option_bind].
    set (i := ((hd 0%nat r mod 1000) mod n)%nat).
    assert (Hi : (i < n)%nat) by (apply Nat.mod_upper_bound; lia).
    intros Hd.
    destruct (cardDistribution_cards _ _ _ _ Hd) as (_ & _ & _ & Hw & Hl).
    match type of Hd with
    | Board.cardDistribution ?b0 ?r0 = _ =>
      destruct (cardDistribution_spec b0 r0) as (ps' & r'' & E & Hsame & _);
        [cbn; rewrite length_alter; lia|]
    end.
    rewrite E in Hd. injection Hd as <- <-.
    cbn [Board.players Board.set_players Board.update_player] in Hsame |- *.
    destruct (sameButDeck_maps _ _ Hsame) as (H1 & H2 & H3).
    rewrite H1, H2.
    split; [|split; [|split; [|split; [exact Hw|exact Hl]]]].
    + rewrite <- Hnm. now apply map_alter_same.
    + rewrite <- Hpt. now apply map_alter_same.
    + apply getPlayerTurn_Some. cbn [Board.players Board.set_players]. rewrite H3.
      apply In_isTurn_alter. lia.
  - cbn [mbind option_bind]. intros Hd.
    destruct (cardDistribution_cards _ _ _ _ Hd) as (_ & _ & _ & Hw & Hl).
    match type of Hd with
    | Board.cardDistribution ?b0 ?r0 = _ =>
      destruct (cardDistribution_spec b0 r0) as (ps' & r'' & E & Hsame & _);
        [cbn; lia|]
    end.
    rewrite E in Hd. injection Hd as <- <-.
    cbn [Board.players Board.set_players] in Hsame |- *.
    destruct (sameButDeck_maps _ _ Hsame) as (H1 & H2 & H3).
    rewrite H1, H2.
    split; [exact Hnm|]. split; [exact Hpt|]. split; [|split; [exact Hw|exact Hl]].
    apply getPlayerTurn_Some. cbn [Board.players Board.set_players]. rewrite H3, Htn.
    apply negb_false_iff, existsb_exists in Eturn as (o & Ho & Et).
    apply in_map_iff. exists o. split; [exact Et|]. change (drop 0 opts) with opts in Ho.
    exact Ho.
Qed.

(** X17.  [Board.build] succeeds exactly when 2 to 4 players are
    given, and the board it returns holds exactly the cards, players,
    turn, outcome, winners and losers given: nothing of what the
    constructor dealt or drew is left in it. *)
Theorem build_board (cards : list Card.t) (players : list Player.t) (turn : Z)
    (winType : WinType.t) (winners losers : list nat) (r : Rand) :
  (is_Some (Board.build cards players turn winType winners losers r)
   <-> (2 <= length players <= 4)%nat)
  /\ forall b r',
       Board.build cards players turn winType winners losers r = Some (b, r') ->
       b = Board.mk cards players turn winType winners losers.
Proof.
  unfold Board.build.
  set (opts := map _ players).
  assert (Hl : length opts = length players) by (unfold opts; now rewrite length_map).
  pose proof (new_total (length players) opts r) as Hnew. rewrite Hl in Hnew.
  destruct (Board.new (length players) opts r) as [[b0 r0]|]; cbn [mbind option_bind].
  - split.
    + split; [intros _; apply Hnew; eexists; reflexivity|intros _; eexists; reflexivity].
    + now intros b r' [= <- _].
  - split.
    + split; [intros [? [=]]|]. intros H. destruct Hnew as [_ Hnew].
      destruct Hnew as [? [=]]. lia.
    + intros b r' [=].
Qed.

(** X22.  [checkVictory] returns as losers the players who are
    not among the winners, and one of three outcomes: a win, with a
    winner; a draw, with no winner and every player a loser, and only
    when the game is blocked; or no outcome, with no winner, and only
    when the game is not blocked. *)
Theorem checkVictory_outcomes (b : Board.t) :
  let '(winType, winners, losers) := Board.checkVictory b in
  losers = Board.notAmong winners (Board.allPlayers b)
  /\ (winType = WinType.Win /\ winners <> []
      \/ winType = WinType.Draw /\ winners = [] /\ losers = Board.allPlayers b
         /\ Board.isGameBlocked b = true
      \/ winType = WinType.None /\ winners = [] /\ losers = Board.allPlayers b
         /\ Board.isGameBlocked b = false).
Proof.
  unfold Board.checkVictory. cbv zeta. fold (Board.allPlayers b).
  destruct (if (Board.nbrPlayers b =? 2)%nat then _ else _) as [w|];
    cbn [app length Nat.ltb Nat.leb].
  - split; [reflexivity|]. left. split; [reflexivity|discriminate].
  - destruct (Board.isGameBlocked b).
    + destruct (Board.determineWinnerForBlockedGame b) as [|w ws]; cbn [length Nat.eqb].
      * split; [reflexivity|]. right. left. rewrite notAmong_nil. repeat split.
      * split; [reflexivity|]. left. split; [reflexivity|discriminate].
    + split; [now rewrite notAmong_nil|]. right. right. repeat split.
Qed.

(** ** The series of aligned cards *)

Lemma addToGroup_In (key : Card.t -> Z) (card : Card.t) (g : Board.Groups)
    (k : Z) (grp : list Card.t) :
  In (k, grp) (Board.addToGroup (key card) card g) ->
  (k = key card
   /\ exists old,
        (In (k, old) g \/ old = [])
        /\ grp = List.filter (fun c => negb (Board.sameCell (Card.x card) (Card.y card) c)) old
                 ++ [card])
  \/ (k <> key card /\ In (k, grp) g).
Proof.
  unfold Board.addToGroup. cbv zeta. intros H.
  apply in_map_iff in H as ([k0 old] & E & Hin). cbn [fst snd] in E.
  destruct (Z.eqb_spec k0 (key card)) as [->|Hne].
  - injection E as <- <-. left. split; [reflexivity|]. exists old. split; [|reflexivity].
    destruct (existsb _ g); [now left|].
    apply in_app_iff in Hin as [Hin|[[= <-]|[]]]; [now left|now right].
  - injection E as <- <-. right. split; [exact Hne|].
    destruct (existsb _ g); [exact Hin|].
    apply in_app_iff in Hin as [Hin|[[= <- _]|[]]]; [exact Hin|congruence].
Qed.

Lemma sameCell_sym (c d : Card.t) :
  Board.sameCell (Card.x c) (Card.y c) d = Board.sameCell (Card.x d) (Card.y d) c.
Proof. unfold Board.sameCell. now rewrite (Z.eqb_sym (Card.x d)), (Z.eqb_sym (Card.y d)). Qed.

Lemma visible_snoc (cs : list Card.t) (c card : Card.t) :
  visible cs c -> Board.sameCell (Card.x c) (Card.y c) card = false ->
  visible (cs ++ [card]) c.
Proof.
  intros (l1 & l2 & -> & H) Hc. exists l1, (l2 ++ [card]).
  split; [now rewrite <- app_assoc|].
  intros d Hd. apply in_app_iff in Hd as [Hd|[<-|[]]]; [now apply H|exact Hc].
Qed.

Lemma groupBy_In (key : Card.t -> Z) (cs : list Card.t) :
  (forall c d, Board.sameCell (Card.x c) (Card.y c) d = true -> key d = key c) ->
  forall k grp c,
    In (k, grp) (Board.groupBy key cs) -> In c grp -> key c = k /\ visible cs c.
Proof.
  intros Hkey. unfold Board.groupBy.
  assert (H : forall done g,
             (forall k grp c, In (k, grp) g -> In c grp -> key c = k /\ visible done c) ->
             forall k grp c,
               In (k, grp) (fold_left (fun g card => Board.addToGroup (key card) card g) cs g) ->
               In c grp -> key c = k /\ visible (done ++ cs) c).
  { induction cs as [|card cs IH]; intros done g Hg k grp c Hin Hc.
    - rewrite app_nil_r. now apply (Hg k grp).
    - cbn [fold_left] in Hin.
      replace (done ++ card :: cs) with ((done ++ [card]) ++ cs) by (now rewrite <- app_assoc).
      apply (IH (done ++ [card]) (Board.addToGroup (key card) card g)) with grp;
        [|exact Hin|exact Hc].
      clear k grp c Hin Hc. intros k grp c Hin Hc.
      apply addToGroup_In in Hin as [[-> (old & Hold & ->)]|[Hne Hin]].
      + apply in_app_iff in Hc as [Hc|[<-|[]]].
        * apply filter_In in Hc as [Hc Hs]. apply negb_true_iff in Hs.
          destruct Hold as [Hold| ->]; [|destruct Hc].
          destruct (Hg _ _ _ Hold Hc) as [Hk Hv]. split; [exact Hk|].
          apply visible_snoc; [exact Hv|]. now rewrite sameCell_sym.
        * split; [reflexivity|]. exists done, []. split; [reflexivity|intros d []].
      + destruct (Hg _ _ _ Hin Hc) as [Hk Hv]. split; [exact Hk|].
        apply visible_snoc; [exact Hv|].
        destruct (Board.sameCell (Card.x c) (Card.y c) card) eqn:E; [|reflexivity].
        apply Hkey in E. congruence. }
  intros k grp c Hin Hc. apply (H [] [] ltac:(intros ? ? ? []) k grp c Hin Hc).
Qed.

Lemma insertBy_In {A} (key : A -> Z) (a x : A) (l : list A) :
  In x (Board.insertBy key a l) <-> x = a \/ In x l.
Proof.
  induction l as [|b l IH]; cbn [Board.insertBy]; [cbn; intuition congruence|].
  destruct (key a <? key b); cbn [In]; [intuition congruence|]. rewrite IH.
  intuition congruence.
Qed.

Lemma sortBy_In {A} (key : A -> Z) (x : A) (l : list A) :
  In x (Board.sortBy key l) <-> In x l.
Proof.
  unfold Board.sortBy.
  assert (H : forall acc, In x (fold_left (fun acc a => Board.insertBy key a acc) l acc)
                          <-> In x l \/ In x acc).
  { induction l as [|a l IH]; intros acc; cbn [fold_left In]; [tauto|].
    rewrite IH, insertBy_In. intuition congruence. }
  rewrite H. cbn. tauto.
Qed.

Lemma forIn_In (g : Board.Groups) (grp : list Card.t) :
  In grp (Board.forIn g) -> exists k, In (k, grp) g.
Proof.
  unfold Board.forIn. intros H. apply in_map_iff in H as ([k grp'] & <- & Hin).
  exists k. cbn [snd]. apply in_app_iff in Hin as [Hin|Hin].
  - apply sortBy_In, filter_In in Hin. tauto.
  - apply filter_In in Hin. tauto.
Qed.

Lemma lines_In (key coord : Card.t -> Z) (cs line : list Card.t) :
  (forall c d, Board.sameCell (Card.x c) (Card.y c) d = true -> key d = key c) ->
  In line (Board.forIn (map (fun kv => (fst kv, Board.sortBy coord (snd kv)))
                            (Board.groupBy key cs))) ->
  exists k, forall c, In c line -> key c = k /\ visible cs c.
Proof.
  intros Hkey H. apply forIn_In in H as [k H].
  apply in_map_iff in H as ([k0 grp] & E & Hin). cbn [fst snd] in E. injection E as <- <-.
  exists k0. intros c Hc. apply sortBy_In in Hc. now apply (groupBy_In key cs Hkey k0 grp).
Qed.

Lemma chain_nil (step : Card.t -> Card.t -> Prop) : chain step [].
Proof. intros i c c' H. discriminate. Qed.

Lemma chain_one (step : Card.t -> Card.t -> Prop) (c : Card.t) : chain step [c].
Proof. intros [|i] c0 c' H H'; cbn in H'; discriminate. Qed.

Lemma chain_snoc (step : Card.t -> Card.t -> Prop) (s : list Card.t) (prev card : Card.t) :
  chain step s -> s !! (length s - 1)%nat = Some prev -> step prev card ->
  chain step (s ++ [card]).
Proof.
  intros Hs Hprev Hstep i c c' Hi Hi'.
  pose proof (lookup_lt_Some _ _ _ Hprev) as Hlen.
  apply lookup_snoc_inv in Hi' as [[Hlt Hi']|[E ->]].
  - rewrite lookup_app_l in Hi by lia. now apply (Hs i).
  - rewrite lookup_app_l in Hi by lia.
    replace i with (length s - 1)%nat in Hi by lia. rewrite Hprev in Hi.
    now injection Hi as <-.
Qed.

Lemma scanLine_sound (coord : Card.t -> Z) (len : Z) (cs s : list Card.t) :
  In s (Board.scanLine coord len cs) ->
  len <= Z.of_nat (length s)
  /\ (forall c, In c s -> In c cs)
  /\ chain (fun c c' => coord c' = coord c + 1 /\ Card.color c' = Card.color c) s.
Proof.
  unfold Board.scanLine.
  set (step := fun c c' : Card.t => coord c' = coord c + 1 /\ Card.color c' = Card.color c).
  set (good := fun s : list Card.t =>
                 len <= Z.of_nat (length s) /\ (forall c, In c s -> In c cs) /\ chain step s).
  assert (H : forall l st,
             (forall c, In c l -> In c cs) ->
             (let '(series, counter, out) := st in
              counter = length series /\ (forall c, In c series -> In c cs)
              /\ chain step series /\ forall s1, In s1 out -> good s1) ->
             forall s1, In s1 (fold_left (Board.lineStep coord len) l st).2 -> good s1).
  { induction l as [|card l IH]; intros [[series counter] out] Hl Hst.
    - cbn. now destruct Hst as (_ & _ & _ & Hout).
    - cbn [fold_left]. apply IH; [intros c Hc; apply Hl; now right|].
      destruct Hst as (Hcount & Hsub & Hchain & Hout).
      assert (Hcard : In card cs) by (apply Hl; now left).
      unfold Board.lineStep.
      destruct (Nat.eqb_spec (length series) 0) as [E0|N0].
      + destruct series; [|discriminate]. cbn [app length].
        split; [reflexivity|]. split; [intros c [<-|[]]; exact Hcard|].
        split; [apply chain_one|exact Hout].
      + destruct (series !! (counter - 1)%nat) as [prev|] eqn:Hprev;
          [|split; [exact Hcount|]; split; [exact Hsub|]; split; [exact Hchain|exact Hout]].
        destruct ((coord card =? coord prev + 1)
                  && String.eqb (Card.color card) (Card.color prev)) eqn:Em.
        * apply andb_true_iff in Em as [E1 E2]. apply Z.eqb_eq in E1.
          apply String.eqb_eq in E2.
          assert (Hsub' : forall c, In c (series ++ [card]) -> In c cs).
          { intros c Hc. apply in_app_iff in Hc as [Hc|[<-|[]]]; [now apply Hsub|exact Hcard]. }
          assert (Hchain' : chain step (series ++ [card])).
          { apply chain_snoc with prev; [exact Hchain|now rewrite <- Hcount|now split]. }
          destruct (Z.of_nat (length (series ++ [card])) >=? len) eqn:Eg.
          -- split; [reflexivity|]. split; [intros c []|]. split; [apply chain_nil|].
             intros s1 Hs. apply in_app_iff in Hs as [Hs|[<-|[]]]; [now apply Hout|].
             split; [rewrite Z.geb_leb in Eg; now apply Z.leb_le in Eg|]. now split.
          -- split; [rewrite length_app; cbn; lia|].
             split; [exact Hsub'|]. split; [exact Hchain'|exact Hout].
        * split; [reflexivity|]. split; [intros c [<-|[]]; exact Hcard|].
          split; [apply chain_one|].
          destruct (Z.of_nat (length series) >=? len) eqn:Eg; [|exact Hout].
          intros s1 Hs. apply in_app_iff in Hs as [Hs|[<-|[]]]; [now apply Hout|].
          split; [rewrite Z.geb_leb in Eg; now apply Z.leb_le in Eg|]. now split. }
  intros Hin. apply (H cs ([], 0%nat, [])); [auto| |exact Hin].
  split; [reflexivity|]. split; [intros c []|]. split; [apply chain_nil|intros s0 []].
Qed.

Lemma sameRef_eq (a b : option nat) : Board.sameRef a b = true -> a = b.
Proof.
  destruct a as [i|], b as [j|]; cbn; try discriminate; [|reflexivity].
  intros H. apply Nat.eqb_eq in H. now subst.
Qed.

Lemma findSeriesInDiagonal_sound (cs s : list Card.t) (len : Z) (isLeftToRight : bool) :
  In s (Board.findSeriesInDiagonal cs len isLeftToRight) ->
  len <= Z.of_nat (length s)
  /\ (forall c, In c s -> In c cs)
  /\ chain (fun c c' => Board.isNextInDiagonal c c' isLeftToRight = true) s
  /\ (forall c0 c, head s = Some c0 -> In c s ->
        Card.color c = Card.color c0 /\ Card.playedBy c = Card.playedBy c0).
Proof.
  unfold Board.findSeriesInDiagonal.
  set (step := fun c c' : Card.t => Board.isNextInDiagonal c c' isLeftToRight = true).
  set (tgood := fun s : list Card.t =>
                  (forall c, In c s -> In c cs) /\ chain step s
                  /\ (forall c0 c, head s = Some c0 -> In c s ->
                        Card.color c = Card.color c0 /\ Card.playedBy c = Card.playedBy c0)).
  assert (Hone : forall card, In card cs -> tgood [card]).
  { intros card Hcard. split; [intros c [<-|[]]; exact Hcard|]. split; [apply chain_one|].
    intros c0 c [= <-] [<-|[]]. now split. }
  assert (H : forall l st,
             (forall c, In c l -> In c cs) ->
             (tgood st.1 /\ forall s1, In s1 st.2 -> len <= Z.of_nat (length s1) /\ tgood s1) ->
             let st' := fold_left (Board.diagonalStep len isLeftToRight) l st in
             tgood st'.1 /\ forall s1, In s1 st'.2 -> len <= Z.of_nat (length s1) /\ tgood s1).
  { induction l as [|card l IH]; intros [temp series] Hl Hst; [exact Hst|].
    cbn [fold_left]. apply IH; [intros c Hc; apply Hl; now right|].
    destruct Hst as [(Hsub & Hchain & Huni) Hout]. cbn [fst snd] in *.
    assert (Hcard : In card cs) by (apply Hl; now left).
    assert (Htemp : tgood temp) by (split; [exact Hsub|split; [exact Hchain|exact Huni]]).
    unfold Board.diagonalStep.
    destruct (Nat.eqb_spec (length temp) 0) as [E0|N0].
    - destruct temp; [|discriminate]. cbn [orb app fst snd]. split; [now apply Hone|exact Hout].
    - cbn [orb].
      destruct (last temp) as [lastCard|] eqn:Elast; [|cbn [fst snd]].
      2:{ split; [now apply Hone|].
          destruct (Z.of_nat (length temp) >=? len) eqn:Eg; [|exact Hout].
          intros s1 Hs. apply in_app_iff in Hs as [Hs|[<-|[]]]; [now apply Hout|].
          split; [rewrite Z.geb_leb in Eg; now apply Z.leb_le in Eg|exact Htemp]. }
      destruct (head temp) as [firstCard|] eqn:Ehead; [|cbn [fst snd]].
      2:{ split; [now apply Hone|].
          destruct (Z.of_nat (length temp) >=? len) eqn:Eg; [|exact Hout].
          intros s1 Hs. apply in_app_iff in Hs as [Hs|[<-|[]]]; [now apply Hout|].
          split; [rewrite Z.geb_leb in Eg; now apply Z.leb_le in Eg|exact Htemp]. }
      destruct (Board.isNextInDiagonal lastCard card isLeftToRight
                && Board.isSamePlayerAndColor firstCard card) eqn:Ec; cbn [fst snd].
      + apply andb_true_iff in Ec as [E1 E2]. split; [|exact Hout].
        split; [intros c Hc; apply in_app_iff in Hc as [Hc|[<-|[]]];
                [now apply Hsub|exact Hcard]|].
        split.
        * apply chain_snoc with lastCard; [exact Hchain| |exact E1].
          rewrite last_lookup in Elast. now rewrite Nat.sub_1_r.
        * intros c0 c Hh Hc.
          assert (c0 = firstCard).
          { destruct temp; [discriminate|]. cbn in Hh, Ehead. congruence. }
          subst c0. apply in_app_iff in Hc as [Hc|[<-|[]]]; [now apply Huni|].
          unfold Board.isSamePlayerAndColor in E2. apply andb_true_iff in E2 as [E2 E3].
          apply String.eqb_eq in E2. apply sameRef_eq in E3. now split.
      + split; [now apply Hone|].
        destruct (Z.of_nat (length temp) >=? len) eqn:Eg; [|exact Hout].
        intros s1 Hs. apply in_app_iff in Hs as [Hs|[<-|[]]]; [now apply Hout|].
        split; [rewrite Z.geb_leb in Eg; now apply Z.leb_le in Eg|exact Htemp]. }
  specialize (H cs ([], [])). cbv zeta in H.
  destruct (fold_left _ cs ([], [])) as [temp series]. cbn [fst snd] in H.
  destruct H as [Ht Hs]; [auto| |].
  { split; [|intros s1 []]. split; [intros c []|]. split; [apply chain_nil|].
    intros c0 c [=]. }
  intros Hin.
  assert (Hfin : len <= Z.of_nat (length s) /\ tgood s).
  { destruct (Z.of_nat (length temp) >=? len) eqn:Eg; [|now apply Hs].
    apply in_app_iff in Hin as [Hin|[<-|[]]]; [now apply Hs|].
    split; [rewrite Z.geb_leb in Eg; now apply Z.leb_le in Eg|exact Ht]. }
  destruct Hfin as (H1 & H2 & H3 & H4).
  split; [exact H1|]. split; [exact H2|]. split; [exact H3|exact H4].
Qed.

Lemma lookup_In {A} (l : list A) (i : nat) (x : A) : l !! i = Some x -> In x l.
Proof. intros H. apply list_elem_of_In. now apply list_elem_of_lookup_2 with i. Qed.

Lemma sameCell_true (c d : Card.t) :
  Board.sameCell (Card.x c) (Card.y c) d = true -> Card.x d = Card.x c /\ Card.y d = Card.y c.
Proof.
  unfold Board.sameCell. intros H. apply andb_true_iff in H as [H1 H2].
  now apply Z.eqb_eq in H1, H2.
Qed.

Lemma straight_series (b : Board.t) (key coord : Card.t -> Z) (len : Z) (s : list Card.t) :
  (forall c d, Board.sameCell (Card.x c) (Card.y c) d = true -> key d = key c) ->
  In s (flat_map (Board.scanLine coord len)
          (Board.forIn (map (fun kv => (fst kv, Board.sortBy coord (snd kv)))
                            (Board.groupBy key (Board.cards b))))) ->
  len <= Z.of_nat (length s)
  /\ (forall c, In c s -> visible (Board.cards b) c)
  /\ chain (fun c c' => key c' = key c /\ coord c' = coord c + 1
                        /\ Card.color c' = Card.color c) s.
Proof.
  intros Hkey H. apply in_flat_map in H as (line & Hline & Hs).
  apply lines_In in Hline as [k Hline]; [|exact Hkey].
  apply scanLine_sound in Hs as (Hlen & Hsub & Hchain).
  split; [exact Hlen|]. split; [intros c Hc; now apply Hline, Hsub|].
  intros i c c' Hi Hi'. destruct (Hchain i c c' Hi Hi') as [H1 H2].
  destruct (Hline c (Hsub c (lookup_In _ _ _ Hi))) as [-> _].
  destruct (Hline c' (Hsub c' (lookup_In _ _ _ Hi'))) as [Hk' _].
  now repeat split.
Qed.

Lemma diagonal_series (b : Board.t) (key : Card.t -> Z) (len : Z) (isLeftToRight : bool)
    (s : list Card.t) :
  (forall c d, Board.sameCell (Card.x c) (Card.y c) d = true -> key d = key c) ->
  In s (flat_map (fun cs => Board.findSeriesInDiagonal cs len isLeftToRight)
          (Board.forIn (map (fun kv => (fst kv, Board.sortBy Card.x (snd kv)))
                            (Board.groupBy key (Board.cards b))))) ->
  len <= Z.of_nat (length s)
  /\ (forall c, In c s -> visible (Board.cards b) c)
  /\ aligned 1 (if isLeftToRight then 1 else -1) s
  /\ (forall c c', In c s -> In c' s -> Card.playedBy c = Card.playedBy c').
Proof.
  intros Hkey H. apply in_flat_map in H as (line & Hline & Hs).
  apply lines_In in Hline as [k Hline]; [|exact Hkey].
  apply findSeriesInDiagonal_sound in Hs as (Hlen & Hsub & Hchain & Huni).
  split; [exact Hlen|]. split; [intros c Hc; now apply Hline, Hsub|].
  destruct s as [|c0 s]; [split; [apply chain_nil|intros c c' []]|].
  split.
  - intros i c c' Hi Hi'. specialize (Hchain i c c' Hi Hi'). cbn beta in Hchain.
    destruct (Huni c0 c eq_refl (lookup_In _ _ _ Hi)) as [Hc _].
    destruct (Huni c0 c' eq_refl (lookup_In _ _ _ Hi')) as [Hc' _].
    unfold Board.isNextInDiagonal in Hchain.
    destruct isLeftToRight; apply andb_true_iff in Hchain as [H1 H2];
      apply Z.eqb_eq in H1, H2; repeat split; try lia; congruence.
  - intros c c' Hc Hc'.
    destruct (Huni c0 c eq_refl Hc) as [_ ->]. now destruct (Huni c0 c' eq_refl Hc') as [_ ->].
Qed.

(** X23.  Every series [determineSeriesOfCards] returns is at least
    as long as asked, consists of cards that no later card covers, and
    runs along a column, a row or a diagonal: each card has the colour
    of the card before it and lies on the next cell. *)
Theorem series_are_runs (b : Board.t) (len : Z) (s : list Card.t) :
  In s (Board.determineSeriesOfCards b len) ->
  len <= Z.of_nat (length s)
  /\ (forall c, In c s -> visible (Board.cards b) c)
  /\ (aligned 0 1 s \/ aligned 1 0 s \/ aligned 1 1 s \/ aligned 1 (-1) s).
Proof.
  unfold Board.determineSeriesOfCards. cbv zeta. rewrite !in_app_iff.
  intros [H|[H|[H|H]]].
  - apply straight_series in H as (H1 & H2 & H3).
    + split; [exact H1|]. split; [exact H2|]. left.
      intros i c c' Hi Hi'. destruct (H3 i c c' Hi Hi') as (Hx & Hy & Hc).
      repeat split; [lia|exact Hy|exact Hc].
    + intros c d Hs. now apply sameCell_true in Hs as [-> _].
  - apply straight_series in H as (H1 & H2 & H3).
    + split; [exact H1|]. split; [exact H2|]. right. left.
      intros i c c' Hi Hi'. destruct (H3 i c c' Hi Hi') as (Hy & Hx & Hc).
      repeat split; [exact Hx|lia|exact Hc].
    + intros c d Hs. now apply sameCell_true in Hs as [_ ->].
  - apply diagonal_series in H as (H1 & H2 & H3 & _).
    + split; [exact H1|]. split; [exact H2|]. right. right. left. exact H3.
    + intros c d Hs. apply sameCell_true in Hs as [-> ->]. reflexivity.
  - apply diagonal_series in H as (H1 & H2 & H3 & _).
    + split; [exact H1|]. split; [exact H2|]. right. right. right. exact H3.
    + intros c d Hs. apply sameCell_true in Hs as [-> ->]. reflexivity.
Qed.

(** ** The owner of a winning series *)

Lemma combine_seq_lookup {A} (l : list A) (a i : nat) (x : A) :
  In (i, x) (combine (seq a (length l)) l) -> (a <= i)%nat /\ l !! (i - a)%nat = Some x.
Proof.
  revert a. induction l as [|y l IH]; intros a; cbn [length seq combine]; [intros []|].
  intros [E|H].
  - injection E as <- <-. split; [lia|]. now rewrite Nat.sub_diag.
  - apply IH in H as [H1 H2]. split; [lia|].
    replace (i - a)%nat with (S (i - S a)) by lia. exact H2.
Qed.

Lemma ownerStep_fold (len : Z) (serie : list Card.t) (l : list (nat * Card.t))
    (st : option nat * list Board.Entry) (good : Board.Entry -> Prop) :
  (forall i c p, In (i, c) l -> Z.of_nat i = len - 1 -> Card.playedBy c = Some p ->
                 good (p, serie)) ->
  (forall e, In e st.2 -> good e) ->
  forall e, In e (fold_left (Board.ownerStep len serie) l st).2 -> good e.
Proof.
  revert st. induction l as [|[i c] l IH]; intros st Hl Hst; [exact Hst|].
  cbn [fold_left]. apply IH; [intros i' c' p H; apply Hl; now right|].
  destruct st as [[p|] acc]; cbn [Board.ownerStep]; [|exact Hst].
  destruct (Board.sameRef (Card.playedBy c) (Some p)) eqn:E; cbn [negb]; [|exact Hst].
  destruct (Z.of_nat i =? len - 1) eqn:E1; [|exact Hst].
  cbn [snd]. intros e He. apply in_app_iff in He as [He|[<-|[]]]; [now apply Hst|].
  apply Hl with i c; [now left|now apply Z.eqb_eq|now apply sameRef_eq].
Qed.

Lemma possibleWinningSeries_In (len : Z) (series : list (list Card.t)) (p : nat)
    (s : list Card.t) :
  In (p, s) (Board.possibleWinningSeries len series) ->
  In s series
  /\ exists c, s !! Z.to_nat (len - 1) = Some c /\ Card.playedBy c = Some p.
Proof.
  unfold Board.possibleWinningSeries. intros H.
  apply in_flat_map in H as (s0 & Hs0 & H).
  revert H.
  apply (ownerStep_fold len s0 _ (None, [])
           (fun e => In e.2 series
                     /\ exists c, e.2 !! Z.to_nat (len - 1) = Some c
                                  /\ Card.playedBy c = Some e.1)).
  - intros i c q Hin Hi Hq. apply combine_seq_lookup in Hin as [_ Hin].
    cbn [fst snd]. split; [exact Hs0|]. exists c. split; [|exact Hq].
    replace (Z.to_nat (len - 1)) with (i - 0)%nat by lia. exact Hin.
  - intros e [].
Qed.

Lemma chain_colour (step : Card.t -> Card.t -> Prop) (s : list Card.t) :
  (forall c c', step c c' -> Card.color c' = Card.color c) ->
  chain step s -> forall c c', In c s -> In c' s -> Card.color c = Card.color c'.
Proof.
  intros Hstep Hch.
  assert (H0 : forall i c c0, s !! i = Some c -> s !! 0%nat = Some c0 ->
                 Card.color c = Card.color c0).
  { induction i as [|i IH]; intros c c0 Hi H0; [congruence|].
    destruct (s !! i) as [c1|] eqn:E.
    - rewrite (Hstep c1 c (Hch i c1 c E Hi)). now apply IH.
    - apply lookup_ge_None in E. apply lookup_lt_Some in Hi. lia. }
  intros c c' Hc Hc'.
  apply list_elem_of_In, list_elem_of_lookup_1 in Hc as [i Hi].
  apply list_elem_of_In, list_elem_of_lookup_1 in Hc' as [i' Hi'].
  destruct (s !! 0%nat) as [c0|] eqn:E.
  - rewrite (H0 i c c0 Hi eq_refl). now rewrite (H0 i' c' c0 Hi' eq_refl).
  - apply lookup_ge_None in E. apply lookup_lt_Some in Hi. lia.
Qed.

Lemma visible_In (cs : list Card.t) (c : Card.t) : visible cs c -> In c cs.
Proof. intros (l1 & l2 & -> & _). apply in_app_iff. right. now left. Qed.

Lemma series_one_colour (b : Board.t) (len : Z) (s : list Card.t) :
  In s (Board.determineSeriesOfCards b len) ->
  (forall c, In c s -> In c (Board.cards b))
  /\ forall c c', In c s -> In c' s -> Card.color c = Card.color c'.
Proof.
  unfold Board.determineSeriesOfCards. cbv zeta. rewrite !in_app_iff.
  intros [H|[H|[H|H]]].
  - apply straight_series in H as (_ & H2 & H3).
    + split; [intros c Hc; now apply visible_In, H2|].
      apply (chain_colour _ s) with (2 := H3). now intros c c' (_ & _ & Hc).
    + intros c d Hs. now apply sameCell_true in Hs as [-> _].
  - apply straight_series in H as (_ & H2 & H3).
    + split; [intros c Hc; now apply visible_In, H2|].
      apply (chain_colour _ s) with (2 := H3). now intros c c' (_ & _ & Hc).
    + intros c d Hs. now apply sameCell_true in Hs as [_ ->].
  - apply diagonal_series in H as (_ & H2 & H3 & _).
    + split; [intros c Hc; now apply visible_In, H2|].
      apply (chain_colour _ s) with (2 := H3). now intros c c' (_ & _ & Hc).
    + intros c d Hs. apply sameCell_true in Hs as [-> ->]. reflexivity.
  - apply diagonal_series in H as (_ & H2 & H3 & _).
    + split; [intros c Hc; now apply visible_In, H2|].
      apply (chain_colour _ s) with (2 := H3). now intros c c' (_ & _ & Hc).
    + intros c d Hs. apply sameCell_true in Hs as [-> ->]. reflexivity.
Qed.

Lemma colour_owner (ps : list Player.t) (i j : nat) (pi pj : Player.t) (x : string) :
  NoDup (flat_map Player.color ps) ->
  ps !! i = Some pi -> ps !! j = Some pj ->
  In x (Player.color pi) -> In x (Player.color pj) -> i = j.
Proof.
  revert i j. induction ps as [|p ps IH]; intros i j HN Hi Hj Hxi Hxj; [discriminate|].
  cbn [flat_map] in HN. apply NoDup_app in HN as (_ & Hdis & HN).
  assert (Hin : forall k q, ps !! k = Some q -> In x (Player.color q) ->
                  x ∈ flat_map Player.color ps).
  { intros k q Hk Hq. apply list_elem_of_In, in_flat_map. exists q.
    split; [now apply lookup_In with k|exact Hq]. }
  destruct i as [|i], j as [|j]; cbn in Hi, Hj.
  - reflexivity.
  - injection Hi as ->. exfalso. apply (Hdis x); [now apply list_elem_of_In|].
    now apply Hin with j pj.
  - injection Hj as ->. exfalso. apply (Hdis x); [now apply list_elem_of_In|].
    now apply Hin with i pi.
  - f_equal. now apply IH.
Qed.

Lemma ownColours_update (b : Board.t) (player : nat) (f : Player.t -> Player.t) :
  (forall p, Player.color (f p) = Player.color p) ->
  (forall p c, Board.players b !! player = Some p -> In c (holdings (f p)) ->
               In c (holdings p)) ->
  ownColours b -> ownColours (Board.update_player player f b).
Proof.
  intros Hcol Hhold (HN & Hc & Hh).
  assert (Hmap : flat_map Player.color (alter f player (Board.players b))
                 = flat_map Player.color (Board.players b)).
  { clear -Hcol. revert player. induction (Board.players b) as [|p l IH]; intros player;
      [reflexivity|].
    destruct player as [|player]; cbn [alter list_alter flat_map]; [now rewrite Hcol|].
    f_equal. apply IH. }
  unfold ownColours, Board.update_player.
  cbn [Board.players Board.cards Board.set_players].
  split; [now rewrite Hmap|]. split.
  - intros c Hin. destruct (Hc c Hin) as (q & p & H1 & H2 & H3).
    destruct (decide (q = player)) as [->|Hne].
    + exists player, (f p). split; [exact H1|]. split; [|now rewrite Hcol].
      now rewrite list_lookup_alter_eq, H2.
    + exists q, p. split; [exact H1|]. split; [|exact H3].
      now rewrite list_lookup_alter_ne by congruence.
  - intros q p c Hq Hin. destruct (decide (q = player)) as [->|Hne].
    + rewrite list_lookup_alter_eq in Hq.
      destruct (Board.players b !! player) as [p0|] eqn:E; [|discriminate].
      injection Hq as <-. rewrite Hcol. apply (Hh player p0 c E). now apply Hhold.
    + rewrite list_lookup_alter_ne in Hq by congruence. now apply (Hh q p c).
Qed.

Lemma ownColours_stable : stable (fun b => length (Board.players b) <> 3%nat -> ownColours b).
Proof.
  split.
  - intros b player f Hop H Hn. rewrite update_player_length in Hn. specialize (H Hn).
    apply ownColours_update; [| |exact H].
    + intros p. pose proof (playerOp_roster b player f p Hop) as E.
      unfold roster in E. congruence.
    + intros p c Hp. destruct Hop as [v|Hnone|Hnone|Hw].
      * intros Hin. exact Hin.
      * now rewrite drawCard_holdings by (now apply handOf_None_hand with b player).
      * now rewrite removeCardFromHand_holdings by (now apply handOf_None_hand with b player).
      * intros Hin. exact Hin.
  - intros b card px py player H Hh _ _ Hn. rewrite update_player_length in Hn.
    cbn [Board.set_cards Board.players] in Hn. destruct (H Hn) as (HN & Hc & Hhold).
    destruct (handOf_Some_hand b player card Hh) as (p & Hp & Hhand).
    apply ownColours_update.
    + reflexivity.
    + intros p0 c _. unfold holdings. cbn [Player.set_hand Player.deck Player.hand].
      rewrite !in_app_iff. intros [Hin|[]]. now left.
    + unfold ownColours. cbn [Board.set_cards Board.players Board.cards].
      split; [exact HN|]. split; [|exact Hhold].
      intros c Hin. apply in_app_iff in Hin as [Hin|[<-|[]]]; [now apply Hc|].
      exists player, p. split; [reflexivity|]. split; [exact Hp|].
      cbn [Card.placed Card.color]. apply (Hhold player p card Hp).
      unfold holdings. rewrite Hhand. apply in_app_iff. right. now left.
  - intros b wt ws ls H _ _. exact H.
  - intros b H _. exact H.
Qed.

Lemma fresh_ownColours (b : Board.t) :
  fresh b -> length (Board.players b) <> 3%nat -> ownColours b.
Proof.
  intros Hf Hn. destruct (fresh_deal b Hf) as (_ & Hc & _ & _ & HN & Hp).
  split; [exact HN|]. split; [rewrite Hc; intros c []|].
  intros player p c Hl Hin. destruct (Hp p (lookup_In _ _ _ Hl)) as (Hh & _ & _ & Hall & Hd).
  destruct Hd as (six & Hd & H6 & _).
  assert (E : (length (Board.players b) =? 3)%nat = false) by now apply Nat.eqb_neq.
  rewrite E in H6. destruct six; [|discriminate]. rewrite app_nil_r in Hd.
  unfold holdings in Hin. rewrite Hh in Hin. cbn in Hin. rewrite app_nil_r in Hin.
  apply list_elem_of_In in Hin. rewrite Hd in Hin.
  apply list_elem_of_In, in_flat_map in Hin as (colour & H1 & H2).
  now rewrite (cardsFor_color colour c (Hall colour H1) H2).
Qed.

Lemma reachable_ownColours (b : Board.t) :
  reachable b -> length (Board.players b) <> 3%nat -> ownColours b.
Proof.
  revert b.
  apply (reachable_stable (fun b => length (Board.players b) <> 3%nat -> ownColours b)).
  - exact ownColours_stable.
  - intros n opts r b r' Hn. apply fresh_ownColours. now apply fresh_new with n opts r r'.
  - intros b r b' r' Hr _ Hres. apply fresh_ownColours. now apply fresh_reset with b r r'.
Qed.

(** X24.  In every state that a game of two or of four players
    reaches, the player whom [hasWinningSeries] returns has laid every
    card of a series of at least the length asked for. *)
Theorem run_winner_owns_the_run (b : Board.t) (len : Z) (winner : nat) :
  reachable b -> Board.nbrPlayers b <> 3%nat ->
  Board.hasWinningSeries b len = Some winner ->
  exists s, In s (Board.determineSeriesOfCards b len)
            /\ len <= Z.of_nat (length s)
            /\ forall c, In c s -> Card.playedBy c = Some winner.
Proof.
  intros Hr Hn. unfold Board.hasWinningSeries. cbv zeta.
  destruct (Board.possibleWinningSeries len (Board.determineSeriesOfCards b len))
    as [|[p s] [|e l]] eqn:E; try discriminate.
  intros [= <-]. cbn [fst].
  assert (Hin : In (p, s) (Board.possibleWinningSeries len (Board.determineSeriesOfCards b len)))
    by (rewrite E; now left).
  apply possibleWinningSeries_In in Hin as (Hs & c1 & Hc1 & Hp1).
  exists s. split; [exact Hs|].
  destruct (series_one_colour b len s Hs) as [Hsub Hcol].
  destruct (reachable_ownColours b Hr Hn) as (HN & Hc & _).
  split.
  - unfold Board.determineSeriesOfCards in Hs. cbv zeta in Hs. rewrite !in_app_iff in Hs.
    destruct Hs as [H|[H|[H|H]]].
    + apply straight_series in H as [H _]; [exact H|].
      intros c d Hd. now apply sameCell_true in Hd as [-> _].
    + apply straight_series in H as [H _]; [exact H|].
      intros c d Hd. now apply sameCell_true in Hd as [_ ->].
    + apply diagonal_series in H as [H _]; [exact H|].
      intros c d Hd. apply sameCell_true in Hd as [-> ->]. reflexivity.
    + apply diagonal_series in H as [H _]; [exact H|].
      intros c d Hd. apply sameCell_true in Hd as [-> ->]. reflexivity.
  - intros c Hin.
    destruct (Hc c (Hsub c Hin)) as (q & pq & H1 & H2 & H3).
    destruct (Hc c1 (Hsub c1 (lookup_In _ _ _ Hc1))) as (q1 & pq1 & H4 & H5 & H6).
    rewrite H1. f_equal. rewrite Hp1 in H4. injection H4 as <-.
    rewrite (Hcol c c1 Hin (lookup_In _ _ _ Hc1)) in H3.
    exact (colour_owner _ q p pq pq1 _ HN H2 H5 H3 H6).
Qed.

(** ** The winners of a blocked game *)

Lemma removeDuplicatesFrom_In (n k : nat) (seen : list nat) (arr : list (nat * Z))
    (x : nat * Z) :
  In x (Board.removeDuplicatesFrom n k seen arr) -> In x arr.
Proof.
  revert k seen arr. induction n as [|n IH]; intros k seen arr; [now intros H|].
  cbn [Board.removeDuplicatesFrom]. destruct (arr !! k) as [pc|]; [|apply IH].
  destruct (negb (existsb (Nat.eqb pc.1) seen)); [apply IH|].
  intros H. apply IH in H. apply list_elem_of_In.
  apply elem_of_sublist with (delete k arr); [now apply list_elem_of_In|apply sublist_delete].
Qed.

(** X25.  Every winner [determineWinnerForBlockedGame] names has laid
    the third card of a series of at least three cards, and then there
    are at least two candidates, each a player with a series: with a
    single candidate nobody wins. *)
Theorem blocked_winners_have_a_run (b : Board.t) (winner : nat) :
  In winner (Board.determineWinnerForBlockedGame b) ->
  (1 < length (Board.possibleWinningSeries 3 (Board.determineSeriesOfCards b 3)))%nat
  /\ exists s c,
       In s (Board.determineSeriesOfCards b 3)
       /\ s !! 2%nat = Some c /\ Card.playedBy c = Some winner.
Proof.
  unfold Board.determineWinnerForBlockedGame. cbv zeta.
  set (entries := Board.possibleWinningSeries 3 (Board.determineSeriesOfCards b 3)).
  destruct (1 <? length entries)%nat eqn:E; [|intros []].
  apply Nat.ltb_lt in E. intros H. split; [exact E|].
  assert (Hin : exists e, In e entries /\ e.1 = winner).
  { match type of H with
    | In _ (if ?c then _ else _) => destruct c
    end.
    - apply in_map_iff in H as (pc & <- & H).
      apply removeDuplicatesFrom_In, filter_In in H as [H _].
      apply removeDuplicatesFrom_In, filter_In in H as [H _].
      apply in_map_iff in H as (e & <- & He). now exists e.
    - match type of H with
      | In _ (match ?l with _ => _ end) => destruct l as [|pc l'] eqn:El
      end; [destruct H|].
      destruct H as [<-|[]].
      assert (H : In pc (pc :: l')) by now left.
      rewrite <- El in H.
      apply removeDuplicatesFrom_In, filter_In in H as [H _].
      apply in_map_iff in H as (e & <- & He). now exists e. }
  destruct Hin as ([p s] & He & <-). cbn [fst].
  apply possibleWinningSeries_In in He as (Hs & c & Hc & Hp).
  exists s, c. split; [exact Hs|]. split; [exact Hc|exact Hp].
Qed.

Lemma blocked_winners_have_a_run_witness :
  Board.determineWinnerForBlockedGame blockGame = [0%nat]
  /\ (1 < length (Board.possibleWinningSeries 3 (Board.determineSeriesOfCards blockGame 3)))%nat
  /\ exists s c,
       In s (Board.determineSeriesOfCards blockGame 3)
       /\ s !! 2%nat = Some c /\ Card.playedBy c = Some 0%nat.
Proof.
  split; [vm_compute; reflexivity|].
  apply (blocked_winners_have_a_run blockGame 0). vm_compute. left. reflexivity.
Defined.

(** ** Turns of a game *)









(** ** Instances *)

Lemma playATurn_reachable (n : nat) (auto : bool) (b : Board.t) (script : list Board.Prompt) :
  reachable b -> reachable (Punto.playATurn n auto b script).1.1.
Proof.
  revert b script. induction n as [|n IH]; intros b script Hr; [exact Hr|].
  cbn [Punto.playATurn]. destruct (Board.isGameOver b); [exact Hr|].
  destruct (Board.doATurn auto b script) as [[b' rest] st] eqn:E.
  assert (Hr' : reachable b') by now apply reach_turn with b auto script rest st.
  destruct st; try exact Hr'; now apply IH.
Qed.

Lemma stackedGame_reachable : reachable stackedGame.
Proof. apply playATurn_reachable, freshGame_reachable. Qed.

Lemma freshGame_fresh : fresh freshGame.
Proof. exact (fresh_new 2 twoPlayers [] [] freshGame freshGame_new). Qed.

Lemma cardCanBePlaced_agrees_witness :
  Board.cards openingGame <> []
  /\ (Board.cardCanBePlaced openingGame (Card.new 1 "blue" 9) 0 1 = true
      <-> In (Coordinates.mk 0 1) (Board.availableCoordinates openingGame 9))
  /\ (Board.cardCanBePlaced openingGame (Card.new 1 "blue" 9) 0 1 = true ->
      -5 <= 0 <= 5 /\ -5 <= 1 <= 5).
Proof.
  split; [vm_compute; discriminate|].
  apply (cardCanBePlaced_agrees openingGame (Card.new 1 "blue" 9) 0 1).
  vm_compute. discriminate.
Defined.

Lemma first_card_cells_witness :
  Board.cards freshGame = []
  /\ (Board.cardCanBePlaced freshGame (Card.new 1 "blue" 9) 3 (-2) = true
      <-> -5 <= 3 <= 5 /\ -5 <= -2 <= 5)
  /\ Board.availableCoordinates freshGame 9 = []
  /\ Board.determineCardCoordinates freshGame 9 0 = None.
Proof.
  split; [reflexivity|].
  apply (first_card_cells freshGame (Card.new 1 "blue" 9) 3 (-2) 0). reflexivity.
Defined.

Lemma stacks_strictly_increase_witness :
  exists ci cj,
    Board.cards stackedGame !! 0%nat = Some ci /\ Board.cards stackedGame !! 4%nat = Some cj
    /\ Card.x ci = Card.x cj /\ Card.y ci = Card.y cj
    /\ Card.value ci < Card.value cj.
Proof.
  eexists. eexists.
  split; [vm_compute; reflexivity|]. split; [vm_compute; reflexivity|].
  split; [reflexivity|]. split; [reflexivity|].
  apply (stacks_strictly_increase stackedGame stackedGame_reachable 0 4).
  - lia.
  - vm_compute. reflexivity.
  - vm_compute. reflexivity.
  - reflexivity.
  - reflexivity.
Defined.

Lemma board_fits_the_grid_witness :
  exists c d,
    Board.cards stackedGame !! 1%nat = Some c /\ Board.cards stackedGame !! 3%nat = Some d
    /\ (-5 <= Card.x c <= 5 /\ -5 <= Card.y c <= 5)
    /\ Z.abs (Card.x c - Card.x d) <= 5 /\ Z.abs (Card.y c - Card.y d) <= 5.
Proof.
  eexists. eexists.
  split; [vm_compute; reflexivity|]. split; [vm_compute; reflexivity|].
  apply (board_fits_the_grid stackedGame stackedGame_reachable).
  - vm_compute. right. left. reflexivity.
  - vm_compute. do 3 right. left. reflexivity.
Defined.

Lemma cards_grow_from_the_origin_witness :
  (forall c, head (Board.cards stackedGame) = Some c -> Card.x c = 0 /\ Card.y c = 0)
  /\ (forall j cj,
        (0 < j)%nat -> Board.cards stackedGame !! j = Some cj ->
        exists i ci, (i < j)%nat /\ Board.cards stackedGame !! i = Some ci
                     /\ touches (Card.x cj) (Card.y cj) ci).
Proof. exact (cards_grow_from_the_origin stackedGame stackedGame_reachable). Defined.

Lemma cards_record_their_play_witness :
  0 <= Board.turn stackedGame
  /\ forall c, In c (Board.cards stackedGame) ->
       exists player,
         Card.playedBy c = Some player /\ (player < Board.nbrPlayers stackedGame)%nat
         /\ Card.playedIn c = Z.of_nat player
         /\ 0 <= Card.playedTurn c <= Board.turn stackedGame.
Proof. exact (cards_record_their_play stackedGame stackedGame_reachable). Defined.

Lemma doATurn_completed_witness :
  Board.doATurn false freshGame [at_ 1 1] = (openingGame, [], Board.Completed)
  /\ Board.turn openingGame = Board.turn freshGame + 1
  /\ length (Board.cards openingGame) = (length (Board.cards freshGame) + 2)%nat.
Proof.
  assert (H : Board.doATurn false freshGame [at_ 1 1] = (openingGame, [], Board.Completed))
    by (vm_compute; reflexivity).
  split; [exact H|].
  destruct (doATurn_completed false freshGame openingGame [at_ 1 1] [] H)
    as (H1 & _ & _ & _ & _ & H2 & _).
  split; [exact H1|exact H2].
Defined.

Lemma turn_between_turns_witness :
  ready 36 freshGame
  /\ match Board.doATurn true freshGame (autoScript 2) with
     | (b', rest, Board.Completed) =>
       (exists d', 36%nat = S d' /\ ready d' b') /\ Board.turn b' = Board.turn freshGame + 1
     | (b', rest, Board.Returned) =>
       Board.isGameOver b' = true /\ Board.turn b' = Board.turn freshGame
     | (b', rest, Board.Awaiting) =>
       true = true -> (length (autoScript 2) < Board.nbrPlayers freshGame)%nat
     | (_, _, Board.Threw _) | (_, _, Board.Spinning) => False
     end.
Proof.
  assert (H : ready 36 freshGame) by exact (fresh_ready freshGame freshGame_fresh).
  split; [exact H|]. exact (turn_between_turns true 36 freshGame (autoScript 2) H).
Defined.

Lemma fresh_board_deal_witness :
  fresh freshGame
  /\ Board.cards freshGame = []
  /\ NoDup (flat_map Player.color (Board.players freshGame))
  /\ forall p, In p (Board.players freshGame) ->
       Player.hand p = None /\ length (Player.deck p) = 36%nat.
Proof.
  split; [exact freshGame_fresh|].
  destruct (fresh_board_deal freshGame freshGame_fresh) as (_ & H1 & _ & _ & H2 & H3).
  split; [exact H1|]. split; [exact H2|].
  intros p Hp. destruct (H3 p Hp) as (H4 & H5 & _). split; [exact H4|exact H5].
Defined.

Lemma automatic_game_ends_witness :
  exists b' rest,
    Punto.playGame (-1) 37 true freshGame (autoScript 72) = Some (b', rest, Board.Completed)
    /\ Board.isGameOver b' = true
    /\ 0 <= Board.turn b' <= 72 / Z.of_nat (Board.nbrPlayers freshGame).
Proof.
  apply (automatic_game_ends freshGame (autoScript 72) 37 freshGame_fresh).
  - vm_compute. lia.
  - vm_compute. lia.
Defined.

Lemma randomizePlayerTurn_marks_witness :
  exists player,
    Board.randomizePlayerTurn false freshGame [1%nat]
    = Some (Board.update_player player (Player.set_isTurn true) freshGame, tl [1%nat])
    /\ (player < length (Board.players freshGame))%nat
    /\ (false = true -> Board.winners freshGame <> [] -> In player (Board.winners freshGame)).
Proof.
  apply (randomizePlayerTurn_marks false freshGame [1%nat]).
  - vm_compute. discriminate.
  - vm_compute. intros w [].
Defined.

Lemma playerTurnByNbrFirstPlayer_first_witness :
  exists first pf,
    Board.playerTurnByNbrFirstPlayer false freshGame
      = Some (first, Board.update_player first (Player.set_isTurn true) freshGame)
    /\ Board.players freshGame !! first = Some pf
    /\ (forall q, In q (Board.players freshGame) ->
          atLeastAsGood false (Player.nbrFirstPlayer pf) (Player.nbrFirstPlayer q))
    /\ (forall i q, (i < first)%nat -> Board.players freshGame !! i = Some q ->
          Player.nbrFirstPlayer q <> Player.nbrFirstPlayer pf).
Proof.
  apply (playerTurnByNbrFirstPlayer_first false freshGame). vm_compute. discriminate.
Defined.

Lemma series_are_runs_witness :
  exists s,
    Board.determineSeriesOfCards stackedGame 2 = [s]
    /\ 2 <= Z.of_nat (length s)
    /\ (forall c, In c s -> visible (Board.cards stackedGame) c)
    /\ (aligned 0 1 s \/ aligned 1 0 s \/ aligned 1 1 s \/ aligned 1 (-1) s).
Proof.
  eexists. split; [vm_compute; reflexivity|].
  apply (series_are_runs stackedGame 2). vm_compute. left. reflexivity.
Defined.

Lemma run_winner_owns_the_run_witness :
  Board.hasWinningSeries stackedGame 2 = Some 0%nat
  /\ exists s, In s (Board.determineSeriesOfCards stackedGame 2)
               /\ 2 <= Z.of_nat (length s)
               /\ forall c, In c s -> Card.playedBy c = Some 0%nat.
Proof.
  split; [vm_compute; reflexivity|].
  apply (run_winner_owns_the_run stackedGame 2 0 stackedGame_reachable).
  - vm_compute. lia.
  - vm_compute. reflexivity.
Defined.
